(** * A-Maze-ing: the maze generator core, embedded from the Python source

    The development follows [src/mazegen/models.py] (the [Cell] class),
    [src/mazegen/generator.py] (the [MazeGenerator] class) and
    [src/utils/write_output.py], and the callers of the class in
    [src/a_maze_ing.py], [src/utils/parsing.py] and
    [src/utils/visualizer.py].  Python integers are [Z], lists are [list],
    the [distance] dictionary of the path search is a [gmap], exceptions are
    an explicit outcome of every operation that can raise. *)

From Stdlib Require Import ZArith Lia Ascii String.
From stdpp Require Import base list gmap strings pretty.

Set Warnings "-register-all".

Open Scope Z_scope.

(** ** Python values, exceptions and the outcome of a call *)

(** The dynamically typed values the constructor can receive. *)
Inductive pyval : Type :=
| PyNone
| PyBool (b : bool)
| PyInt (n : Z)
| PyStr (s : string)
| PyTuple (items : list pyval).

Inductive pyexn : Type :=
| TypeError (msg : string)
| ValueError (msg : string)
| AttributeError (msg : string)
| IndexError
| OSError
| OverflowError (msg : string).

(** What a call does: it returns, it raises, or the bounded loop that
    models a [while] ran out of iterations. *)
Inductive run (A : Type) : Type :=
| Ret (a : A)
| Raise (e : pyexn)
| OutOfFuel.
Arguments Ret {A} a.
Arguments Raise {A} e.
Arguments OutOfFuel {A}.

#[global] Instance run_ret : MRet run := fun A a => Ret a.
#[global] Instance run_bind : MBind run := fun A B f m =>
  match m with
  | Ret a => f a
  | Raise e => Raise e
  | OutOfFuel => OutOfFuel
  end.

Definition returns {A} (m : run A) : Prop := ∃ a, m = Ret a.

(** [bool(v)]: Python truthiness. *)
Definition truthy (v : pyval) : bool :=
  match v with
  | PyNone => false
  | PyBool b => b
  | PyInt n => negb (n =? 0)
  | PyStr s => negb (String.eqb s "")
  | PyTuple l => match l with [] => false | _ => true end
  end.

(** The integer a value denotes when [isinstance(v, int)] holds: [bool] is
    a subclass of [int]. *)
Definition as_int (v : pyval) : option Z :=
  match v with
  | PyInt n => Some n
  | PyBool b => Some (if b then 1 else 0)
  | _ => None
  end.

(** [repr(v)] on the values that reach an error message. *)
Fixpoint repr (v : pyval) : string :=
  match v with
  | PyNone => "None"
  | PyBool b => if b then "True" else "False"
  | PyInt n => pretty n
  | PyStr s => "'" +:+ s +:+ "'"
  | PyTuple l =>
      match l with
      | [] => "()"
      | [a] => "(" +:+ repr a +:+ ",)"
      | a :: rest =>
          "(" +:+ repr a +:+
          fold_right (fun x acc => ", " +:+ repr x +:+ acc) ")" rest
      end
  end.

(** [l[i]] with Python's negative indices and its [IndexError]. *)
Definition py_norm_index {A} (l : list A) (i : Z) : run nat :=
  let n := Z.of_nat (length l) in
  let j := if i <? 0 then i + n else i in
  if (0 <=? j) && (j <? n) then Ret (Z.to_nat j) else Raise IndexError.

Definition py_index {A} (l : list A) (i : Z) : run A :=
  j ← py_norm_index l i;
  match l !! j with
  | Some a => Ret a
  | None => Raise IndexError
  end.

(** ** models.py: the cell *)

Module Cell.

Definition NORTH : Z := 1.
Definition EAST : Z := 2.
Definition SOUTH : Z := 4.
Definition WEST : Z := 8.

Record t : Type := { _walls : Z; _is_visited : bool }.

Definition __init__ : t := {| _walls := 15; _is_visited := false |}.

Definition set_walls (c : t) (w : Z) : t :=
  {| _walls := w; _is_visited := _is_visited c |}.

Definition add_north_wall (c : t) : t := set_walls c (Z.lor (_walls c) NORTH).
Definition add_east_wall (c : t) : t := set_walls c (Z.lor (_walls c) EAST).
Definition add_south_wall (c : t) : t := set_walls c (Z.lor (_walls c) SOUTH).
Definition add_west_wall (c : t) : t := set_walls c (Z.lor (_walls c) WEST).

Definition remove_north_wall (c : t) : t :=
  set_walls c (Z.land (_walls c) (Z.lnot NORTH)).
Definition remove_east_wall (c : t) : t :=
  set_walls c (Z.land (_walls c) (Z.lnot EAST)).
Definition remove_south_wall (c : t) : t :=
  set_walls c (Z.land (_walls c) (Z.lnot SOUTH)).
Definition remove_west_wall (c : t) : t :=
  set_walls c (Z.land (_walls c) (Z.lnot WEST)).

(** [bool(self._walls & flag)] *)
Definition has_wall (c : t) (flag : Z) : bool :=
  negb (Z.land (_walls c) flag =? 0).

Definition has_north_wall (c : t) : bool := has_wall c NORTH.
Definition has_east_wall (c : t) : bool := has_wall c EAST.
Definition has_south_wall (c : t) : bool := has_wall c SOUTH.
Definition has_west_wall (c : t) : bool := has_wall c WEST.

Definition visited (c : t) : bool := _is_visited c.

Definition set_visited (value : bool) (c : t) : t :=
  {| _walls := _walls c; _is_visited := value |}.

(** Python's [hex]: ["0x"] and the lowercase digits, a minus sign first for
    a negative number. *)
Definition hex_digit (d : Z) : ascii :=
  nth (Z.to_nat d) (list_ascii_of_string "0123456789abcdef") "0"%char.

Fixpoint hex_digits (fuel : nat) (n : Z) (acc : string) : string :=
  match fuel with
  | O => acc
  | S fuel' =>
      let acc' := String (hex_digit (n `mod` 16)) acc in
      if n `div` 16 =? 0 then acc' else hex_digits fuel' (n `div` 16) acc'
  end.

Definition hex (n : Z) : string :=
  (if n <? 0 then "-0x" else "0x") +:+
  hex_digits (S (Z.to_nat (Z.log2 (Z.abs n)))) (Z.abs n) "".

(** [str.upper] on ASCII text. *)
Definition upper_char (a : ascii) : ascii :=
  let n := nat_of_ascii a in
  if ((97 <=? n) && (n <=? 122))%nat then ascii_of_nat (n - 32) else a.

Fixpoint upper (s : string) : string :=
  match s with
  | EmptyString => EmptyString
  | String a s' => String (upper_char a) (upper s')
  end.

Fixpoint drop_chars (n : nat) (s : string) : string :=
  match n, s with
  | O, _ => s
  | S n', String _ s' => drop_chars n' s'
  | S _, EmptyString => EmptyString
  end.

(** [hex(self._walls)[2:].upper()] *)
Definition to_hex (c : t) : string := upper (drop_chars 2 (hex (_walls c))).

End Cell.

#[global] Instance cell_eq_dec : EqDecision Cell.t.
Proof. solve_decision. Defined.

(** ** generator.py: the generator object *)

Abbreviation coord := (Z * Z)%type (only parsing).
Abbreviation grid := (list (list Cell.t)) (only parsing).

(** A step event of a carving run: the cell and the wall removed from it
    ([-1] in the opening event). *)
Abbreviation event := (Z * Z * Z)%type (only parsing).

(** [entry] and [maze_exit] hold the integer values of the two tuples;
    [entry_is_bool] and [exit_is_bool] tell which of their elements are
    [bool] objects, which [isinstance(coord, int)] lets through and which
    differ from the integers 1 and 0 only in how [str] shows them. *)
Record MazeGenerator : Type := {
  width : Z;
  height : Z;
  entry : coord;
  entry_is_bool : bool * bool;
  maze_exit : coord;
  exit_is_bool : bool * bool;
  seed : Z;
  output_file : string;
  perfect : bool;
  pattern_42 : list coord;
  maze : grid;
  path : list coord
}.

Definition set_maze (g : MazeGenerator) (m : grid) : MazeGenerator :=
  {| width := width g; height := height g;
     entry := entry g; entry_is_bool := entry_is_bool g;
     maze_exit := maze_exit g; exit_is_bool := exit_is_bool g; seed := seed g; output_file := output_file g;
     perfect := perfect g; pattern_42 := pattern_42 g;
     maze := m; path := path g |}.

Definition set_path (g : MazeGenerator) (p : list coord) : MazeGenerator :=
  {| width := width g; height := height g;
     entry := entry g; entry_is_bool := entry_is_bool g;
     maze_exit := maze_exit g; exit_is_bool := exit_is_bool g; seed := seed g; output_file := output_file g;
     perfect := perfect g; pattern_42 := pattern_42 g;
     maze := maze g; path := p |}.

(** The attributes a driver assigns between runs (the visualizer sets
    [gen.seed] and [gen.perfect]). *)
Definition set_seed (g : MazeGenerator) (s : Z) : MazeGenerator :=
  {| width := width g; height := height g;
     entry := entry g; entry_is_bool := entry_is_bool g;
     maze_exit := maze_exit g; exit_is_bool := exit_is_bool g; seed := s; output_file := output_file g;
     perfect := perfect g; pattern_42 := pattern_42 g;
     maze := maze g; path := path g |}.

Definition set_perfect (g : MazeGenerator) (b : bool) : MazeGenerator :=
  {| width := width g; height := height g;
     entry := entry g; entry_is_bool := entry_is_bool g;
     maze_exit := maze_exit g; exit_is_bool := exit_is_bool g; seed := seed g; output_file := output_file g;
     perfect := b; pattern_42 := pattern_42 g;
     maze := maze g; path := path g |}.

(** [DIRECTIONS]: (dx, dy, wall, opposite wall). *)
Definition DIRECTIONS : list (Z * Z * Z * Z) :=
  [ (0, -1, Cell.NORTH, Cell.SOUTH);
    (1, 0, Cell.EAST, Cell.WEST);
    (0, 1, Cell.SOUTH, Cell.NORTH);
    (-1, 0, Cell.WEST, Cell.EAST) ].

(** *** Validation of the constructor's arguments *)

(** The per-point check of the loop over [entry] and [maze_exit]. *)
Definition validate_point (name : string) (point : pyval) (w h : Z) : run coord :=
  match point with
  | PyTuple [a; b] =>
      match as_int a, as_int b with
      | Some x, Some y =>
          if (0 <=? x) && (x <? w) && (0 <=? y) && (y <? h)
          then Ret (x, y)
          else Raise (ValueError
                 (name +:+ " " +:+ repr point +:+ " is out of maze dimentions!"))
      | _, _ => Raise (TypeError (name +:+ " must be a tuple of two integers!"))
      end
  | _ => Raise (TypeError (name +:+ " must be a tuple of two integers!"))
  end.

(** The typed arguments that [_validate_inputs] let through; the seed is
    kept as the value it was given. *)
Record checked_inputs : Type := {
  ci_width : Z; ci_height : Z; ci_entry : coord; ci_exit : coord;
  ci_output : string; ci_perfect : bool
}.

Definition _validate_inputs
  (width height entry maze_exit seed output_file perfect : pyval)
  : run checked_inputs :=
  match as_int width, as_int height with
  | Some w, Some h =>
      if (w <=? 0) || (h <=? 0)
      then Raise (ValueError "Width and height must be greater than 0!")
      else if (w <? 3) || (h <? 3)
      then Raise (ValueError
             ("Cannot generate a valid maze with " +:+
              repr (PyTuple [width; height]) +:+
              String "010"%char "A valid maze must be at least 3x3!"))
      else
        e ← validate_point "entry" entry w h;
        x ← validate_point "maze_exit" maze_exit w h;
        if bool_decide (e = x)
        then Raise (ValueError "Entry and exit should be different cells")
        else
          _ ← (if truthy seed
               then match as_int seed with
                    | None => Raise (TypeError "Seed value must be an integer!")
                    | Some s =>
                        if s <? 0
                        then Raise (ValueError "Seed value must be greater than 0!")
                        else Ret ()
                    end
               else Ret ());
          match output_file with
          | PyStr f =>
              match perfect with
              | PyBool p =>
                  Ret {| ci_width := w; ci_height := h; ci_entry := e;
                         ci_exit := x; ci_output := f; ci_perfect := p |}
              | _ => Raise (TypeError
                       "Perfect flag must be a boolean (True/False)!")
              end
          | _ => Raise (TypeError "Output file name must be a string!")
          end
  | _, _ => Raise (TypeError "Width and hight must be integers!")
  end.

(** *** The true division of [_generate_pattern_42]

    [n / 2] on integers is Python's true division: the double nearest to
    the quotient, ties to the even significand, and [OverflowError] when
    that double would be beyond the largest one.  Halving commutes with the
    rounding, so [n] is rounded to 53 significant bits first; up to [2^53]
    it is a double already. *)
Definition round_to_double (n : Z) : Z :=
  if n <? 2 ^ 53 then n
  else
    let shift := Z.log2 n - 52 in
    let m := Z.shiftr n shift in
    let rem := n - Z.shiftl m shift in
    let half := 2 ^ (shift - 1) in
    let m' :=
      if (half <? rem) || ((rem =? half) && Z.odd m) then m + 1 else m in
    Z.shiftl m' shift.

(** [n / 2] raises: the rounded quotient is [2^1024] or more. *)
Definition truediv_overflows (n : Z) : bool :=
  2 ^ 1025 <=? round_to_double n.

(** [int(n / 2)] for a positive [n], where the division does not raise. *)
Definition int_half (n : Z) : Z := Z.quot (round_to_double n) 2.

(** [_generate_pattern_42]: the anchor is [int((width - 7) / 2)],
    [int((height - 5) / 2)]; both dividends are positive on the branch
    that computes it. *)
Definition pattern_anchor (w h : Z) : coord :=
  (int_half (w - 7), int_half (h - 5)).

Definition pattern_cells (pattern_x pattern_y : Z) : list coord :=
  [ (pattern_x, pattern_y);
    (pattern_x, pattern_y + 1);
    (pattern_x, pattern_y + 2);
    (pattern_x + 1, pattern_y + 2);
    (pattern_x + 2, pattern_y + 2);
    (pattern_x + 2, pattern_y + 3);
    (pattern_x + 2, pattern_y + 4);
    (pattern_x + 4, pattern_y);
    (pattern_x + 4, pattern_y + 2);
    (pattern_x + 4, pattern_y + 3);
    (pattern_x + 4, pattern_y + 4);
    (pattern_x + 5, pattern_y);
    (pattern_x + 5, pattern_y + 2);
    (pattern_x + 5, pattern_y + 4);
    (pattern_x + 6, pattern_y);
    (pattern_x + 6, pattern_y + 1);
    (pattern_x + 6, pattern_y + 2);
    (pattern_x + 6, pattern_y + 4) ].

Definition _generate_pattern_42 (w h : Z) (entry maze_exit : coord)
  : run (list coord) :=
  if (8 <? w) && (8 <? h) then
    if truediv_overflows (w - 7) || truediv_overflows (h - 5)
    then Raise (OverflowError "integer division result too large for a float")
    else
    let '(pattern_x, pattern_y) := pattern_anchor w h in
    let pattern := pattern_cells pattern_x pattern_y in
    if bool_decide (entry ∈ pattern)
    then Raise (ValueError "Entry point is inside 42 pattern!")
    else if bool_decide (maze_exit ∈ pattern)
    then Raise (ValueError "Exit point is inside 42 pattern!")
    else Ret pattern
  else Raise (ValueError "Cannot generate 42 pattern, maze too small!").

(** Which elements of a point are [bool] objects. *)
Definition is_bool (v : pyval) : bool :=
  match v with PyBool _ => true | _ => false end.

Definition point_is_bool (point : pyval) : bool * bool :=
  match point with
  | PyTuple [a; b] => (is_bool a, is_bool b)
  | _ => (false, false)
  end.

(** [MazeGenerator.__init__].  [default_seed] is the value of the default
    argument [randint(0, 100)], which Python evaluates once, when the class
    body is executed; [seed = None] below stands for a call that omits the
    argument.  [seed if seed else self.seed] reads an attribute nothing has
    assigned when the given seed is falsy. *)
Definition __init__ (default_seed : Z)
  (width height entry maze_exit output_file perfect : pyval)
  (seed : option pyval) : run MazeGenerator :=
  let seed_arg := default (PyInt default_seed) seed in
  ci ← _validate_inputs width height entry maze_exit seed_arg output_file perfect;
  s ← (if truthy seed_arg
       then match as_int seed_arg with
            | Some s => Ret s
            | None => Raise (TypeError "Seed value must be an integer!")
            end
       else Raise (AttributeError
              "'MazeGenerator' object has no attribute 'seed'"));
  pattern ← _generate_pattern_42 (ci_width ci) (ci_height ci)
              (ci_entry ci) (ci_exit ci);
  Ret {| width := ci_width ci; height := ci_height ci;
         entry := ci_entry ci; entry_is_bool := point_is_bool entry;
         maze_exit := ci_exit ci; exit_is_bool := point_is_bool maze_exit;
         seed := s; output_file := ci_output ci; perfect := ci_perfect ci;
         pattern_42 := pattern; maze := []; path := [] |}.

(** *** Grid helpers *)

Definition _generate_grid (g : MazeGenerator) : grid :=
  replicate (Z.to_nat (height g)) (replicate (Z.to_nat (width g)) Cell.__init__).

Definition _is_not_42_pattern (g : MazeGenerator) (x y : Z) : bool :=
  forallb (fun p => negb (bool_decide ((x, y) = p))) (pattern_42 g).

Definition _in_maze_bounds (g : MazeGenerator) (x y : Z) : bool :=
  (0 <=? x) && (x <? width g) && (0 <=? y) && (y <? height g)
  && _is_not_42_pattern g x y.

Definition _remove_wall (cell : Cell.t) (wall : Z) : Cell.t :=
  if wall =? Cell.NORTH then Cell.remove_north_wall cell
  else if wall =? Cell.EAST then Cell.remove_east_wall cell
  else if wall =? Cell.SOUTH then Cell.remove_south_wall cell
  else if wall =? Cell.WEST then Cell.remove_west_wall cell
  else cell.

Definition _wall_count (cell : Cell.t) : Z :=
  Z.b2z (Cell.has_east_wall cell) + Z.b2z (Cell.has_north_wall cell)
  + Z.b2z (Cell.has_south_wall cell) + Z.b2z (Cell.has_west_wall cell).

(** [self.maze[y][x]] *)
Definition cell_at (m : grid) (x y : Z) : run Cell.t :=
  row ← py_index m y;
  py_index row x.

(** A method call on the cell object [self.maze[y][x]]: the cell is
    replaced, in its row, by the cell the method leaves. *)
Definition update_cell (f : Cell.t → Cell.t) (m : grid) (x y : Z) : run grid :=
  j ← py_norm_index m y;
  match m !! j with
  | Some row =>
      i ← py_norm_index row x;
      Ret (alter (alter f i) j m)
  | None => Raise IndexError
  end.

(** *** The pseudo-random generator

    [random.seed] and [random.randint] of the Python library, as an
    interface: a state, its initialisation from a seed, and a draw that
    stays within the bounds it is given.  Every carving run starts with
    [seed(self.seed)], so a run is a function of the generator object. *)
Record RandomSource : Type := {
  rng_state : Type;
  rng_seed : Z → rng_state;
  rng_randint : Z → Z → rng_state → Z * rng_state;
  rng_randint_range : ∀ a b s, a ≤ b →
    a ≤ (rng_randint a b s).1 ∧ (rng_randint a b s).1 ≤ b
}.

(** A linear congruential generator, used to run the model on examples. *)
Definition lcg_next (s : Z) : Z := (s * 1103515245 + 12345) `mod` 2147483648.

Definition lcg_randint (a b s : Z) : Z * Z :=
  let s' := lcg_next s in
  (a + (s' `div` 65536) `mod` (Z.max 1 (b - a + 1)), s').

Lemma lcg_randint_range a b s :
  a ≤ b → a ≤ (lcg_randint a b s).1 ∧ (lcg_randint a b s).1 ≤ b.
Proof.
  intros Hab. unfold lcg_randint. cbn [fst].
  rewrite Z.max_r by lia.
  pose proof (Z.mod_pos_bound (lcg_next s `div` 65536) (b - a + 1)). lia.
Qed.

Definition lcg : RandomSource :=
  {| rng_state := Z; rng_seed := fun s => s; rng_randint := lcg_randint;
     rng_randint_range := lcg_randint_range |}.

(** [range(a, b)] *)
Definition py_range (a b : Z) : list Z :=
  map (fun i => a + Z.of_nat i) (seq 0 (Z.to_nat (b - a))).

(** A [for] loop whose body can raise. *)
Fixpoint for_each {A S} (body : S → A → run S) (items : list A) (s : S) : run S :=
  match items with
  | [] => Ret s
  | a :: rest => s' ← body s a; for_each body rest s'
  end.

(** An edge of the frontier of [prim_steps]:
    [(x, y, next_x, next_y, wall, op_wall)]. *)
Abbreviation frontier_edge := (Z * Z * Z * Z * Z * Z)%type (only parsing).

Section carving.
Context (R : RandomSource).

(** The body of the loops over [DIRECTIONS] in [dfs_steps] and in
    [add_to_frontier]: the neighbours that are inside the maze, outside the
    pattern and not visited, in the order of [DIRECTIONS]. *)
Fixpoint unvisited_neighbors (g : MazeGenerator) (m : grid) (x y : Z)
  (dirs : list (Z * Z * Z * Z)) : run (list (Z * Z * Z * Z)) :=
  match dirs with
  | [] => Ret []
  | (dx, dy, wall, op_wall) :: rest =>
      let next_x := x + dx in
      let next_y := y + dy in
      keep ← (if _in_maze_bounds g next_x next_y
              then c ← cell_at m next_x next_y; Ret (negb (Cell.visited c))
              else Ret false);
      others ← unvisited_neighbors g m x y rest;
      Ret (if keep : bool then (next_x, next_y, wall, op_wall) :: others else others)
  end.

(** The loop over [DIRECTIONS] in [braid_dead_ends]. *)
Definition braid_neighbors (g : MazeGenerator) (x y : Z) : list (Z * Z * Z * Z) :=
  omap (fun d : Z * Z * Z * Z =>
          let '(dx, dy, wall, op_wall) := d in
          if _in_maze_bounds g (x + dx) (y + dy)
          then Some (x + dx, y + dy, wall, op_wall) else None)
       DIRECTIONS.

(** The removal of the wall pair between [(x, y)] and [(nx, ny)]. *)
Definition remove_wall_pair (m : grid) (x y nx ny wall op_wall : Z) : run grid :=
  m1 ← update_cell (fun c => _remove_wall c wall) m x y;
  update_cell (fun c => _remove_wall c op_wall) m1 nx ny.

(** One pass of the body of the two nested [for] loops of
    [braid_dead_ends], at the cell [(x, y)]. *)
Definition braid_cell (g : MazeGenerator) (st : grid * rng_state R) (xy : coord)
  : run (grid * rng_state R) :=
  let '(m, rng) := st in
  let '(x, y) := xy in
  if negb (_is_not_42_pattern g x y) then Ret st
  else
    cell ← cell_at m x y;
    if _wall_count cell =? 3 then
      let neighbors := braid_neighbors g x y in
      match neighbors with
      | [] => Ret st
      | _ =>
          let '(idx, rng') := rng_randint R 0 (Z.of_nat (length neighbors) - 1) rng in
          '(nx, ny, wall, op_wall) ← py_index neighbors idx;
          m' ← remove_wall_pair m x y nx ny wall op_wall;
          Ret (m', rng')
      end
    else Ret st.

(** The cells the two loops visit, row by row. *)
Definition braid_cells (g : MazeGenerator) : list coord :=
  y ← py_range 1 (height g - 1);
  x ← py_range 1 (width g - 1);
  [(x, y)].

Definition braid_dead_ends (g : MazeGenerator) : run MazeGenerator :=
  '(m, _) ← for_each (braid_cell g) (braid_cells g) (maze g, rng_seed R (seed g));
  Ret (set_maze g m).

(** **** Depth-first backtracker *)

(** The local state of [dfs_steps]; the top of the stack is the head of
    the list. *)
Record dfs_frame : Type := {
  df_maze : grid;
  df_stack : list coord;
  df_rng : rng_state R
}.

(** One iteration of [while stack].  A carving iteration suspends at its
    [yield] with the grid as it is then (both walls removed, the neighbour
    not yet marked): that grid is returned beside the event. *)
Definition dfs_iter (g : MazeGenerator) (st : dfs_frame)
  : run (dfs_frame * option (event * grid)) :=
  match df_stack st with
  | [] => Ret (st, None)
  | (x, y) :: below =>
      let m := df_maze st in
      _ ← cell_at m x y;
      neighbors ← unvisited_neighbors g m x y DIRECTIONS;
      match neighbors with
      | [] => Ret ({| df_maze := m; df_stack := below; df_rng := df_rng st |}, None)
      | _ =>
          let '(idx, rng') :=
            rng_randint R 0 (Z.of_nat (length neighbors) - 1) (df_rng st) in
          '(next_x, next_y, wall, op_wall) ← py_index neighbors idx;
          _ ← cell_at m next_x next_y;
          m1 ← remove_wall_pair m x y next_x next_y wall op_wall;
          m2 ← update_cell (Cell.set_visited true) m1 next_x next_y;
          Ret ({| df_maze := m2; df_stack := (next_x, next_y) :: df_stack st;
                  df_rng := rng' |},
               Some (((x, y), wall), m1))
      end
  end.

Fixpoint dfs_loop (fuel : nat) (g : MazeGenerator) (st : dfs_frame)
  : run (list (event * grid) * dfs_frame) :=
  match df_stack st with
  | [] => Ret ([], st)
  | _ =>
      match fuel with
      | O => OutOfFuel
      | S fuel' =>
          '(st', ev) ← dfs_iter g st;
          '(evs, final) ← dfs_loop fuel' g st';
          Ret (option_list ev ++ evs, final)
      end
  end.

(** [dfs_steps], run to exhaustion: the events it yields, each with the
    grid at that suspension, and the object it leaves. *)
Definition dfs_steps (fuel : nat) (g : MazeGenerator)
  : run (list (event * grid) * MazeGenerator) :=
  let rng := rng_seed R (seed g) in
  let m0 := _generate_grid g in
  let '(start_x, start_y) := entry g in
  m1 ← update_cell (Cell.set_visited true) m0 start_x start_y;
  '(evs, final) ← dfs_loop fuel g
     {| df_maze := m1; df_stack := [entry g]; df_rng := rng |};
  let g' := set_maze g (df_maze final) in
  g'' ← (if perfect g then Ret g' else braid_dead_ends g');
  Ret (((entry g, -1), m0) :: evs, g'').

(** The number of iterations [dfs] allows the loop: every iteration pushes
    a cell that was not visited or pops one, so twice the number of cells
    is never reached. *)
Definition dfs_fuel (g : MazeGenerator) : nat :=
  2 * (Z.to_nat (width g) * Z.to_nat (height g)).

Definition dfs (g : MazeGenerator) : run MazeGenerator :=
  '(_, g') ← dfs_steps (dfs_fuel g) g; Ret g'.

(** **** Randomized Prim *)


Record prim_frame : Type := {
  pf_maze : grid;
  pf_frontier : list frontier_edge;
  pf_rng : rng_state R
}.

Definition add_to_frontier (g : MazeGenerator) (m : grid)
  (frontier : list frontier_edge) (x y : Z) : run (list frontier_edge) :=
  ns ← unvisited_neighbors g m x y DIRECTIONS;
  Ret (frontier ++
       map (fun n : Z * Z * Z * Z =>
              let '(next_x, next_y, wall, op_wall) := n in
              (x, y, next_x, next_y, wall, op_wall)) ns).

(** One iteration of [while frontier]. *)
Definition prim_iter (g : MazeGenerator) (st : prim_frame)
  : run (prim_frame * option (event * grid)) :=
  let frontier := pf_frontier st in
  let m := pf_maze st in
  let '(idx, rng') :=
    rng_randint R 0 (Z.of_nat (length frontier) - 1) (pf_rng st) in
  j ← py_norm_index frontier idx;
  match frontier !! j with
  | None => Raise IndexError
  | Some (curr_x, curr_y, next_x, next_y, wall, op_wall) =>
      let frontier' := delete j frontier in
      target ← cell_at m next_x next_y;
      if negb (Cell.visited target) then
        m1 ← remove_wall_pair m curr_x curr_y next_x next_y wall op_wall;
        m2 ← update_cell (Cell.set_visited true) m1 next_x next_y;
        frontier'' ← add_to_frontier g m2 frontier' next_x next_y;
        Ret ({| pf_maze := m2; pf_frontier := frontier''; pf_rng := rng' |},
             Some (((curr_x, curr_y), wall), m2))
      else
        Ret ({| pf_maze := m; pf_frontier := frontier'; pf_rng := rng' |}, None)
  end.

Fixpoint prim_loop (fuel : nat) (g : MazeGenerator) (st : prim_frame)
  : run (list (event * grid) * prim_frame) :=
  match pf_frontier st with
  | [] => Ret ([], st)
  | _ =>
      match fuel with
      | O => OutOfFuel
      | S fuel' =>
          '(st', ev) ← prim_iter g st;
          '(evs, final) ← prim_loop fuel' g st';
          Ret (option_list ev ++ evs, final)
      end
  end.

Definition prim_steps (fuel : nat) (g : MazeGenerator)
  : run (list (event * grid) * MazeGenerator) :=
  let m0 := _generate_grid g in
  let '(start_x, start_y) := entry g in
  let rng := rng_seed R (seed g) in
  m1 ← update_cell (Cell.set_visited true) m0 start_x start_y;
  frontier ← add_to_frontier g m1 [] start_x start_y;
  '(evs, final) ← prim_loop fuel g
     {| pf_maze := m1; pf_frontier := frontier; pf_rng := rng |};
  let g' := set_maze g (pf_maze final) in
  g'' ← (if perfect g then Ret g' else braid_dead_ends g');
  Ret (((entry g, -1), m0) :: evs, g'').

(** Every iteration takes an edge off the frontier, and puts at most four
    on it when it marks a cell. *)
Definition prim_fuel (g : MazeGenerator) : nat :=
  4 * (Z.to_nat (width g) * Z.to_nat (height g)).

Definition prim (g : MazeGenerator) : run MazeGenerator :=
  '(_, g') ← prim_steps (prim_fuel g) g; Ret g'.

End carving.

Arguments df_maze {R} _.
Arguments df_stack {R} _.
Arguments df_rng {R} _.
Arguments pf_maze {R} _.
Arguments pf_frontier {R} _.
Arguments pf_rng {R} _.

(** *** Shortest path *)

(** An item of the priority queue: [(cost, (x, y), path)]. *)
Abbreviation pq_item := (Z * (Z * Z) * list (Z * Z))%type (only parsing).

(** Python's order on tuples and lists, on the items the search pushes:
    costs first, then the coordinates, then the paths. *)
Definition coord_ltb (a b : coord) : bool :=
  (a.1 <? b.1) || ((a.1 =? b.1) && (a.2 <? b.2)).

Fixpoint path_ltb (p q : list coord) : bool :=
  match p, q with
  | [], [] => false
  | [], _ :: _ => true
  | _ :: _, [] => false
  | a :: p', b :: q' =>
      coord_ltb a b || (bool_decide (a = b) && path_ltb p' q')
  end.

Definition item_ltb (a b : pq_item) : bool :=
  let '(ca, xa, pa) := a in
  let '(cb, xb, pb) := b in
  (ca <? cb) ||
  ((ca =? cb) && (coord_ltb xa xb || (bool_decide (xa = xb) && path_ltb pa pb))).

(** [heapq]: the queue is kept as the collection of its items.
    [heappop] takes out the smallest item; the order is total, so the item
    does not depend on how the binary heap lays the collection out. *)
Definition heappush (pq : list pq_item) (item : pq_item) : list pq_item :=
  item :: pq.

Fixpoint heappop (pq : list pq_item) : option (pq_item * list pq_item) :=
  match pq with
  | [] => None
  | a :: rest =>
      match heappop rest with
      | None => Some (a, [])
      | Some (least, rest') =>
          if item_ltb least a then Some (least, a :: rest') else Some (a, rest)
      end
  end.

(** The body of [for dx, dy, has_wall in directions]. *)
Definition relax (g : MazeGenerator) (current_cost curr_x curr_y : Z)
  (path : list coord) (st : list pq_item * gmap coord Z) (d : Z * Z * bool)
  : list pq_item * gmap coord Z :=
  let '(pq, distance) := st in
  let '(dx, dy, has_wall) := d in
  let nx := curr_x + dx in
  let ny := curr_y + dy in
  if (0 <=? nx) && (nx <? width g) && (0 <=? ny) && (ny <? height g)
     && negb has_wall
  then
    let new_cost := current_cost + 1 in
    if match distance !! (nx, ny) with
       | Some d => new_cost <? d
       | None => true
       end
    then (heappush pq (new_cost, (nx, ny), path ++ [(nx, ny)]),
          <[(nx, ny) := new_cost]> distance)
    else st
  else st.

Definition directions_of (current_cell : Cell.t) : list (Z * Z * bool) :=
  [ (0, -1, Cell.has_north_wall current_cell);
    (1, 0, Cell.has_east_wall current_cell);
    (0, 1, Cell.has_south_wall current_cell);
    (-1, 0, Cell.has_west_wall current_cell) ].

(** The [while pq] loop: the paths it yields and the path it stores, if
    it stores one. *)
Fixpoint sp_loop (fuel : nat) (g : MazeGenerator)
  (pq : list pq_item) (distance : gmap coord Z)
  : run (list (list coord) * option (list coord)) :=
  match heappop pq with
  | None => Ret ([], None)
  | Some ((current_cost, (curr_x, curr_y), path), pq') =>
      match fuel with
      | O => OutOfFuel
      | S fuel' =>
          if bool_decide ((curr_x, curr_y) = maze_exit g)
          then Ret ([path], Some path)
          else if match distance !! (curr_x, curr_y) with
                  | Some d => d <? current_cost
                  | None => false
                  end
          then '(ys, r) ← sp_loop fuel' g pq' distance; Ret (path :: ys, r)
          else
            current_cell ← cell_at (maze g) curr_x curr_y;
            let '(pq'', distance') :=
              fold_left (relax g current_cost curr_x curr_y path)
                        (directions_of current_cell) (pq', distance) in
            '(ys, r) ← sp_loop fuel' g pq'' distance';
            Ret (path :: ys, r)
      end
  end.

(** [find_shortest_path_steps], run to exhaustion. *)
Definition find_shortest_path_steps (fuel : nat) (g : MazeGenerator)
  : run (list (list coord) * MazeGenerator) :=
  match maze g with
  | [] => Ret ([], g)
  | _ =>
      let start := entry g in
      '(ys, r) ← sp_loop fuel g [(0, start, [start])] {[ start := 0 ]};
      Ret (ys, match r with Some p => set_path g p | None => g end)
  end.

(** Every cell enters the queue at most once. *)
Definition sp_fuel (g : MazeGenerator) : nat :=
  S (Z.to_nat (width g) * Z.to_nat (height g)).

Definition find_shortest_path (g : MazeGenerator) : run MazeGenerator :=
  '(_, g') ← find_shortest_path_steps (sp_fuel g) g; Ret g'.

(** *** Export *)

Definition newline : string := String "010"%char EmptyString.

Fixpoint str_join (sep : string) (parts : list string) : string :=
  match parts with
  | [] => ""
  | [p] => p
  | p :: rest => p +:+ sep +:+ str_join sep rest
  end.

Definition maze_to_str (g : MazeGenerator) : string :=
  str_join newline
    (map (fun row => str_join "" (map Cell.to_hex row)) (maze g)).

(** The [match] of [path_to_str]: the letter of one move. *)
Definition direction_letter (direction : coord) : string :=
  if bool_decide (direction = (0, -1)) then "N"
  else if bool_decide (direction = (0, 1)) then "S"
  else if bool_decide (direction = (1, 0)) then "E"
  else if bool_decide (direction = (-1, 0)) then "W"
  else "".

Fixpoint path_letters (prev : coord) (rest : list coord) : string :=
  match rest with
  | [] => ""
  | (x, y) :: rest' =>
      direction_letter (x - prev.1, y - prev.2) +:+ path_letters (x, y) rest'
  end.

Definition path_to_str (g : MazeGenerator) : string :=
  match path g with
  | [] => ""
  | first :: rest => path_letters first rest
  end.

(** [str] of an element of [entry] or [maze_exit]: a [bool] object shows
    as [True] or [False], an integer in decimal. *)
Definition str_coord (is_bool_object : bool) (n : Z) : string :=
  if is_bool_object then (if n =? 0 then "False" else "True") else pretty n.

(** write_output.py.  The text that the [with] block writes. *)
Definition export_text (gen : MazeGenerator) : string :=
  maze_to_str gen +:+ newline +:+ newline
  +:+ str_coord (entry_is_bool gen).1 (entry gen).1 +:+ ", "
  +:+ str_coord (entry_is_bool gen).2 (entry gen).2 +:+ newline
  +:+ str_coord (exit_is_bool gen).1 (maze_exit gen).1 +:+ ", "
  +:+ str_coord (exit_is_bool gen).2 (maze_exit gen).2 +:+ newline
  +:+ path_to_str gen +:+ newline.

(** A file name with a NUL character: [open] refuses it with a
    [ValueError] before the operating system is asked. *)
Definition has_nul (s : string) : bool :=
  existsb (Ascii.eqb "000"%char) (list_ascii_of_string s).

(** The call.  [can_open] stands for the operating system: whether the
    file of that name can be opened for writing and written; when it
    cannot, the [with] block raises an [OSError]. *)
Definition write_output (can_open : string → bool) (gen : MazeGenerator)
  : run (string * MazeGenerator) :=
  if has_nul (output_file gen)
  then Raise (ValueError "embedded null byte")
  else if can_open (output_file gen)
  then Ret (export_text gen, set_maze gen [])
  else Raise OSError.

(** Modelled from the spec: the reader of the exported grid, which the
    repository does not contain.  The export is H lines of W hex digits,
    each digit the 4-bit wall state of its cell; the reader splits the text
    at the line breaks and takes every character as one hex digit. *)
Definition hex_value (a : ascii) : option Z :=
  let n := Z.of_nat (nat_of_ascii a) in
  if (48 <=? n) && (n <=? 57) then Some (n - 48)
  else if (65 <=? n) && (n <=? 70) then Some (n - 55)
  else if (97 <=? n) && (n <=? 102) then Some (n - 87)
  else None.

Fixpoint split_lines (s : string) : list string :=
  match s with
  | EmptyString => [EmptyString]
  | String a s' =>
      if Ascii.eqb a "010"%char then EmptyString :: split_lines s'
      else match split_lines s' with
           | line :: lines => String a line :: lines
           | [] => [String a EmptyString]
           end
  end.

Definition decode_line (line : string) : option (list Z) :=
  mapM hex_value (list_ascii_of_string line).

Definition decode_grid (text : string) : option (list (list Z)) :=
  mapM decode_line (split_lines text).

(** ** The states a driver can observe *)

(** A generator object is reached from a construction by the public
    operations: complete carving runs, the suspensions of a run at its
    [yield]s (the object then holds the grid of that moment), the passes of
    the braiding loop, the path search, the export, and the assignment of
    [seed] and [perfect]. *)
Inductive reachable (R : RandomSource) : MazeGenerator → Prop :=
| reach_init default_seed w h e x o p s g :
    __init__ default_seed w h e x o p s = Ret g → reachable R g
| reach_dfs g fuel evs g' :
    reachable R g → dfs_steps R fuel g = Ret (evs, g') → reachable R g'
| reach_dfs_yield g fuel evs g' ev m :
    reachable R g → dfs_steps R fuel g = Ret (evs, g') → (ev, m) ∈ evs →
    reachable R (set_maze g m)
| reach_prim g fuel evs g' :
    reachable R g → prim_steps R fuel g = Ret (evs, g') → reachable R g'
| reach_prim_yield g fuel evs g' ev m :
    reachable R g → prim_steps R fuel g = Ret (evs, g') → (ev, m) ∈ evs →
    reachable R (set_maze g m)
| reach_braid g g' :
    reachable R g → braid_dead_ends R g = Ret g' → reachable R g'
| reach_braid_pass g k m rng :
    reachable R g →
    for_each (braid_cell R g) (take k (braid_cells g))
             (maze g, rng_seed R (seed g)) = Ret (m, rng) →
    reachable R (set_maze g m)
| reach_path g fuel ys g' :
    reachable R g → find_shortest_path_steps fuel g = Ret (ys, g') →
    reachable R g'
| reach_export g can_open text g' :
    reachable R g → write_output can_open g = Ret (text, g') → reachable R g'
| reach_seed g s : reachable R g → reachable R (set_seed g s)
| reach_perfect g b : reachable R g → reachable R (set_perfect g b).

(** ** Properties of grids *)

(** The cell at a coordinate of the grid, if the coordinate is one. *)
Definition gcell (m : grid) (p : coord) : option Cell.t :=
  if (0 <=? p.1) && (0 <=? p.2)
  then row ← m !! Z.to_nat p.2; row !! Z.to_nat p.1
  else None.

Definition in_grid (g : MazeGenerator) (p : coord) : Prop :=
  0 ≤ p.1 < width g ∧ 0 ≤ p.2 < height g.

(** A cell the carving may touch: inside the grid, outside the pattern. *)
Definition allowed (g : MazeGenerator) (p : coord) : Prop :=
  _in_maze_bounds g p.1 p.2 = true.

(** The grid has [height] rows of [width] cells. *)
Definition rect (g : MazeGenerator) (m : grid) : Prop :=
  length m = Z.to_nat (height g)
  ∧ Forall (fun row => length row = Z.to_nat (width g)) m.

(** The cell at [p] exists and lacks the wall [wall]. *)
Definition lacks (m : grid) (p : coord) (wall : Z) : bool :=
  match gcell m p with
  | Some c => negb (Cell.has_wall c wall)
  | None => false
  end.

(** [b] is the neighbour of [a] in one of the four directions and neither
    cell has the wall that faces the other. *)
Definition passage (m : grid) (a b : coord) : bool :=
  existsb (fun d : Z * Z * Z * Z =>
             let '(dx, dy, wall, op_wall) := d in
             bool_decide (b = (a.1 + dx, a.2 + dy))
             && lacks m a wall && lacks m b op_wall)
          DIRECTIONS.

(** The edge the path search follows out of [a]: the neighbour is in the
    grid and [a] lacks the wall on that side. *)
Definition sp_edge (g : MazeGenerator) (a b : coord) : bool :=
  existsb (fun d : Z * Z * Z * Z =>
             let '(dx, dy, wall, _) := d in
             bool_decide (b = (a.1 + dx, a.2 + dy))
             && bool_decide (in_grid g b) && lacks (maze g) a wall)
          DIRECTIONS.

(** Wall symmetry between neighbours. *)
Definition wall_symmetric (m : grid) : Prop :=
  ∀ (a : coord) dx dy wall op_wall ca cb,
    (dx, dy, wall, op_wall) ∈ DIRECTIONS →
    gcell m a = Some ca → gcell m (a.1 + dx, a.2 + dy) = Some cb →
    Cell.has_wall ca wall = Cell.has_wall cb op_wall.

Definition pattern_intact (g : MazeGenerator) (m : grid) : Prop :=
  ∀ p c, p ∈ pattern_42 g → gcell m p = Some c → Cell._walls c = 15.

Definition walls_in_range (m : grid) : Prop :=
  ∀ p c, gcell m p = Some c → 0 ≤ Cell._walls c ≤ 15.

Record grid_inv (g : MazeGenerator) (m : grid) : Prop := {
  gi_rect : rect g m;
  gi_range : walls_in_range m;
  gi_sym : wall_symmetric m;
  gi_pattern : pattern_intact g m
}.

(** What construction establishes of the configuration. *)
Record cfg_ok (g : MazeGenerator) : Prop := {
  cfg_width : 8 < width g;
  cfg_height : 8 < height g;
  cfg_pattern :
    pattern_42 g =
    pattern_cells (fst (pattern_anchor (width g) (height g)))
                  (snd (pattern_anchor (width g) (height g)));
  cfg_entry : allowed g (entry g);
  cfg_exit : allowed g (maze_exit g);
  cfg_distinct : entry g ≠ maze_exit g
}.

Definition gen_inv (g : MazeGenerator) : Prop :=
  cfg_ok g ∧ (maze g = [] ∨ grid_inv g (maze g)).

(** *** Graphs on cells *)

(** A walk along the relation [edge]: consecutive cells are related. *)
Fixpoint is_walk (edge : coord → coord → Prop) (p : list coord) : Prop :=
  match p with
  | [] => True
  | a :: rest =>
      match rest with
      | [] => True
      | b :: _ => edge a b ∧ is_walk edge rest
      end
  end.

(** [p] is a walk from [a] to [b]. *)
Definition walk_from_to (edge : coord → coord → Prop) (a b : coord)
  (p : list coord) : Prop :=
  head p = Some a ∧ last p = Some b ∧ is_walk edge p.

(** A simple cycle: at least three distinct cells, each joined to the
    next, and the last joined to the first. *)
Definition simple_cycle (edge : coord → coord → Prop) (c : list coord) : Prop :=
  (3 ≤ length c)%nat ∧ NoDup c ∧ is_walk edge c
  ∧ ∃ a b, head c = Some a ∧ last c = Some b ∧ edge b a.

Definition connected_from (edge : coord → coord → Prop) (a b : coord) : Prop :=
  ∃ p, walk_from_to edge a b p.

(** The cells of the grid, row by row, and those outside the pattern. *)
Definition all_cells (g : MazeGenerator) : list coord :=
  y ← py_range 0 (height g);
  x ← py_range 0 (width g);
  [(x, y)].

Definition carvable_cells (g : MazeGenerator) : list coord :=
  filter (fun p => p ∉ pattern_42 g) (all_cells g).

(** The open-edge graph of a grid is a spanning tree of the carvable
    cells: every carvable cell is joined to the entry by passages, passages
    join carvable cells only, and no simple cycle of passages exists. *)
Record spanning_tree (g : MazeGenerator) (m : grid) : Prop := {
  st_connected :
    ∀ p, allowed g p → connected_from (fun a b => passage m a b = true) (entry g) p;
  st_carvable :
    ∀ a b, passage m a b = true → allowed g a ∧ allowed g b;
  st_acyclic :
    ∀ c, ¬ simple_cycle (fun a b => passage m a b = true) c
}.

(** The wall-removal events of a run: all but the opening one. *)
Definition removals (evs : list (event * grid)) : list (event * grid) :=
  filter (fun e => e.1.2 ≠ -1) evs.


(** ** parsing.py: the check of the mandatory keys *)

(** [is_all_mandatory]: the loop raises at the first key of [mandatory]
    that [config] lacks and the call returns [True] when none is missing. *)
Fixpoint is_all_mandatory (mandatory : list string) (config : gmap string pyval)
  : run bool :=
  match mandatory with
  | [] => Ret true
  | key :: rest =>
      match config !! key with
      | None =>
          Raise (ValueError ("You missing a mandatory " +:+ key +:+ " key!"))
      | Some _ => is_all_mandatory rest config
      end
  end.

(** The keys [return_config] asks for before it returns the dictionary. *)
Definition mandatory_keys : list string :=
  ["WIDTH"; "HEIGHT"; "ENTRY"; "EXIT"; "OUTPUT_FILE"; "PERFECT"].

(** ** a_maze_ing.py: the driver *)

(** The construction in [main].  The arguments are the values the
    dictionary holds under the keys of the same names, which
    [return_config] returns only after [is_all_mandatory] let it through;
    [SEED] is [None] when the dictionary has no such key.  [main] passes
    them by position, in this order. *)
Definition main_generator (default_seed : Z)
  (WIDTH HEIGHT ENTRY EXIT OUTPUT_FILE PERFECT : pyval) (SEED : option pyval)
  : run MazeGenerator :=
  match SEED with
  | Some seed_value =>
      __init__ default_seed WIDTH HEIGHT ENTRY EXIT
        seed_value OUTPUT_FILE (Some PERFECT)
  | None =>
      __init__ default_seed WIDTH HEIGHT ENTRY EXIT
        PyNone OUTPUT_FILE (Some PERFECT)
  end.


(** *** Vocabulary of the statements about cells and paths *)

(** The wall flags with the three methods of [Cell] for each. *)
Definition wall_methods
  : list (Z * (Cell.t → Cell.t) * (Cell.t → Cell.t) * (Cell.t → bool)) :=
  [ (Cell.NORTH, Cell.add_north_wall, Cell.remove_north_wall, Cell.has_north_wall);
    (Cell.EAST, Cell.add_east_wall, Cell.remove_east_wall, Cell.has_east_wall);
    (Cell.SOUTH, Cell.add_south_wall, Cell.remove_south_wall, Cell.has_south_wall);
    (Cell.WEST, Cell.add_west_wall, Cell.remove_west_wall, Cell.has_west_wall) ].

(** [b] is the neighbour of [a] in one of the four directions. *)
Definition adjacent (a b : coord) : Prop :=
  ∃ dx dy wall op_wall,
    (dx, dy, wall, op_wall) ∈ DIRECTIONS ∧ b = (a.1 + dx, a.2 + dy).

(** ** visualizer.py *)

(** The construction in [init_params]: the same values of the dictionary,
    in the constructor's own order; without [SEED] the call leaves the seed
    to its default. *)
Definition init_params_generator (default_seed : Z)
  (WIDTH HEIGHT ENTRY EXIT OUTPUT_FILE PERFECT : pyval) (SEED : option pyval)
  : run MazeGenerator :=
  match SEED with
  | Some seed_value =>
      __init__ default_seed WIDTH HEIGHT ENTRY EXIT OUTPUT_FILE PERFECT
        (Some seed_value)
  | None =>
      __init__ default_seed WIDTH HEIGHT ENTRY EXIT OUTPUT_FILE PERFECT None
  end.

(** The two fields of [Anim] that pace the animation: a step of the run is
    drawn when [tick % speed == 0]. *)
Record Anim : Type := { tick : Z; speed : Z }.

(** [Anim.__init__] *)
Definition Anim_init : Anim := {| tick := 0; speed := 5 |}.

(** [inc_speed_oc] and [dec_speed_oc]; [None] is [xvar.anim] before the
    first run, when both return at once. *)
Definition inc_speed_oc (anim : option Anim) : option Anim :=
  match anim with
  | None => None
  | Some a =>
      if 1 <? speed a then Some {| tick := tick a; speed := speed a - 1 |}
      else Some a
  end.

Definition dec_speed_oc (anim : option Anim) : option Anim :=
  match anim with
  | None => None
  | Some a =>
      if speed a <=? 10 then Some {| tick := tick a; speed := speed a + 1 |}
      else Some a
  end.

(** The test [tick % speed == 0] of [animate_dfs] and [animate_prim], after
    [tick += 1]; Python raises [ZeroDivisionError] on a zero divisor. *)
Definition step_due (a : Anim) : option bool :=
  if speed a =? 0 then None else Some ((tick a + 1) `mod` speed a =? 0).

(** A press of one of the two speed buttons. *)
Inductive speed_button : Type := IncSpeed | DecSpeed.

Definition press (anim : option Anim) (b : speed_button) : option Anim :=
  match b with
  | IncSpeed => inc_speed_oc anim
  | DecSpeed => dec_speed_oc anim
  end.
(** * Proofs *)

Arguments round_to_double : simpl never.
Arguments truediv_overflows : simpl never.
Arguments int_half : simpl never.

(** ** Construction *)
Lemma bind_ret_inv {A B} (m : run A) (f : A → run B) b :
  m ≫= f = Ret b → ∃ a, m = Ret a ∧ f a = Ret b.
Proof. destruct m; simpl; intros; try discriminate; eauto. Qed.

Lemma validate_point_ret name pt w h c :
  validate_point name pt w h = Ret c →
  0 ≤ c.1 < w ∧ 0 ≤ c.2 < h.
Proof.
  unfold validate_point. intros H.
  repeat case_match; simplify_eq/=. lia.
Qed.

Lemma validate_inputs_ret w h e x s o p ci :
  _validate_inputs w h e x s o p = Ret ci →
  as_int w = Some (ci_width ci) ∧ as_int h = Some (ci_height ci)
  ∧ 3 ≤ ci_width ci ∧ 3 ≤ ci_height ci
  ∧ (0 ≤ (ci_entry ci).1 < ci_width ci ∧ 0 ≤ (ci_entry ci).2 < ci_height ci)
  ∧ (0 ≤ (ci_exit ci).1 < ci_width ci ∧ 0 ≤ (ci_exit ci).2 < ci_height ci)
  ∧ ci_entry ci ≠ ci_exit ci
  ∧ o = PyStr (ci_output ci) ∧ p = PyBool (ci_perfect ci)
  ∧ (truthy s = true → ∃ n, as_int s = Some n ∧ 0 ≤ n).
Proof.
  unfold _validate_inputs. intros H.
  destruct (as_int w) as [W|] eqn:HW; [|repeat case_match; discriminate].
  destruct (as_int h) as [Hh|] eqn:HH; [|discriminate].
  destruct (_ || _) eqn:E1; [discriminate|].
  destruct ((W <? 3) || _) eqn:E2; [discriminate|].
  apply bind_ret_inv in H as (ce & Hce & H).
  apply bind_ret_inv in H as (cx & Hcx & H).
  case_bool_decide; [discriminate|].
  apply bind_ret_inv in H as ([] & Hs & H).
  destruct o; try discriminate. destruct p; try discriminate.
  simplify_eq/=.
  apply validate_point_ret in Hce, Hcx.
  repeat split; try lia; try done.
  intros Ht. rewrite Ht in Hs.
  destruct (as_int s); [|discriminate]. case_match; [discriminate|]. eexists; split; [done|lia].
Qed.

Lemma is_not_42_pattern_spec g x y :
  _is_not_42_pattern g x y = true ↔ (x, y) ∉ pattern_42 g.
Proof.
  unfold _is_not_42_pattern. rewrite forallb_forall. split.
  - intros H Hin. apply list_elem_of_In in Hin. apply H in Hin.
    rewrite bool_decide_eq_true_2 in Hin; done.
  - intros H p Hp. apply list_elem_of_In in Hp.
    apply negb_true_iff, bool_decide_eq_false. intros <-. done.
Qed.

Lemma allowed_spec g p :
  allowed g p ↔ in_grid g p ∧ p ∉ pattern_42 g.
Proof.
  unfold allowed, _in_maze_bounds, in_grid. destruct p as [x y]. simpl.
  rewrite !andb_true_iff, !Z.leb_le, !Z.ltb_lt, is_not_42_pattern_spec. tauto.
Qed.

Lemma generate_pattern_ret w h e x pat :
  _generate_pattern_42 w h e x = Ret pat →
  8 < w ∧ 8 < h
  ∧ (pat = pattern_cells (fst (pattern_anchor w h)) (snd (pattern_anchor w h)))
  ∧ (e ∉ pat) ∧ (x ∉ pat).
Proof.
  unfold _generate_pattern_42. intros H.
  destruct ((8 <? w) && (8 <? h)) eqn:E; [|discriminate].
  destruct (truediv_overflows (w - 7) || truediv_overflows (h - 5));
    [discriminate|].
  destruct (pattern_anchor w h) as [px py] eqn:Ha.
  repeat case_bool_decide; simplify_eq/=.
  apply andb_true_iff in E as [?%Z.ltb_lt ?%Z.ltb_lt].
  repeat split; done.
Qed.

(** What a successful construction leaves. *)
Lemma init_ret ds w h e x o p s g :
  __init__ ds w h e x o p s = Ret g →
  cfg_ok g ∧ maze g = [] ∧ path g = []
  ∧ as_int w = Some (width g) ∧ as_int h = Some (height g)
  ∧ o = PyStr (output_file g) ∧ p = PyBool (perfect g)
  ∧ as_int (default (PyInt ds) s) = Some (seed g) ∧ 0 < seed g.
Proof.
  unfold __init__. intros H.
  apply bind_ret_inv in H as (ci & Hci & H).
  apply bind_ret_inv in H as (sd & Hsd & H).
  apply bind_ret_inv in H as (pat & Hpat & H).
  apply validate_inputs_ret in Hci
    as (HW & HH & ? & ? & He & Hx & Hne & -> & -> & Hseed).
  apply generate_pattern_ret in Hpat as (? & ? & -> & Hepat & Hxpat).
  destruct (truthy _) eqn:Ht; [|discriminate].
  destruct (Hseed eq_refl) as (n & Hn & Hn0). rewrite Hn in Hsd.
  simplify_eq/=.
  repeat split; simpl; try done; try apply allowed_spec; try done.
  destruct (default (PyInt ds) s) as [|[]|n| |]; simpl in *; simplify_eq; try lia.
Qed.

(** Construction never runs a bounded loop. *)
Lemma bind_no_fuel {A B} (m : run A) (f : A → run B) :
  m ≠ OutOfFuel → (∀ a, f a ≠ OutOfFuel) → m ≫= f ≠ OutOfFuel.
Proof. destruct m; simpl; eauto. Qed.

Lemma validate_point_no_fuel name pt w h : validate_point name pt w h ≠ OutOfFuel.
Proof. unfold validate_point. repeat case_match; done. Qed.

Lemma validate_inputs_no_fuel w h e x s o p :
  _validate_inputs w h e x s o p ≠ OutOfFuel.
Proof.
  unfold _validate_inputs.
  destruct (as_int w); [|done]. destruct (as_int h); [|done].
  destruct (_ || _); [done|]. destruct (_ || _); [done|].
  apply bind_no_fuel; [apply validate_point_no_fuel|intros ce].
  apply bind_no_fuel; [apply validate_point_no_fuel|intros cx].
  case_bool_decide; [done|].
  apply bind_no_fuel.
  - destruct (truthy s); [|done]. destruct (as_int s); [|done]. by case_match.
  - intros _. destruct o; try done. by destruct p.
Qed.

Lemma generate_pattern_no_fuel w h e x : _generate_pattern_42 w h e x ≠ OutOfFuel.
Proof.
  unfold _generate_pattern_42. destruct ((8 <? w) && (8 <? h)); [|done].
  destruct (truediv_overflows (w - 7) || truediv_overflows (h - 5)); [done|].
  destruct (pattern_anchor w h). repeat case_bool_decide; done.
Qed.

Lemma init_no_fuel ds w h e x o p s : __init__ ds w h e x o p s ≠ OutOfFuel.
Proof.
  unfold __init__.
  apply bind_no_fuel; [apply validate_inputs_no_fuel|intros ci].
  apply bind_no_fuel.
  - destruct (truthy _); [|done]. by destruct (as_int _).
  - intros sd. apply bind_no_fuel; [apply generate_pattern_no_fuel|done].
Qed.

Definition ci_set_output (ci : checked_inputs) (f : string) : checked_inputs :=
  {| ci_width := ci_width ci; ci_height := ci_height ci; ci_entry := ci_entry ci;
     ci_exit := ci_exit ci; ci_output := f; ci_perfect := ci_perfect ci |}.

Lemma validate_inputs_output w h e x s p f ci :
  _validate_inputs w h e x s (PyStr f) p = Ret ci →
  (∀ f', _validate_inputs w h e x s (PyStr f') p = Ret (ci_set_output ci f'))
  ∧ (∀ o, (∀ f', o ≠ PyStr f') →
       _validate_inputs w h e x s o p
       = Raise (TypeError "Output file name must be a string!")).
Proof.
  unfold _validate_inputs. intros H.
  destruct (as_int w) as [W|]; [|repeat case_match; discriminate].
  destruct (as_int h) as [Hh|]; [|discriminate].
  destruct (_ || _); [discriminate|].
  destruct ((W <? 3) || _); [discriminate|].
  destruct (validate_point "entry" e W Hh) as [ce| |]; try discriminate.
  destruct (validate_point "maze_exit" x W Hh) as [cx| |]; try discriminate.
  simpl in *. case_bool_decide; [discriminate|].
  destruct (if truthy s then _ else _) as [[]| |]; try discriminate.
  simpl in *. destruct p; try discriminate. simplify_eq. split.
  - done.
  - intros o Ho. destruct o; try done. by destruct (Ho s0).
Qed.



(** ** Reading and updating the grid *)

Lemma py_norm_index_ret {A} (l : list A) (i : Z) :
  0 ≤ i < Z.of_nat (length l) → py_norm_index l i = Ret (Z.to_nat i).
Proof.
  intros Hi. unfold py_norm_index.
  destruct (i <? 0) eqn:E; [apply Z.ltb_lt in E; lia|].
  replace ((0 <=? i) && (i <? Z.of_nat (length l))) with true; [done|].
  symmetry. apply andb_true_iff. split; [apply Z.leb_le|apply Z.ltb_lt]; lia.
Qed.

Lemma py_index_ret {A} (l : list A) (i : Z) (a : A) :
  0 ≤ i → l !! Z.to_nat i = Some a → py_index l i = Ret a.
Proof.
  intros Hi Hl. unfold py_index.
  rewrite py_norm_index_ret; [simpl; by rewrite Hl|].
  apply lookup_lt_Some in Hl. lia.
Qed.

Lemma gcell_unfold m x y :
  0 ≤ x → 0 ≤ y →
  gcell m (x, y) = (row ← m !! Z.to_nat y; row !! Z.to_nat x).
Proof.
  intros Hx Hy. unfold gcell. simpl.
  replace ((0 <=? x) && (0 <=? y)) with true; [done|].
  symmetry. apply andb_true_iff. split; apply Z.leb_le; lia.
Qed.

Lemma gcell_Some_nonneg m p c : gcell m p = Some c → 0 ≤ p.1 ∧ 0 ≤ p.2.
Proof.
  unfold gcell. destruct (_ && _) eqn:E; [|done].
  apply andb_true_iff in E as [?%Z.leb_le ?%Z.leb_le]. done.
Qed.

Lemma gcell_Some_rows m x y c :
  gcell m (x, y) = Some c →
  0 ≤ x ∧ 0 ≤ y ∧ ∃ row, m !! Z.to_nat y = Some row ∧ row !! Z.to_nat x = Some c.
Proof.
  intros H. pose proof (gcell_Some_nonneg _ _ _ H) as [Hx Hy]. simpl in *.
  rewrite gcell_unfold in H by done.
  destruct (m !! Z.to_nat y) as [row|] eqn:Hrow; [|done]. simpl in H. eauto.
Qed.

Lemma gcell_in_grid g m p c : rect g m → gcell m p = Some c → in_grid g p.
Proof.
  intros [Hlen Hrows] H. destruct p as [x y].
  apply gcell_Some_rows in H as (Hx & Hy & row & Hrow & Hc).
  pose proof (lookup_lt_Some _ _ _ Hrow).
  pose proof (lookup_lt_Some _ _ _ Hc).
  rewrite Forall_forall in Hrows.
  rewrite (Hrows row) in * by (by eapply list_elem_of_lookup_2).
  unfold in_grid. simpl. lia.
Qed.

Lemma in_grid_gcell g m p : rect g m → in_grid g p → is_Some (gcell m p).
Proof.
  intros [Hlen Hrows] [Hx Hy]. destruct p as [x y]. simpl in *.
  rewrite gcell_unfold by lia.
  destruct (lookup_lt_is_Some_2 m (Z.to_nat y)) as [row Hrow]; [lia|].
  rewrite Hrow. simpl. apply lookup_lt_is_Some_2.
  rewrite Forall_forall in Hrows.
  rewrite (Hrows row) by (by eapply list_elem_of_lookup_2). lia.
Qed.

Lemma cell_at_ret m x y c : gcell m (x, y) = Some c → cell_at m x y = Ret c.
Proof.
  intros H. apply gcell_Some_rows in H as (Hx & Hy & row & Hrow & Hc).
  unfold cell_at. rewrite (py_index_ret _ _ _ Hy Hrow). simpl.
  by apply py_index_ret.
Qed.

(** A method call on an existing cell returns and replaces that cell only. *)
Lemma update_cell_ret f m x y c :
  gcell m (x, y) = Some c →
  ∃ m', update_cell f m x y = Ret m'
      ∧ (∀ p, gcell m' p = if decide (p = (x, y)) then Some (f c) else gcell m p)
      ∧ (∀ g, rect g m → rect g m').
Proof.
  intros H. apply gcell_Some_rows in H as (Hx & Hy & row & Hrow & Hc).
  pose proof (lookup_lt_Some _ _ _ Hrow) as Hylt.
  pose proof (lookup_lt_Some _ _ _ Hc) as Hxlt.
  unfold update_cell.
  rewrite py_norm_index_ret by lia. simpl. rewrite Hrow.
  rewrite py_norm_index_ret by lia. simpl.
  eexists. split; [done|]. split.
  - intros [px py]. destruct (decide ((px, py) = (x, y))) as [Heq|Hne].
    + simplify_eq. rewrite gcell_unfold by done.
      rewrite list_lookup_alter, decide_True by done. rewrite Hrow. simpl.
      rewrite list_lookup_alter, decide_True by done. by rewrite Hc.
    + unfold gcell. simpl. destruct (_ && _) eqn:E; [|done].
      apply andb_true_iff in E as [Hpx%Z.leb_le Hpy%Z.leb_le].
      destruct (decide (Z.to_nat y = Z.to_nat py)) as [Hy'|Hy'].
      * rewrite <- Hy'. rewrite list_lookup_alter, decide_True by done.
        rewrite Hrow. simpl.
        rewrite list_lookup_alter_ne; [done|].
        intros Hx'. apply Hne. f_equal; lia.
      * by rewrite list_lookup_alter_ne.
  - intros g [Hlen Hrows]. split; [by rewrite length_alter|].
    rewrite Forall_forall in *. intros r Hr.
    apply list_elem_of_lookup in Hr as [i Hr].
    rewrite list_lookup_alter in Hr. case_decide.
    + subst i. rewrite Hrow in Hr. simpl in Hr. simplify_eq.
      rewrite length_alter. apply Hrows. by eapply list_elem_of_lookup_2.
    + apply Hrows. by eapply list_elem_of_lookup_2.
Qed.

(** The fresh grid of [_generate_grid]. *)
Lemma generate_grid_rect g : rect g (_generate_grid g).
Proof.
  unfold rect, _generate_grid. split; [by rewrite length_replicate|].
  apply Forall_forall. intros r Hr. apply elem_of_replicate in Hr as [-> _].
  by rewrite length_replicate.
Qed.

Lemma generate_grid_gcell g p c :
  gcell (_generate_grid g) p = Some c → c = Cell.__init__.
Proof.
  destruct p as [x y]. intros H.
  apply gcell_Some_rows in H as (_ & _ & row & Hrow & Hc).
  unfold _generate_grid in Hrow.
  apply lookup_replicate in Hrow as [-> _].
  by apply lookup_replicate in Hc as [-> _].
Qed.

(** ** Walls of a cell *)

Definition is_wall (w : Z) : Prop :=
  w = Cell.NORTH ∨ w = Cell.EAST ∨ w = Cell.SOUTH ∨ w = Cell.WEST.

Lemma directions_cases d :
  d ∈ DIRECTIONS →
  d = (0, -1, Cell.NORTH, Cell.SOUTH) ∨ d = (1, 0, Cell.EAST, Cell.WEST)
  ∨ d = (0, 1, Cell.SOUTH, Cell.NORTH) ∨ d = (-1, 0, Cell.WEST, Cell.EAST).
Proof.
  unfold DIRECTIONS. rewrite !elem_of_cons, elem_of_nil. tauto.
Qed.

Ltac dir_cases H :=
  apply directions_cases in H;
  destruct H as [H|[H|[H|H]]]; inversion H; subst; clear H.

Lemma directions_walls dx dy wall op_wall :
  (dx, dy, wall, op_wall) ∈ DIRECTIONS → is_wall wall ∧ is_wall op_wall.
Proof. intros H. dir_cases H; unfold is_wall; tauto. Qed.

Lemma directions_reverse dx dy wall op_wall :
  (dx, dy, wall, op_wall) ∈ DIRECTIONS → (- dx, - dy, op_wall, wall) ∈ DIRECTIONS.
Proof.
  intros H. dir_cases H; unfold DIRECTIONS; simpl;
    rewrite !elem_of_cons; tauto.
Qed.

Lemma has_wall_remove c w w' :
  is_wall w → is_wall w' →
  Cell.has_wall (_remove_wall c w) w' = Cell.has_wall c w' && negb (w' =? w).
Proof.
  unfold is_wall, Cell.NORTH, Cell.EAST, Cell.SOUTH, Cell.WEST.
  intros Hw Hw'. destruct c as [ws v].
  destruct Hw as [-> | [-> | [-> | ->]]];
    destruct Hw' as [-> | [-> | [-> | ->]]];
    unfold _remove_wall, Cell.has_wall; simpl;
    rewrite <- Z.land_assoc; simpl;
    rewrite ?Z.land_0_r, ?andb_true_r, ?andb_false_r; done.
Qed.

Lemma remove_wall_visited c w :
  Cell._is_visited (_remove_wall c w) = Cell._is_visited c.
Proof. unfold _remove_wall. repeat case_match; done. Qed.

Lemma remove_wall_range c w :
  is_wall w → 0 ≤ Cell._walls c ≤ 15 → 0 ≤ Cell._walls (_remove_wall c w) ≤ 15.
Proof.
  unfold is_wall, Cell.NORTH, Cell.EAST, Cell.SOUTH, Cell.WEST.
  intros Hw Hc. destruct c as [ws v]. simpl in Hc.
  assert (Hws : ws = 0 ∨ ws = 1 ∨ ws = 2 ∨ ws = 3 ∨ ws = 4 ∨ ws = 5 ∨ ws = 6
                ∨ ws = 7 ∨ ws = 8 ∨ ws = 9 ∨ ws = 10 ∨ ws = 11 ∨ ws = 12
                ∨ ws = 13 ∨ ws = 14 ∨ ws = 15) by lia.
  destruct Hw as [-> | [-> | [-> | ->]]];
    destruct_or!; subst; cbv; split; discriminate.
Qed.

(** ** Carving a passage keeps the grid well formed *)

(** The cell that the removal of the wall pair between [xy] and [nb]
    leaves at [p]. *)
Definition carve_fn (xy nb : coord) (wall op_wall : Z) (p : coord)
  (c : Cell.t) : Cell.t :=
  if decide (p = nb) then _remove_wall c op_wall
  else if decide (p = xy) then _remove_wall c wall
  else c.

Definition removed (xy nb : coord) (wall op_wall : Z) (p : coord) (w : Z) : Prop :=
  (p = nb ∧ w = op_wall) ∨ (p = xy ∧ w = wall).

Lemma removed_neighbour x y dx dy wall op_wall a dx' dy' w' op' :
  (dx, dy, wall, op_wall) ∈ DIRECTIONS →
  (dx', dy', w', op') ∈ DIRECTIONS →
  removed (x, y) (x + dx, y + dy) wall op_wall a w'
  ↔ removed (x, y) (x + dx, y + dy) wall op_wall (a.1 + dx', a.2 + dy') op'.
Proof.
  intros Hd Hd'. destruct a as [ax ay]. unfold removed. simpl.
  dir_cases Hd; dir_cases Hd';
    unfold Cell.NORTH, Cell.EAST, Cell.SOUTH, Cell.WEST;
    split; intros [[Hp Hw]|[Hp Hw]]; simplify_eq;
    first [ left; split; [f_equal; lia | done]
          | right; split; [f_equal; lia | done] ].
Qed.

Lemma has_wall_carve_fn xy nb wall op_wall p c w :
  xy ≠ nb → is_wall wall → is_wall op_wall → is_wall w →
  Cell.has_wall (carve_fn xy nb wall op_wall p c) w
  = Cell.has_wall c w && negb (bool_decide (removed xy nb wall op_wall p w)).
Proof.
  intros Hne Hwall Hop Hw. unfold carve_fn.
  destruct (decide (p = nb)) as [->|Hpn];
    [|destruct (decide (p = xy)) as [->|Hpx]];
    rewrite ?has_wall_remove by done.
  - f_equal. f_equal. destruct (Z.eqb_spec w op_wall).
    + rewrite bool_decide_eq_true_2; [done|]. left. done.
    + rewrite bool_decide_eq_false_2; [done|]. intros [[]|[]]; congruence.
  - f_equal. f_equal. destruct (Z.eqb_spec w wall).
    + rewrite bool_decide_eq_true_2; [done|]. right. done.
    + rewrite bool_decide_eq_false_2; [done|]. intros [[]|[]]; congruence.
  - rewrite bool_decide_eq_false_2; [by rewrite andb_true_r|].
    intros [[]|[]]; congruence.
Qed.

Lemma carve_fn_visited xy nb wall op_wall p c :
  Cell._is_visited (carve_fn xy nb wall op_wall p c) = Cell._is_visited c.
Proof. unfold carve_fn. repeat case_decide; by rewrite ?remove_wall_visited. Qed.

Lemma remove_wall_pair_ret m x y nx ny wall op_wall ca cb :
  gcell m (x, y) = Some ca → gcell m (nx, ny) = Some cb → (x, y) ≠ (nx, ny) →
  ∃ m', remove_wall_pair m x y nx ny wall op_wall = Ret m'
      ∧ (∀ p, gcell m' p = carve_fn (x, y) (nx, ny) wall op_wall p <$> gcell m p)
      ∧ (∀ g, rect g m → rect g m').
Proof.
  intros Ha Hb Hne. unfold remove_wall_pair.
  destruct (update_cell_ret (fun c => _remove_wall c wall) m x y ca Ha)
    as (m1 & -> & Hm1 & Hr1). simpl.
  assert (gcell m1 (nx, ny) = Some cb) as Hb1.
  { rewrite Hm1. by rewrite decide_False. }
  destruct (update_cell_ret (fun c => _remove_wall c op_wall) m1 nx ny cb Hb1)
    as (m2 & -> & Hm2 & Hr2).
  eexists. split; [done|]. split; [|by eauto].
  intros p. rewrite Hm2, Hm1. unfold carve_fn.
  repeat case_decide; subst; rewrite ?Ha, ?Hb; try done.
  by destruct (gcell m p).
Qed.

Lemma directions_nonzero dx dy wall op_wall (x y : Z) :
  (dx, dy, wall, op_wall) ∈ DIRECTIONS → (x, y) ≠ (x + dx, y + dy).
Proof. intros H. dir_cases H; intros ?; simplify_eq; lia. Qed.

(** Removing the wall pair between two neighbouring carvable cells keeps
    the grid invariant. *)
Lemma carve_grid_inv g m m' x y dx dy wall op_wall :
  grid_inv g m →
  (dx, dy, wall, op_wall) ∈ DIRECTIONS →
  allowed g (x, y) → allowed g (x + dx, y + dy) →
  (∀ p, gcell m' p
        = carve_fn (x, y) (x + dx, y + dy) wall op_wall p <$> gcell m p) →
  rect g m' →
  grid_inv g m'.
Proof.
  intros [Hrect Hrange Hsym Hpat] Hd Hxy Hnb Hm' Hrect'.
  pose proof (directions_walls _ _ _ _ Hd) as [Hwall Hop].
  pose proof (directions_nonzero _ _ _ _ x y Hd) as Hne.
  split; [done|..].
  - intros p c'. rewrite Hm'. destruct (gcell m p) as [c|] eqn:Hc; [|done].
    simpl. intros [= <-]. unfold carve_fn.
    repeat case_decide; eauto using remove_wall_range.
  - intros a dx' dy' w' op' ca' cb' Hd'. rewrite !Hm'.
    destruct (gcell m a) as [ca|] eqn:Hca; [|done].
    destruct (gcell m (a.1 + dx', a.2 + dy')) as [cb|] eqn:Hcb; [|done].
    simpl. intros [= <-] [= <-].
    pose proof (directions_walls _ _ _ _ Hd') as [Hw' Hop'].
    rewrite !has_wall_carve_fn by done.
    rewrite (Hsym a dx' dy' w' op' ca cb Hd' Hca Hcb). f_equal. f_equal.
    apply bool_decide_ext. by apply removed_neighbour.
  - intros p c' Hp. rewrite Hm'.
    destruct (gcell m p) as [c|] eqn:Hc; [|done]. simpl. intros [= <-].
    apply allowed_spec in Hxy as [_ Hxy]. apply allowed_spec in Hnb as [_ Hnb].
    unfold carve_fn. rewrite !decide_False by (intros ->; done). eauto.
Qed.

(** Marking a cell keeps the grid invariant. *)
Lemma visit_grid_inv g m m' (f : Cell.t → Cell.t) q :
  grid_inv g m →
  (∀ c, Cell._walls (f c) = Cell._walls c) →
  (∀ p, gcell m' p = (if decide (p = q) then f else id) <$> gcell m p) →
  rect g m' →
  grid_inv g m'.
Proof.
  intros [Hrect Hrange Hsym Hpat] Hf Hm' Hrect'.
  assert (Hw : ∀ p c', gcell m' p = Some c' →
            ∃ c, gcell m p = Some c ∧ Cell._walls c' = Cell._walls c).
  { intros p c'. rewrite Hm'. destruct (gcell m p) as [c|]; [|done].
    simpl. intros [= <-]. eexists. split; [done|]. by case_decide. }
  split; [done|..].
  - intros p c' Hc'. destruct (Hw _ _ Hc') as (c & Hc & ->). eauto.
  - intros a dx dy w op ca' cb' Hd Ha Hb.
    destruct (Hw _ _ Ha) as (ca & Hca & Ewa).
    destruct (Hw _ _ Hb) as (cb & Hcb & Ewb).
    unfold Cell.has_wall. rewrite Ewa, Ewb.
    apply (Hsym a dx dy w op ca cb Hd Hca Hcb).
  - intros p c' Hp Hc'. destruct (Hw _ _ Hc') as (c & Hc & ->). eauto.
Qed.

Lemma fresh_grid_inv g : grid_inv g (_generate_grid g).
Proof.
  split; [apply generate_grid_rect|..].
  - intros p c ->%generate_grid_gcell. done.
  - intros a dx dy w op ca cb Hd ->%generate_grid_gcell ->%generate_grid_gcell.
    dir_cases Hd; done.
  - intros p c _ ->%generate_grid_gcell. done.
Qed.

(** ** Trees grown leaf by leaf *)

(** The vertices and edges of a tree rooted at [root], in the order in
    which a carving run adds them: every new edge joins a vertex of the
    tree to a vertex outside it. *)
Inductive grows (root : coord) : list coord → list (coord * coord) → Prop :=
| grows_root : grows root [root] []
| grows_leaf V E u w :
    grows root V E → u ∈ V → w ∉ V → grows root (w :: V) ((u, w) :: E).

Definition edge_in (E : list (coord * coord)) (a b : coord) : Prop :=
  (a, b) ∈ E ∨ (b, a) ∈ E.

Lemma edge_in_sym E a b : edge_in E a b → edge_in E b a.
Proof. unfold edge_in. tauto. Qed.

Lemma grows_NoDup root V E : grows root V E → NoDup V.
Proof.
  induction 1; [apply NoDup_singleton|]. by apply NoDup_cons.
Qed.

Lemma grows_length root V E : grows root V E → length V = S (length E).
Proof. induction 1; simpl; congruence. Qed.

Lemma grows_root_in root V E : grows root V E → root ∈ V.
Proof. induction 1; [apply list_elem_of_here|by apply list_elem_of_further]. Qed.

Lemma grows_edges_in root V E a b :
  grows root V E → (a, b) ∈ E → a ∈ V ∧ b ∈ V.
Proof.
  induction 1 as [|V E u w HG IH Hu Hw]; intros Hab.
  - by apply elem_of_nil in Hab.
  - apply elem_of_cons in Hab as [Heq|Hab].
    + simplify_eq. split; [by apply list_elem_of_further|apply list_elem_of_here].
    + destruct (IH Hab). split; by apply list_elem_of_further.
Qed.

(** *** Walks *)

Lemma is_walk_cons edge a b p :
  is_walk edge (a :: b :: p) ↔ edge a b ∧ is_walk edge (b :: p).
Proof. done. Qed.

Lemma is_walk_impl_in (e1 e2 : coord → coord → Prop) p :
  (∀ a b, a ∈ p → b ∈ p → e1 a b → e2 a b) → is_walk e1 p → is_walk e2 p.
Proof.
  induction p as [|a [|b p] IH]; intros Himp Hw; try done.
  apply is_walk_cons in Hw as [Hab Hw]. apply is_walk_cons. split.
  - apply Himp; [apply list_elem_of_here| |done].
    apply list_elem_of_further, list_elem_of_here.
  - apply IH; [|done]. intros x y Hx Hy.
    apply Himp; by apply list_elem_of_further.
Qed.

Lemma is_walk_impl (e1 e2 : coord → coord → Prop) p :
  (∀ a b, e1 a b → e2 a b) → is_walk e1 p → is_walk e2 p.
Proof. intros H. apply is_walk_impl_in. eauto. Qed.

Lemma is_walk_mid edge l1 a b l2 :
  is_walk edge (l1 ++ a :: b :: l2) → edge a b.
Proof.
  induction l1 as [|x l1 IH]; simpl.
  - by intros [? _].
  - destruct l1 as [|y l1]; simpl in *; intros [_ H]; by apply IH.
Qed.

Lemma is_walk_snoc edge p a b :
  is_walk edge (p ++ [a]) → edge a b → is_walk edge ((p ++ [a]) ++ [b]).
Proof.
  intros Hw Hab. induction p as [|x p IH]; simpl in *.
  - done.
  - destruct p as [|y p]; simpl in *.
    + destruct Hw as [Hxa _]. done.
    + destruct Hw as [Hxy Hw]. split; [done|]. by apply IH.
Qed.

Lemma connected_refl edge a : connected_from edge a a.
Proof. exists [a]. done. Qed.

Lemma connected_step edge a b c :
  connected_from edge a b → edge b c → connected_from edge a c.
Proof.
  intros (p & Hh & Hl & Hw) Hbc.
  destruct (last_is_Some p) as [_ Hsome].
  apply last_Some in Hl as [p' ->].
  exists ((p' ++ [b]) ++ [c]). split; [|split].
  - destruct p'; simpl in *; done.
  - by rewrite last_snoc.
  - by apply is_walk_snoc.
Qed.

Lemma connected_impl (e1 e2 : coord → coord → Prop) a b :
  (∀ x y, e1 x y → e2 x y) → connected_from e1 a b → connected_from e2 a b.
Proof.
  intros H (p & ? & ? & Hw). exists p. repeat split; try done.
  by eapply is_walk_impl.
Qed.

Lemma grows_connected root V E v :
  grows root V E → v ∈ V → connected_from (edge_in E) root v.
Proof.
  intros HG. revert v.
  induction HG as [|V E u w HG IH Hu Hw]; intros v Hv.
  - apply list_elem_of_singleton in Hv as ->. apply connected_refl.
  - assert (∀ x, x ∈ V → connected_from (edge_in ((u, w) :: E)) root x) as Hold.
    { intros x Hx. eapply connected_impl; [|by apply IH].
      intros a b [?|?]; [left|right]; by apply list_elem_of_further. }
    apply elem_of_cons in Hv as [->|Hv]; [|by apply Hold].
    eapply connected_step; [by apply Hold|]. left. apply list_elem_of_here.
Qed.

(** *** No cycle *)

Lemma grows_leaf_neighbour root V E u w x :
  grows root V E → u ∈ V → w ∉ V → edge_in ((u, w) :: E) w x → x = u.
Proof.
  intros HG Hu Hw [H|H]; apply elem_of_cons in H as [H|H].
  - simplify_eq. done.
  - by apply (grows_edges_in _ _ _ _ _ HG) in H as [? ?].
  - by simplify_eq.
  - by apply (grows_edges_in _ _ _ _ _ HG) in H as [? ?].
Qed.

Lemma grows_acyclic root V E c :
  grows root V E → ¬ simple_cycle (edge_in E) c.
Proof.
  intros HG. revert c.
  induction HG as [|V E u w HG IH Hu Hw]; intros c (Hlen & Hnd & Hwalk & a & b & Hhd & Hlast & Hclose).
  - destruct Hclose as [H|H]; by apply elem_of_nil in H.
  - destruct (decide (w ∈ c)) as [Hin|Hnin].
    + (* the leaf would need two distinct neighbours *)
      apply list_elem_of_split in Hin as (l1 & l2 & ->).
      assert (Hnb : ∀ x, edge_in ((u, w) :: E) w x → x = u)
        by (intros x; by apply (grows_leaf_neighbour root V E)).
      assert (Hnb' : ∀ x, edge_in ((u, w) :: E) x w → x = u)
        by (intros x Hx; by apply Hnb, edge_in_sym).
      destruct l1 as [|h l1].
      * rewrite app_nil_l in *.
        destruct l2 as [|n [|n2 l2]]; [simpl in Hlen; lia..|].
        simpl in Hhd. injection Hhd as Hha. subst a.
        apply is_walk_cons in Hwalk as [Hwn _]. apply Hnb in Hwn as ->.
        apply Hnb' in Hclose as ->.
        rewrite !last_cons_cons in Hlast.
        apply NoDup_cons in Hnd as [_ Hnd]. apply NoDup_cons in Hnd as [Hnd _].
        apply Hnd. by apply last_Some_elem_of.
      * simpl in Hhd. injection Hhd as Hha. subst a.
        destruct (last_is_Some (h :: l1)) as [_ [prev Hprev]]; [done|].
        apply last_Some in Hprev as [l1' Hl1].
        rewrite Hl1 in Hwalk, Hnd, Hlast, Hlen.
        assert (Hpw : edge_in ((u, w) :: E) prev w).
        { apply (is_walk_mid _ l1' prev w l2). by rewrite <- app_assoc in Hwalk. }
        apply Hnb' in Hpw as ->.
        destruct l2 as [|n l2].
        -- rewrite last_snoc in Hlast. injection Hlast as Hb. subst b.
           apply Hnb in Hclose as ->.
           destruct l1' as [|h' l1'].
           ++ rewrite length_app in Hlen. simpl in Hlen. lia.
           ++ simpl in Hl1. injection Hl1 as <- _.
              apply NoDup_app in Hnd as (Hnd1 & _ & _). simpl in Hnd1.
              apply NoDup_cons in Hnd1 as [Hnd1 _]. apply Hnd1.
              apply elem_of_app. right. apply list_elem_of_here.
        -- assert (n = u) as ->.
           { apply Hnb.
             by apply (is_walk_mid (edge_in ((u, w) :: E)) (l1' ++ [u]) w n l2). }
           apply NoDup_app in Hnd as (_ & Hnd12 & _).
           apply (Hnd12 u).
           ++ apply elem_of_app. right. apply list_elem_of_here.
           ++ apply list_elem_of_further, list_elem_of_here.
    + (* the cycle lies in the tree before the leaf *)
      apply (IH c). split; [done|]. split; [done|].
      assert (Hold : ∀ x y, x ∈ c → y ∈ c →
                edge_in ((u, w) :: E) x y → edge_in E x y).
      { intros x y Hx Hy [H|H]; apply elem_of_cons in H as [H|H];
          simplify_eq; try done; [by left|by right]. }
      split; [by eapply is_walk_impl_in|].
      exists a, b. repeat split; try done.
      apply Hold; [| |done].
      * by apply last_Some_elem_of.
      * destruct c; simplify_eq/=. apply list_elem_of_here.
Qed.

(** ** Passages *)

Lemma directions_wall_inj dx dy wall op_wall dx' dy' op' :
  (dx, dy, wall, op_wall) ∈ DIRECTIONS → (dx', dy', wall, op') ∈ DIRECTIONS →
  dx' = dx ∧ dy' = dy ∧ op' = op_wall.
Proof.
  intros H H'. apply directions_cases in H. apply directions_cases in H'.
  destruct_or!; simplify_eq; done.
Qed.

Lemma directions_wall_op dx dy wall op_wall dx' dy' op' :
  (dx, dy, wall, op_wall) ∈ DIRECTIONS → (dx', dy', op_wall, op') ∈ DIRECTIONS →
  dx' = - dx ∧ dy' = - dy ∧ op' = wall.
Proof.
  intros H H'. apply directions_cases in H. apply directions_cases in H'.
  destruct_or!; simplify_eq; done.
Qed.

Lemma passage_spec m a b :
  passage m a b = true ↔
  ∃ dx dy wall op_wall,
    (dx, dy, wall, op_wall) ∈ DIRECTIONS ∧ b = (a.1 + dx, a.2 + dy)
    ∧ lacks m a wall = true ∧ lacks m b op_wall = true.
Proof.
  unfold passage. rewrite existsb_exists. split.
  - intros ([[[dx dy] wall] op_wall] & Hin & H).
    apply andb_true_iff in H as [H Hb]. apply andb_true_iff in H as [H Ha].
    apply bool_decide_eq_true in H.
    exists dx, dy, wall, op_wall. by rewrite list_elem_of_In.
  - intros (dx & dy & wall & op_wall & Hin & -> & Ha & Hb).
    exists (dx, dy, wall, op_wall). rewrite <- list_elem_of_In. split; [done|].
    rewrite Ha, Hb, bool_decide_eq_true_2; done.
Qed.

Lemma lacks_spec m p w :
  lacks m p w = true ↔ ∃ c, gcell m p = Some c ∧ Cell.has_wall c w = false.
Proof.
  unfold lacks. destruct (gcell m p) as [c|].
  - rewrite negb_true_iff. split; [eauto|]. by intros (c' & [= <-] & ?).
  - split; [done|]. by intros (c' & [=] & _).
Qed.

(** Passages do not depend on the marks of the cells. *)
Lemma passage_same_walls m m' :
  (∀ p, option_Forall2 (fun c' c => Cell._walls c' = Cell._walls c)
          (gcell m' p) (gcell m p)) →
  ∀ a b, passage m' a b = passage m a b.
Proof.
  intros H a b.
  assert (∀ p w, lacks m' p w = lacks m p w) as Hl.
  { intros p w. unfold lacks. destruct (H p) as [c' c Hc|]; [|done].
    unfold Cell.has_wall. by rewrite Hc. }
  unfold passage, DIRECTIONS. simpl. by rewrite !Hl.
Qed.

(** The passages after the removal of a wall pair: those there were, and
    the one between the two cells. *)
Lemma passage_carve m m' x y dx dy wall op_wall :
  (dx, dy, wall, op_wall) ∈ DIRECTIONS →
  is_Some (gcell m (x, y)) → is_Some (gcell m (x + dx, y + dy)) →
  (∀ p, gcell m' p
        = carve_fn (x, y) (x + dx, y + dy) wall op_wall p <$> gcell m p) →
  ∀ a b, passage m' a b = true ↔
         passage m a b = true
         ∨ (a = (x, y) ∧ b = (x + dx, y + dy))
         ∨ (a = (x + dx, y + dy) ∧ b = (x, y)).
Proof.
  intros Hd [cxy Hxy] [cnb Hnb] Hm' a b.
  pose proof (directions_walls _ _ _ _ Hd) as [Hwall Hop].
  pose proof (directions_nonzero _ _ _ _ x y Hd) as Hne.
  assert (Hl : ∀ p w, is_wall w →
            lacks m' p w = true ↔
            lacks m p w = true
            ∨ (is_Some (gcell m p)
               ∧ removed (x, y) (x + dx, y + dy) wall op_wall p w)).
  { intros p w Hw. rewrite !lacks_spec, Hm'.
    destruct (gcell m p) as [c|] eqn:Hc; simpl.
    - split.
      + intros (c' & [= <-] & Hc'). rewrite has_wall_carve_fn in Hc' by done.
        apply andb_false_iff in Hc' as [Hc'|Hc']; [left; eauto|].
        right. split; [done|]. apply negb_false_iff in Hc'.
        by apply bool_decide_eq_true in Hc'.
      + intros [(c' & [= <-] & Hc')|[_ Hr]]; eexists; (split; [done|]);
          rewrite has_wall_carve_fn by done.
        * by rewrite Hc'.
        * rewrite (bool_decide_eq_true_2 _ Hr). apply andb_false_r.
    - split; [intros (c' & [=] & _)|]. intros [(c' & [=] & _)|[[? [=]] _]]. }
  rewrite !passage_spec. split.
  - intros (dx' & dy' & w' & op' & Hd' & -> & Ha & Hb).
    pose proof (directions_walls _ _ _ _ Hd') as [Hw' Hop'].
    apply (proj1 (Hl _ _ Hw')) in Ha as [Ha|[Hsa Hra]].
    + apply (proj1 (Hl _ _ Hop')) in Hb as [Hb|[Hsb Hrb]].
      * left. exists dx', dy', w', op'. done.
      * apply (removed_neighbour x y dx dy wall op_wall a dx' dy' w' op') in Hrb;
          [|done..].
        right. destruct Hrb as [[-> ->]|[-> ->]].
        -- destruct (directions_wall_op _ _ _ _ _ _ _ Hd Hd') as (-> & -> & _).
           right. split; [done|]. simpl. f_equal; lia.
        -- destruct (directions_wall_inj _ _ _ _ _ _ _ Hd Hd') as (-> & -> & _).
           left. done.
    + right. destruct Hra as [[-> ->]|[-> ->]].
      * destruct (directions_wall_op _ _ _ _ _ _ _ Hd Hd') as (-> & -> & _).
        right. split; [done|]. simpl. f_equal; lia.
      * destruct (directions_wall_inj _ _ _ _ _ _ _ Hd Hd') as (-> & -> & _).
        left. done.
  - intros [(dx' & dy' & w' & op' & Hd' & -> & Ha & Hb)|[[-> ->]|[-> ->]]].
    + pose proof (directions_walls _ _ _ _ Hd') as [Hw' Hop'].
      exists dx', dy', w', op'. repeat split; try done; apply Hl; auto.
    + exists dx, dy, wall, op_wall. repeat split; try done; apply Hl; try done;
        right; (split; [eauto|]); [right|left]; done.
    + exists (- dx), (- dy), op_wall, wall.
      split; [by apply directions_reverse|]. split; [simpl; f_equal; lia|].
      split; apply Hl; try done; right; (split; [eauto|]); [left|right]; done.
Qed.

(** ** The neighbours a carving step may open *)

Lemma allowed_in_grid g p : allowed g p → in_grid g p.
Proof. intros H. by apply allowed_spec in H as [? _]. Qed.

Lemma unvisited_neighbors_ret g m x y dirs :
  rect g m →
  ∃ ns, unvisited_neighbors g m x y dirs = Ret ns
      ∧ (length ns ≤ length dirs)%nat
      ∧ ∀ n, n ∈ ns ↔
          ∃ dx dy wall op_wall c,
            n = (x + dx, y + dy, wall, op_wall)
            ∧ (dx, dy, wall, op_wall) ∈ dirs
            ∧ allowed g (x + dx, y + dy)
            ∧ gcell m (x + dx, y + dy) = Some c ∧ Cell.visited c = false.
Proof.
  intros Hrect. induction dirs as [|[[[dx dy] wall] op_wall] dirs IH].
  - exists []. simpl. split; [done|]. split; [done|]. intros n. split.
    + by intros ?%elem_of_nil.
    + intros (? & ? & ? & ? & ? & _ & ?%elem_of_nil & _). done.
  - destruct IH as (ns & Hns & Hlen & Hspec). simpl.
    destruct (_in_maze_bounds g (x + dx) (y + dy)) eqn:Hb.
    + destruct (in_grid_gcell g m (x + dx, y + dy) Hrect) as [c Hc];
        [by apply allowed_in_grid|].
      rewrite (cell_at_ret _ _ _ _ Hc). simpl. rewrite Hns. simpl.
      eexists. split; [done|]. split.
      { destruct (Cell.visited c); simpl; lia. }
      intros n. destruct (Cell.visited c) eqn:Hv; simpl.
      * rewrite Hspec. split.
        -- intros (dx' & dy' & w' & o' & c' & ? & ? & ?).
           exists dx', dy', w', o', c'. split; [done|].
           split; [by apply list_elem_of_further|done].
        -- intros (dx' & dy' & w' & o' & c' & -> & Hin & Hal & Hc' & Hv').
           apply elem_of_cons in Hin as [Heq|Hin].
           ++ simplify_eq. congruence.
           ++ exists dx', dy', w', o', c'. done.
      * rewrite elem_of_cons, Hspec. split.
        -- intros [->|(dx' & dy' & w' & o' & c' & ? & ? & ?)].
           ++ exists dx, dy, wall, op_wall, c. split; [done|].
              split; [apply list_elem_of_here|done].
           ++ exists dx', dy', w', o', c'. split; [done|].
              split; [by apply list_elem_of_further|done].
        -- intros (dx' & dy' & w' & o' & c' & -> & Hin & Hal & Hc' & Hv').
           apply elem_of_cons in Hin as [Heq|Hin].
           ++ simplify_eq. by left.
           ++ right. exists dx', dy', w', o', c'. done.
    + rewrite Hns. simpl. exists ns. split; [done|]. split; [lia|].
      intros n. rewrite Hspec. split.
      * intros (dx' & dy' & w' & o' & c' & ? & ? & ?).
        exists dx', dy', w', o', c'. split; [done|].
        split; [by apply list_elem_of_further|done].
      * intros (dx' & dy' & w' & o' & c' & -> & Hin & Hal & Hc' & Hv').
        apply elem_of_cons in Hin as [Heq|Hin].
        -- simplify_eq. unfold allowed in Hal. simpl in Hal. congruence.
        -- exists dx', dy', w', o', c'. done.
Qed.

(** ** The invariant of a perfect carve *)

(** The grid is well formed, the marked cells are the vertices of a tree
    rooted at the entry, and the passages of the grid are its edges. *)
Record tree_inv (g : MazeGenerator) (m : grid)
  (V : list coord) (E : list (coord * coord)) : Prop := {
  ti_grid : grid_inv g m;
  ti_grows : grows (entry g) V E;
  ti_allowed : ∀ v, v ∈ V → allowed g v;
  ti_visited : ∀ p c, gcell m p = Some c → (Cell.visited c = true ↔ p ∈ V);
  ti_edges : ∀ a b, passage m a b = true ↔ edge_in E a b
}.

Lemma fresh_no_passage g a b : passage (_generate_grid g) a b = false.
Proof.
  apply not_true_is_false. rewrite passage_spec.
  intros (dx & dy & w & o & Hd & _ & Ha & _).
  apply lacks_spec in Ha as (c & ->%generate_grid_gcell & Hc).
  apply directions_walls in Hd as [Hw _].
  destruct Hw as [-> | [-> | [-> | ->]]]; done.
Qed.

(** The state in which both carving loops start. *)
Lemma tree_inv_start g :
  allowed g (entry g) →
  ∃ m1, update_cell (Cell.set_visited true) (_generate_grid g)
          (entry g).1 (entry g).2 = Ret m1
      ∧ tree_inv g m1 [entry g] [].
Proof.
  intros Hentry.
  destruct (in_grid_gcell g (_generate_grid g) (entry g)) as [c Hc];
    [apply generate_grid_rect|by apply allowed_in_grid|].
  destruct (entry g) as [ex ey] eqn:He.
  destruct (update_cell_ret (Cell.set_visited true) _ _ _ _ Hc)
    as (m1 & Hm1 & Hcells & Hrect).
  exists m1. split; [done|].
  assert (Hcells' : ∀ p, gcell m1 p
            = (if decide (p = (ex, ey)) then Cell.set_visited true else id)
              <$> gcell (_generate_grid g) p).
  { intros p. rewrite Hcells. case_decide; [subst; by rewrite Hc|].
    by destruct (gcell _ p). }
  split.
  - eapply visit_grid_inv; [apply fresh_grid_inv| |exact Hcells'|].
    + done.
    + apply Hrect, generate_grid_rect.
  - rewrite He. constructor.
  - by intros v ->%list_elem_of_singleton.
  - intros p c'. rewrite Hcells'. rewrite list_elem_of_singleton.
    destruct (gcell (_generate_grid g) p) as [c0|] eqn:Hc0; [|done].
    apply generate_grid_gcell in Hc0 as ->. simpl. intros [= <-].
    case_decide; simpl; [done|]. split; [done|]. congruence.
  - intros a b. rewrite (passage_same_walls (_generate_grid g) m1).
    + rewrite fresh_no_passage. split; [done|].
      intros [H|H]; by apply elem_of_nil in H.
    + intros p. rewrite Hcells'. destruct (gcell _ p); constructor.
      by case_decide.
Qed.

(** One carving step: the wall pair between a marked cell and an unmarked
    carvable neighbour is removed and the neighbour is marked. *)
Lemma tree_inv_carve g m V E x y dx dy wall op_wall cw :
  tree_inv g m V E →
  (x, y) ∈ V →
  (dx, dy, wall, op_wall) ∈ DIRECTIONS →
  allowed g (x + dx, y + dy) →
  gcell m (x + dx, y + dy) = Some cw → Cell.visited cw = false →
  ∃ m1 m2,
    remove_wall_pair m x y (x + dx) (y + dy) wall op_wall = Ret m1
    ∧ update_cell (Cell.set_visited true) m1 (x + dx) (y + dy) = Ret m2
    ∧ grid_inv g m1
    ∧ tree_inv g m2 ((x + dx, y + dy) :: V) (((x, y), (x + dx, y + dy)) :: E).
Proof.
  intros [Hgrid Hgrows Hallowed Hvisited Hedges] Hu Hd Hnb Hcw Hunv.
  pose proof (Hallowed _ Hu) as Hxy.
  destruct (in_grid_gcell g m (x, y)) as [cu Hcu];
    [apply Hgrid|by apply allowed_in_grid|].
  pose proof (directions_nonzero _ _ _ _ x y Hd) as Hne.
  destruct (remove_wall_pair_ret m x y (x + dx) (y + dy) wall op_wall cu cw)
    as (m1 & Hm1 & Hcells1 & Hrect1); [done..|].
  assert (Hgrid1 : grid_inv g m1).
  { eapply carve_grid_inv; try done. apply Hrect1, Hgrid. }
  assert (Hcw1 : gcell m1 (x + dx, y + dy)
                 = Some (_remove_wall cw op_wall)).
  { rewrite Hcells1, Hcw. simpl. unfold carve_fn. by rewrite decide_True. }
  destruct (update_cell_ret (Cell.set_visited true) _ _ _ _ Hcw1)
    as (m2 & Hm2 & Hcells2 & Hrect2).
  assert (Hcells2' : ∀ p, gcell m2 p
            = (if decide (p = (x + dx, y + dy))
               then Cell.set_visited true else id) <$> gcell m1 p).
  { intros p. rewrite Hcells2. case_decide; [subst; by rewrite Hcw1|].
    by destruct (gcell m1 p). }
  exists m1, m2. split; [done|]. split; [done|]. split; [done|].
  assert (Hw : (x + dx, y + dy) ∉ V).
  { intros Hin. apply (Hvisited _ _ Hcw) in Hin. congruence. }
  split.
  - eapply visit_grid_inv; [exact Hgrid1| |exact Hcells2'|].
    + done.
    + apply Hrect2, Hgrid1.
  - by constructor.
  - intros v [->|Hv]%elem_of_cons; eauto.
  - intros p c2. rewrite Hcells2', Hcells1, elem_of_cons.
    destruct (gcell m p) as [c|] eqn:Hc; [|done]. simpl. intros [= <-].
    case_decide; simpl; [tauto|].
    unfold Cell.visited. rewrite carve_fn_visited.
    rewrite <- (Hvisited p c Hc). unfold Cell.visited. tauto.
  - intros a b. rewrite (passage_same_walls m1 m2).
    + rewrite (passage_carve m m1 x y dx dy wall op_wall); eauto.
      rewrite Hedges. unfold edge_in. rewrite !elem_of_cons.
      split; intros H; destruct_or!; destruct_and?; simplify_eq; tauto.
    + intros p. rewrite Hcells2'. destruct (gcell m1 p); constructor.
      by case_decide.
Qed.

(** ** The cells of a grid, counted *)

Lemma elem_of_py_range a b x : x ∈ py_range a b ↔ a ≤ x < b.
Proof.
  unfold py_range. rewrite list_elem_of_In, in_map_iff. split.
  - intros (i & <- & Hi). apply in_seq in Hi. lia.
  - intros Hx. exists (Z.to_nat (x - a)). split; [lia|]. apply in_seq. lia.
Qed.

Lemma py_range_length a b : length (py_range a b) = Z.to_nat (b - a).
Proof. unfold py_range. by rewrite length_map, length_seq. Qed.

Lemma py_range_NoDup a b : NoDup (py_range a b).
Proof.
  unfold py_range. apply (NoDup_fmap_2_strong (fun i => a + Z.of_nat i)).
  - intros i j _ _ ?. lia.
  - apply NoDup_seq.
Qed.

Lemma elem_of_all_cells g p : p ∈ all_cells g ↔ in_grid g p.
Proof.
  unfold all_cells, in_grid. rewrite list_elem_of_bind. split.
  - intros (y & Hp & Hy). apply list_elem_of_bind in Hp as (x & Hp & Hx).
    apply list_elem_of_singleton in Hp as ->.
    apply elem_of_py_range in Hx, Hy. simpl. lia.
  - destruct p as [x y]. simpl. intros [Hx Hy].
    exists y. split; [|apply elem_of_py_range; lia].
    apply list_elem_of_bind. exists x.
    split; [apply list_elem_of_here|apply elem_of_py_range; lia].
Qed.

Lemma all_cells_NoDup g : NoDup (all_cells g).
Proof.
  unfold all_cells. apply NoDup_bind; [| |apply py_range_NoDup].
  - intros y1 y2 p _ _ H1 H2.
    apply list_elem_of_bind in H1 as (x1 & H1%list_elem_of_singleton & _).
    apply list_elem_of_bind in H2 as (x2 & H2%list_elem_of_singleton & _).
    by simplify_eq.
  - intros y _. apply NoDup_bind; [| |apply py_range_NoDup].
    + intros x1 x2 p _ _ H1%list_elem_of_singleton H2%list_elem_of_singleton.
      by simplify_eq.
    + intros x _. apply NoDup_singleton.
Qed.

Lemma bind_const_length {A B} (f : A → list B) (l : list A) (n : nat) :
  (∀ a, length (f a) = n) → length (l ≫= f) = (length l * n)%nat.
Proof.
  intros Hf. induction l as [|a l IH]; [done|].
  change ((a :: l) ≫= f) with (f a ++ l ≫= f).
  rewrite length_app, Hf, IH. simpl. lia.
Qed.

Lemma all_cells_length g :
  length (all_cells g) = (Z.to_nat (height g) * Z.to_nat (width g))%nat.
Proof.
  unfold all_cells.
  rewrite (bind_const_length _ _ (Z.to_nat (width g))).
  - rewrite py_range_length. f_equal. lia.
  - intros y. rewrite (bind_const_length _ _ 1%nat); [|done].
    rewrite py_range_length. lia.
Qed.

Lemma elem_of_carvable_cells g p : p ∈ carvable_cells g ↔ allowed g p.
Proof.
  unfold carvable_cells. rewrite list_elem_of_filter, elem_of_all_cells.
  rewrite allowed_spec. tauto.
Qed.

Lemma carvable_cells_NoDup g : NoDup (carvable_cells g).
Proof. apply NoDup_filter, all_cells_NoDup. Qed.

(** A duplicate-free list of carvable cells is no longer than the list of
    all of them. *)
Lemma carvable_bound g (V : list coord) :
  NoDup V → (∀ v, v ∈ V → allowed g v) →
  (length V ≤ length (carvable_cells g))%nat.
Proof.
  intros Hnd Hall. apply submseteq_length, NoDup_submseteq; [done|].
  intros v Hv. by apply elem_of_carvable_cells, Hall.
Qed.

(** The pattern lies inside every grid that has one, without repetition. *)
Lemma pattern_cells_NoDup px py : NoDup (pattern_cells px py).
Proof.
  unfold pattern_cells.
  repeat (apply NoDup_cons; split;
          [rewrite ?elem_of_cons, elem_of_nil;
           intros H; destruct_or?; simplify_eq; lia|]).
  apply NoDup_nil_2.
Qed.

(** [int(n / 2)] stays strictly between a quarter of [n] and [n], however
    the division rounds. *)
Lemma int_half_bounds n :
  2 ≤ n → 1 ≤ int_half n < n ∧ (4 ≤ n → 2 ≤ int_half n).
Proof.
  intros Hn. unfold int_half, round_to_double.
  destruct (Z.ltb_spec n (2 ^ 53)) as [Hsmall|Hbig].
  - rewrite Z.quot_div_nonneg by lia.
    pose proof (Z.div_mod n 2). pose proof (Z.mod_pos_bound n 2). lia.
  - assert (Hlog : 53 ≤ Z.log2 n).
    { rewrite <- (Z.log2_pow2 53) by lia. by apply Z.log2_le_mono. }
    set (shift := Z.log2 n - 52).
    assert (Hshift : 1 ≤ shift) by (unfold shift; lia).
    rewrite !Z.shiftr_div_pow2, !Z.shiftl_mul_pow2 by lia.
    assert (HP : 0 < 2 ^ shift) by (apply Z.pow_pos_nonneg; lia).
    assert (Hlow : 2 ^ 52 * 2 ^ shift ≤ n).
    { rewrite <- Z.pow_add_r by lia.
      replace (52 + shift) with (Z.log2 n) by (unfold shift; lia).
      apply Z.log2_spec. lia. }
    pose proof (Z.div_mod n (2 ^ shift)) as Hdiv.
    pose proof (Z.mod_pos_bound n (2 ^ shift) HP) as Hmod.
    change (2 ^ 52) with 4503599627370496 in Hlow.
    generalize dependent (2 ^ shift). intros P HP Hlow Hdiv Hmod.
    generalize dependent (n / P). intros m Hdiv.
    generalize (n `mod` P) Hdiv Hmod. intros r Hr Hrb.
    match goal with |- context [if ?b then _ else _] => destruct b end.
    + assert (Hround : 4 ≤ (m + 1) * P < 2 * n) by lia.
      rewrite Z.quot_div_nonneg by lia.
      pose proof (Z.div_mod ((m + 1) * P) 2).
      pose proof (Z.mod_pos_bound ((m + 1) * P) 2). lia.
    + assert (Hround : 4 ≤ m * P < 2 * n) by lia.
      rewrite Z.quot_div_nonneg by lia.
      pose proof (Z.div_mod (m * P) 2).
      pose proof (Z.mod_pos_bound (m * P) 2). lia.
Qed.

Lemma pattern_anchor_bounds w h :
  8 < w → 8 < h →
  1 ≤ (pattern_anchor w h).1 ∧ (pattern_anchor w h).1 + 7 < w
  ∧ 2 ≤ (pattern_anchor w h).2 ∧ (pattern_anchor w h).2 + 5 < h.
Proof.
  intros Hw Hh. unfold pattern_anchor. simpl.
  pose proof (int_half_bounds (w - 7)). pose proof (int_half_bounds (h - 5)).
  lia.
Qed.

Lemma pattern_cells_box px py p :
  p ∈ pattern_cells px py → px ≤ p.1 ≤ px + 6 ∧ py ≤ p.2 ≤ py + 4.
Proof.
  unfold pattern_cells. rewrite !elem_of_cons, elem_of_nil.
  intros H. destruct_or!; simplify_eq; simpl; lia.
Qed.

Lemma carvable_cells_length g :
  cfg_ok g →
  (length (carvable_cells g) + 18 = Z.to_nat (width g) * Z.to_nat (height g))%nat.
Proof.
  intros Hcfg.
  pose proof (filter_app_complement (fun p => p ∉ pattern_42 g) (all_cells g)) as Hp.
  apply Permutation_length in Hp. rewrite length_app, all_cells_length in Hp.
  fold (carvable_cells g) in Hp.
  assert (filter (fun p : Z * Z => ¬ (p ∉ pattern_42 g)) (all_cells g)
          ≡ₚ pattern_42 g) as Hq.
  { apply NoDup_Permutation.
    - apply NoDup_filter, all_cells_NoDup.
    - rewrite (cfg_pattern g Hcfg). apply pattern_cells_NoDup.
    - intros p. rewrite list_elem_of_filter, elem_of_all_cells. split.
      + intros [Hin _]. by apply dec_stable.
      + intros Hin. split; [tauto|].
        rewrite (cfg_pattern g Hcfg) in Hin.
        apply pattern_cells_box in Hin.
        pose proof (pattern_anchor_bounds (width g) (height g)
                      (cfg_width g Hcfg) (cfg_height g Hcfg)).
        unfold in_grid. lia. }
  apply Permutation_length in Hq. rewrite Hq in Hp.
  rewrite (cfg_pattern g Hcfg) in Hp. simpl in Hp. lia.
Qed.

(** ** The depth-first run *)

Lemma py_index_elem_of {A} (l : list A) (i : Z) :
  0 ≤ i ≤ Z.of_nat (length l) - 1 → ∃ a, py_index l i = Ret a ∧ a ∈ l.
Proof.
  intros Hi. destruct (lookup_lt_is_Some_2 l (Z.to_nat i)) as [a Ha]; [lia|].
  exists a. split; [apply py_index_ret; [lia|done]|].
  by eapply list_elem_of_lookup_2.
Qed.

Arguments unvisited_neighbors : simpl never.
Arguments remove_wall_pair : simpl never.
Arguments update_cell : simpl never.
Arguments cell_at : simpl never.
Arguments py_index : simpl never.

Section dfs_proofs.
Context (R : RandomSource).

(** The invariant of [while stack]: the stack holds marked cells, and a
    marked cell that is not on the stack has no carvable neighbour left
    unmarked. *)
Record dfs_inv (g : MazeGenerator) (st : dfs_frame R)
  (V : list coord) (E : list (coord * coord)) : Prop := {
  di_tree : tree_inv g (df_maze st) V E;
  di_stack : ∀ v, v ∈ df_stack st → v ∈ V;
  di_closed : ∀ v dx dy wall op_wall,
    v ∈ V → v ∉ df_stack st → (dx, dy, wall, op_wall) ∈ DIRECTIONS →
    allowed g (v.1 + dx, v.2 + dy) → (v.1 + dx, v.2 + dy) ∈ V
}.

Definition dfs_measure (g : MazeGenerator) (st : dfs_frame R)
  (V : list coord) : nat :=
  2 * (length (carvable_cells g) - length V) + length (df_stack st).

Lemma tree_inv_bound g m V E :
  tree_inv g m V E → (length V ≤ length (carvable_cells g))%nat.
Proof.
  intros [_ Hg Ha _ _]. apply carvable_bound; [by eapply grows_NoDup|done].
Qed.

Lemma dfs_iter_ret g st V E :
  dfs_inv g st V E → df_stack st ≠ [] →
  ∃ st' ev V' E',
    dfs_iter R g st = Ret (st', ev)
    ∧ dfs_inv g st' V' E'
    ∧ S (dfs_measure g st' V') = dfs_measure g st V
    ∧ match ev with
      | None => V' = V ∧ E' = E
      | Some (e, m1) =>
          grid_inv g m1 ∧ is_wall e.2 ∧ length E' = S (length E)
      end.
Proof.
  intros [Htree Hstack Hclosed] Hne. unfold dfs_iter.
  destruct st as [m stack rng]. simpl in *.
  destruct stack as [|[x y] below]; [done|].
  assert (Hxy : (x, y) ∈ V) by (apply Hstack, list_elem_of_here).
  pose proof (ti_grid _ _ _ _ Htree) as Hgrid.
  destruct (in_grid_gcell g m (x, y)) as [cu Hcu];
    [apply Hgrid|by apply allowed_in_grid, (ti_allowed _ _ _ _ Htree)|].
  rewrite (cell_at_ret _ _ _ _ Hcu). simpl.
  destruct (unvisited_neighbors_ret g m x y DIRECTIONS (gi_rect _ _ Hgrid))
    as (ns & -> & _ & Hns). simpl.
  destruct ns as [|n0 ns0] eqn:Ens.
  - (* nothing to open: backtrack *)
    eexists _, None, V, E. split; [done|]. split; [|split; [|done]].
    + split; simpl; [done|..].
      * intros v Hv. by apply Hstack, list_elem_of_further.
      * intros v dx dy wall op_wall Hv Hnot Hd Hal.
        destruct (decide (v = (x, y))) as [->|Hvxy].
        -- simpl in *.
           destruct (in_grid_gcell g m (x + dx, y + dy)) as [c Hc];
             [apply Hgrid|by apply allowed_in_grid|].
           apply (ti_visited _ _ _ _ Htree _ c Hc).
           destruct (Cell.visited c) eqn:Hv'; [done|]. exfalso.
           apply (elem_of_nil (x + dx, y + dy, wall, op_wall)).
           apply Hns. exists dx, dy, wall, op_wall, c. done.
        -- apply (Hclosed v dx dy wall op_wall); try done.
           intros [?|?]%elem_of_cons; done.
    + unfold dfs_measure. simpl. lia.
  - (* open a passage to one of the neighbours *)
    rewrite <- Ens in *.
    assert (Hlen : (0 < length ns)%nat) by (rewrite Ens; simpl; lia).
    clear Ens.
    destruct (rng_randint R 0 (Z.of_nat (length ns) - 1) rng)
      as [idx rng'] eqn:Hr.
    pose proof (rng_randint_range R 0 (Z.of_nat (length ns) - 1) rng) as Hrange.
    rewrite Hr in Hrange. simpl in Hrange.
    destruct (py_index_elem_of ns idx) as (n & Hn & Hin); [lia|].
    assert (ns ≠ []) as Hns_ne by (intros ->; simpl in Hlen; lia).
    replace (match ns with [] => _ | _ :: _ => _ end)
      with ('(next_x, next_y, wall, op_wall) ← py_index ns idx;
            _ ← cell_at m next_x next_y;
            m1 ← remove_wall_pair m x y next_x next_y wall op_wall;
            m2 ← update_cell (Cell.set_visited true) m1 next_x next_y;
            Ret ({| df_maze := m2;
                    df_stack := (next_x, next_y) :: (x, y) :: below;
                    df_rng := rng' |},
                 Some (((x, y), wall), m1)))
      by (destruct ns; done).
    rewrite Hn. simpl.
    apply Hns in Hin as (dx & dy & wall & op_wall & c & -> & Hd & Hal & Hc & Hv).
    rewrite (cell_at_ret _ _ _ _ Hc). simpl.
    destruct (tree_inv_carve g m V E x y dx dy wall op_wall c)
      as (m1 & m2 & -> & Hm2 & Hgrid1 & Htree2); try done.
    simpl. rewrite Hm2. simpl.
    eexists _, _, _, _. split; [done|]. split; [|split].
    + split; simpl; [exact Htree2|..].
      * intros v [->|Hv']%elem_of_cons; [apply list_elem_of_here|].
        by apply list_elem_of_further, Hstack.
      * intros v dx' dy' w' o' [->|Hv']%elem_of_cons Hnot Hd' Hal'.
        -- exfalso. apply Hnot, list_elem_of_here.
        -- apply list_elem_of_further.
           apply (Hclosed v dx' dy' w' o'); try done.
           intros Hs. apply Hnot. by apply list_elem_of_further.
    + pose proof (tree_inv_bound _ _ _ _ Htree2) as Hb. simpl in Hb.
      unfold dfs_measure. simpl. lia.
    + simpl. split; [done|]. split; [|done].
      by apply directions_walls in Hd as [? _].
Qed.

(** The loop: with any fuel it raises nothing; when it returns, the stack
    is empty and every event is a wall removal that leaves a well-formed
    grid; it runs out of fuel only below the measure. *)
Lemma dfs_loop_spec fuel g st V E :
  dfs_inv g st V E →
  match dfs_loop R fuel g st with
  | Ret (evs, final) =>
      ∃ V' E', dfs_inv g final V' E' ∧ df_stack final = []
        ∧ length E' = (length E + length evs)%nat
        ∧ Forall (fun em : event * grid =>
                    grid_inv g em.2 ∧ is_wall em.1.2) evs
  | Raise _ => False
  | OutOfFuel => (fuel < dfs_measure g st V)%nat
  end.
Proof.
  revert st V E. induction fuel as [|fuel IH]; intros st V E Hinv.
  - simpl. destruct (df_stack st) eqn:Hs.
    + exists V, E. split; [done|]. split; [done|]. split; [simpl; lia|done].
    + unfold dfs_measure. rewrite Hs. simpl. lia.
  - simpl. destruct (df_stack st) eqn:Hs.
    + exists V, E. split; [done|]. split; [done|]. split; [simpl; lia|done].
    + destruct (dfs_iter_ret g st V E Hinv) as (st' & ev & V' & E' & -> & Hinv' & Hm & Hev);
        [by rewrite Hs|].
      simpl. specialize (IH st' V' E' Hinv').
      destruct (dfs_loop R fuel g st') as [[evs final]| |]; simpl.
      * destruct IH as (V'' & E'' & Hfin & Hempty & Hlen & Hall).
        exists V'', E''. split; [done|]. split; [done|].
        destruct ev as [[e m1]|]; simpl.
        -- destruct Hev as (Hg1 & Hw & HlenE). split; [lia|].
           apply Forall_cons. done.
        -- destruct Hev as [-> ->]. done.
      * done.
      * lia.
Qed.

End dfs_proofs.

(** ** Braiding *)

Lemma for_each_inv {A S} (body : S → A → run S) (P : S → Prop)
  (items : list A) (s : S) :
  (∀ s a, a ∈ items → P s → ∃ s', body s a = Ret s' ∧ P s') →
  P s → ∃ s', for_each body items s = Ret s' ∧ P s'.
Proof.
  revert s. induction items as [|a items IH]; intros s Hbody Hs; simpl.
  - eauto.
  - destruct (Hbody s a) as (s' & -> & Hs'); [apply list_elem_of_here|done|].
    simpl. apply IH; [|done].
    intros s0 a0 Ha0. apply Hbody. by apply list_elem_of_further.
Qed.

Lemma elem_of_braid_cells g p :
  p ∈ braid_cells g ↔ 1 ≤ p.1 < width g - 1 ∧ 1 ≤ p.2 < height g - 1.
Proof.
  unfold braid_cells. rewrite list_elem_of_bind. split.
  - intros (y & Hp & Hy). apply list_elem_of_bind in Hp as (x & Hp & Hx).
    apply list_elem_of_singleton in Hp as ->.
    apply elem_of_py_range in Hx, Hy. simpl. lia.
  - destruct p as [x y]. simpl. intros [Hx Hy].
    exists y. split; [|apply elem_of_py_range; lia].
    apply list_elem_of_bind. exists x.
    split; [apply list_elem_of_here|apply elem_of_py_range; lia].
Qed.

Section braid_proofs.
Context (R : RandomSource).

Lemma braid_neighbors_spec g x y n :
  n ∈ braid_neighbors g x y →
  ∃ dx dy wall op_wall,
    n = (x + dx, y + dy, wall, op_wall)
    ∧ (dx, dy, wall, op_wall) ∈ DIRECTIONS ∧ allowed g (x + dx, y + dy).
Proof.
  unfold braid_neighbors. rewrite list_elem_of_omap.
  intros ([[[dx dy] wall] op_wall] & Hd & Hn).
  destruct (_in_maze_bounds g (x + dx) (y + dy)) eqn:Hb; [|done].
  simplify_eq. exists dx, dy, wall, op_wall. done.
Qed.

(** One pass of the braiding loop returns and keeps the grid invariant. *)
Lemma braid_cell_inv g (st : grid * rng_state R) p :
  p ∈ braid_cells g → grid_inv g st.1 →
  ∃ st', braid_cell R g st p = Ret st' ∧ grid_inv g st'.1.
Proof.
  intros Hp Hgrid. destruct st as [m rng]. destruct p as [x y].
  apply elem_of_braid_cells in Hp. simpl in Hp, Hgrid.
  unfold braid_cell.
  destruct (_is_not_42_pattern g x y) eqn:Hpat; simpl; [|eauto].
  assert (Hxy : allowed g (x, y)).
  { apply allowed_spec. split; [unfold in_grid; simpl; lia|].
    by apply is_not_42_pattern_spec. }
  destruct (in_grid_gcell g m (x, y)) as [c Hc];
    [apply Hgrid|by apply allowed_in_grid|].
  rewrite (cell_at_ret _ _ _ _ Hc). simpl.
  destruct (_wall_count c =? 3); [|eauto].
  destruct (braid_neighbors g x y) as [|n0 ns0] eqn:Ens; [eauto|].
  rewrite <- Ens.
  assert (Hlen : (0 < length (braid_neighbors g x y))%nat)
    by (rewrite Ens; simpl; lia).
  clear Ens.
  destruct (rng_randint R 0 (Z.of_nat (length (braid_neighbors g x y)) - 1) rng)
    as [idx rng'] eqn:Hr.
  pose proof (rng_randint_range R 0
                (Z.of_nat (length (braid_neighbors g x y)) - 1) rng) as Hrange.
  rewrite Hr in Hrange. simpl in Hrange.
  destruct (py_index_elem_of (braid_neighbors g x y) idx) as (n & -> & Hin);
    [lia|].
  apply braid_neighbors_spec in Hin as (dx & dy & wall & op_wall & -> & Hd & Hal).
  simpl.
  destruct (in_grid_gcell g m (x + dx, y + dy)) as [cn Hcn];
    [apply Hgrid|by apply allowed_in_grid|].
  destruct (remove_wall_pair_ret m x y (x + dx) (y + dy) wall op_wall c cn)
    as (m' & -> & Hcells & Hrect); [done|done|by eapply directions_nonzero|].
  simpl. eexists. split; [done|]. simpl.
  apply (carve_grid_inv g m m' x y dx dy wall op_wall); try done.
  apply Hrect, Hgrid.
Qed.

Lemma braid_passes_inv g cells m rng :
  (∀ p, p ∈ cells → p ∈ braid_cells g) → grid_inv g m →
  ∃ st', for_each (braid_cell R g) cells (m, rng) = Ret st' ∧ grid_inv g st'.1.
Proof.
  intros Hcells Hgrid.
  apply (for_each_inv (braid_cell R g) (fun st => grid_inv g st.1));
    [|done].
  intros st p Hp Hst. apply braid_cell_inv; eauto.
Qed.

Lemma braid_dead_ends_inv g :
  grid_inv g (maze g) →
  ∃ m', braid_dead_ends R g = Ret (set_maze g m') ∧ grid_inv g m'.
Proof.
  intros Hgrid. unfold braid_dead_ends.
  destruct (braid_passes_inv g (braid_cells g) (maze g) (rng_seed R (seed g)))
    as ([m' rng'] & -> & Hinv); [done|done|].
  simpl. eauto.
Qed.

End braid_proofs.

(** ** The run of Prim's algorithm *)

Arguments add_to_frontier : simpl never.
Arguments py_norm_index : simpl never.

Section prim_proofs.
Context (R : RandomSource).

(** An edge of the frontier leaves a marked cell towards a carvable
    neighbour. *)
Definition edge_ok (g : MazeGenerator) (V : list coord) (e : frontier_edge)
  : Prop :=
  let '(cx, cy, nx, ny, wall, op_wall) := e in
  (cx, cy) ∈ V
  ∧ ∃ dx dy, (dx, dy, wall, op_wall) ∈ DIRECTIONS
      ∧ nx = cx + dx ∧ ny = cy + dy ∧ allowed g (nx, ny).

(** The invariant of [while frontier]: every carvable neighbour of a
    marked cell is marked or the target of an edge of the frontier. *)
Record prim_inv (g : MazeGenerator) (st : prim_frame R)
  (V : list coord) (E : list (coord * coord)) : Prop := {
  pi_tree : tree_inv g (pf_maze st) V E;
  pi_frontier : ∀ e, e ∈ pf_frontier st → edge_ok g V e;
  pi_closed : ∀ v dx dy wall op_wall,
    v ∈ V → (dx, dy, wall, op_wall) ∈ DIRECTIONS →
    allowed g (v.1 + dx, v.2 + dy) →
    (v.1 + dx, v.2 + dy) ∈ V
    ∨ (v.1, v.2, v.1 + dx, v.2 + dy, wall, op_wall) ∈ pf_frontier st
}.

Definition prim_measure (g : MazeGenerator) (st : prim_frame R)
  (V : list coord) : nat :=
  4 * (length (carvable_cells g) - length V) + length (pf_frontier st).

Lemma add_to_frontier_ret g m frontier x y :
  rect g m →
  ∃ fr, add_to_frontier g m frontier x y = Ret fr
      ∧ (length fr ≤ length frontier + 4)%nat
      ∧ ∀ e, e ∈ fr ↔
          e ∈ frontier
          ∨ ∃ dx dy wall op_wall c,
              e = (x, y, x + dx, y + dy, wall, op_wall)
              ∧ (dx, dy, wall, op_wall) ∈ DIRECTIONS
              ∧ allowed g (x + dx, y + dy)
              ∧ gcell m (x + dx, y + dy) = Some c ∧ Cell.visited c = false.
Proof.
  intros Hrect. unfold add_to_frontier.
  destruct (unvisited_neighbors_ret g m x y DIRECTIONS Hrect)
    as (ns & -> & Hlen & Hns). simpl.
  eexists. split; [done|]. split.
  - rewrite length_app, length_map. simpl in Hlen. lia.
  - intros e. rewrite elem_of_app.
    rewrite (list_elem_of_In (map _ ns) e), in_map_iff.
    split; (intros [He|He]; [by left|right]).
    + destruct He as ([[[nx ny] wall] op_wall] & <- & Hin).
      apply list_elem_of_In, Hns in Hin
        as (dx & dy & w' & o' & c & [= -> -> -> ->] & ?).
      exists dx, dy, w', o', c. done.
    + destruct He as (dx & dy & wall & op_wall & c & -> & Hrest).
      exists (x + dx, y + dy, wall, op_wall). split; [done|].
      apply list_elem_of_In, Hns. exists dx, dy, wall, op_wall, c. done.
Qed.

Lemma elem_of_delete_cases {A} (l : list A) (j : nat) (x e : A) :
  l !! j = Some x → e ∈ l ↔ e = x ∨ e ∈ delete j l.
Proof.
  intros Hj. rewrite (delete_Permutation l j x Hj) at 1.
  apply elem_of_cons.
Qed.

Lemma edge_ok_mono g V w e : edge_ok g V e → edge_ok g (w :: V) e.
Proof.
  destruct e as [[[[[cx cy] nx] ny] wall] op_wall]. simpl.
  intros [? ?]. split; [by apply list_elem_of_further|done].
Qed.

Lemma prim_iter_ret g st V E :
  prim_inv g st V E → pf_frontier st ≠ [] →
  ∃ st' ev V' E',
    prim_iter R g st = Ret (st', ev)
    ∧ prim_inv g st' V' E'
    ∧ (prim_measure g st' V' < prim_measure g st V)%nat
    ∧ match ev with
      | None => V' = V ∧ E' = E
      | Some (e, m1) =>
          grid_inv g m1 ∧ is_wall e.2 ∧ length E' = S (length E)
      end.
Proof.
  intros [Htree Hfront Hclosed] Hne. unfold prim_iter.
  destruct st as [m frontier rng]. simpl in *.
  assert (Hlen : (0 < length frontier)%nat)
    by (destruct frontier; [done|simpl; lia]).
  destruct (rng_randint R 0 (Z.of_nat (length frontier) - 1) rng)
    as [idx rng'] eqn:Hr.
  pose proof (rng_randint_range R 0 (Z.of_nat (length frontier) - 1) rng)
    as Hrange.
  rewrite Hr in Hrange. simpl in Hrange.
  rewrite py_norm_index_ret by lia. simpl.
  destruct (lookup_lt_is_Some_2 frontier (Z.to_nat idx)) as [e He]; [lia|].
  rewrite He.
  pose proof (Hfront e (list_elem_of_lookup_2 _ _ _ He)) as Hok.
  destruct e as [[[[[cx cy] nx] ny] wall] op_wall]. simpl in Hok.
  destruct Hok as (Hc & dx & dy & Hd & -> & -> & Hal).
  pose proof (ti_grid _ _ _ _ Htree) as Hgrid.
  destruct (in_grid_gcell g m (cx + dx, cy + dy)) as [ct Hct];
    [apply Hgrid|by apply allowed_in_grid|].
  rewrite (cell_at_ret _ _ _ _ Hct). simpl.
  assert (Hdel : length (delete (Z.to_nat idx) frontier)
                 = (length frontier - 1)%nat)
    by (apply length_delete; eauto).
  destruct (Cell.visited ct) eqn:Hv; simpl.
  - (* the target was marked in the meantime: the edge is dropped *)
    eexists _, None, V, E. split; [done|]. split; [|split; [|done]].
    + split; simpl; [done|..].
      * intros e' He'. apply Hfront.
        apply (elem_of_delete_cases _ _ _ e' He). by right.
      * intros v dx' dy' w' o' Hv' Hd' Hal'.
        destruct (Hclosed v dx' dy' w' o' Hv' Hd' Hal') as [?|Hin]; [by left|].
        apply (elem_of_delete_cases _ _ _ _ He) in Hin as [Heq|Hin];
          [|by right].
        left. injection Heq as _ _ -> -> _ _.
        by apply (ti_visited _ _ _ _ Htree _ ct Hct).
    + unfold prim_measure. simpl. lia.
  - (* the target is opened and its neighbours join the frontier *)
    destruct (tree_inv_carve g m V E cx cy dx dy wall op_wall ct)
      as (m1 & m2 & -> & Hm2 & Hgrid1 & Htree2); try done.
    simpl. rewrite Hm2. simpl.
    pose proof (ti_grid _ _ _ _ Htree2) as Hgrid2.
    destruct (add_to_frontier_ret g m2 (delete (Z.to_nat idx) frontier)
                (cx + dx) (cy + dy) (gi_rect _ _ Hgrid2))
      as (fr & -> & Hfrlen & Hfr).
    simpl. eexists _, _, _, _. split; [done|]. split; [|split].
    + split; simpl; [exact Htree2|..].
      * intros e' [He'|He']%Hfr.
        -- apply edge_ok_mono, Hfront.
           apply (elem_of_delete_cases _ _ _ e' He). by right.
        -- destruct He' as (dx' & dy' & w' & o' & c' & -> & Hd' & Hal' & _).
           simpl. split; [apply list_elem_of_here|].
           exists dx', dy'. done.
      * intros v dx' dy' w' o' [->|Hv']%elem_of_cons Hd' Hal'.
        -- simpl in *.
           destruct (in_grid_gcell g m2 (cx + dx + dx', cy + dy + dy'))
             as [c' Hc']; [apply Hgrid2|by apply allowed_in_grid|].
           destruct (Cell.visited c') eqn:Hv''.
           ++ left. by apply (ti_visited _ _ _ _ Htree2 _ c' Hc').
           ++ right. apply Hfr. right. exists dx', dy', w', o', c'. done.
        -- destruct (Hclosed v dx' dy' w' o' Hv' Hd' Hal') as [?|Hin].
           ++ left. by apply list_elem_of_further.
           ++ apply (elem_of_delete_cases _ _ _ _ He) in Hin as [Heq|Hin].
              ** left. injection Heq as _ _ -> -> _ _. apply list_elem_of_here.
              ** right. apply Hfr. by left.
    + pose proof (tree_inv_bound _ _ _ _ Htree2) as Hb. simpl in Hb.
      unfold prim_measure. simpl. lia.
    + simpl. split; [done|]. split; [|done].
      by apply directions_walls in Hd as [? _].
Qed.

Lemma prim_loop_spec fuel g st V E :
  prim_inv g st V E →
  match prim_loop R fuel g st with
  | Ret (evs, final) =>
      ∃ V' E', prim_inv g final V' E' ∧ pf_frontier final = []
        ∧ length E' = (length E + length evs)%nat
        ∧ Forall (fun em : event * grid =>
                    grid_inv g em.2 ∧ is_wall em.1.2) evs
  | Raise _ => False
  | OutOfFuel => (fuel < prim_measure g st V)%nat
  end.
Proof.
  revert st V E. induction fuel as [|fuel IH]; intros st V E Hinv.
  - simpl. destruct (pf_frontier st) eqn:Hs.
    + exists V, E. split; [done|]. split; [done|]. split; [simpl; lia|done].
    + unfold prim_measure. rewrite Hs. simpl. lia.
  - simpl. destruct (pf_frontier st) eqn:Hs.
    + exists V, E. split; [done|]. split; [done|]. split; [simpl; lia|done].
    + destruct (prim_iter_ret g st V E Hinv)
        as (st' & ev & V' & E' & -> & Hinv' & Hm & Hev); [by rewrite Hs|].
      simpl. specialize (IH st' V' E' Hinv').
      destruct (prim_loop R fuel g st') as [[evs final]| |]; simpl.
      * destruct IH as (V'' & E'' & Hfin & Hempty & Hlen & Hall).
        exists V'', E''. split; [done|]. split; [done|].
        destruct ev as [[e m1]|]; simpl.
        -- destruct Hev as (Hg1 & Hw & HlenE). split; [lia|].
           apply Forall_cons. done.
        -- destruct Hev as [-> ->]. done.
      * done.
      * lia.
Qed.

End prim_proofs.

(** ** Complete carving runs *)

(** No carvable neighbour of a cell of [V] lies outside [V]. *)
Definition closed_under (g : MazeGenerator) (V : list coord) : Prop :=
  ∀ v dx dy wall op_wall,
    v ∈ V → (dx, dy, wall, op_wall) ∈ DIRECTIONS →
    allowed g (v.1 + dx, v.2 + dy) → (v.1 + dx, v.2 + dy) ∈ V.

(** What a complete run leaves: the opening event on the fresh grid, then
    one event per wall removal, each on a well-formed grid; the carved grid
    [m] is a tree on a closed set of marked cells with as many edges as
    there were removals; the object holds [m], braided if the maze is not
    to be perfect. *)
Definition carve_outcome (g : MazeGenerator) (evs : list (event * grid))
  (g' : MazeGenerator) : Prop :=
  ∃ rest m V E m',
    evs = ((entry g, -1), _generate_grid g) :: rest
    ∧ Forall (fun em : event * grid => grid_inv g em.2 ∧ is_wall em.1.2) rest
    ∧ tree_inv g m V E ∧ closed_under g V ∧ length E = length rest
    ∧ g' = set_maze g m' ∧ grid_inv g m'
    ∧ (perfect g = true → m' = m).

Lemma grid_inv_set_maze g m0 m : grid_inv (set_maze g m0) m ↔ grid_inv g m.
Proof. split; intros [? ? ? ?]; split; done. Qed.

Section run_proofs.
Context (R : RandomSource).

Lemma carve_finish g m V E rest :
  tree_inv g m V E → closed_under g V → length E = length rest →
  Forall (fun em : event * grid => grid_inv g em.2 ∧ is_wall em.1.2) rest →
  ∃ g', (if perfect g then Ret (set_maze g m)
         else braid_dead_ends R (set_maze g m)) = Ret g'
      ∧ carve_outcome g (((entry g, -1), _generate_grid g) :: rest) g'.
Proof.
  intros Htree Hclosed Hlen Hall.
  pose proof (ti_grid _ _ _ _ Htree) as Hgrid.
  destruct (perfect g) eqn:Hp.
  - eexists. split; [done|].
    exists rest, m, V, E, m. rewrite Hp. done.
  - destruct (braid_dead_ends_inv R (set_maze g m)) as (m' & Hb & Hm');
      [by apply grid_inv_set_maze|].
    eexists. split; [exact Hb|].
    pose proof (proj1 (grid_inv_set_maze g m m') Hm') as Hm''.
    exists rest, m, V, E, m'. rewrite Hp.
    do 7 (split; [done|]). intros [=].
Qed.

Lemma dfs_steps_spec fuel g :
  cfg_ok g →
  match dfs_steps R fuel g with
  | Ret (evs, g') => carve_outcome g evs g'
  | Raise _ => False
  | OutOfFuel => (fuel < dfs_fuel g)%nat
  end.
Proof.
  intros Hcfg. unfold dfs_steps.
  destruct (tree_inv_start g (cfg_entry g Hcfg)) as (m1 & Hm1 & Htree).
  destruct (entry g) as [ex ey] eqn:He. simpl in Hm1. rewrite Hm1. simpl.
  set (st0 := {| df_maze := m1; df_stack := [(ex, ey)];
                 df_rng := rng_seed R (seed g) |}).
  assert (Hinv : dfs_inv R g st0 [(ex, ey)] []).
  { split; simpl; [done|done|].
    intros v dx dy wall op_wall Hv Hnot. done. }
  pose proof (dfs_loop_spec R fuel g st0 _ _ Hinv) as Hloop.
  destruct (dfs_loop R fuel g st0) as [[evs final]| |]; simpl; [|done|].
  - destruct Hloop as (V' & E' & [Htree' Hstack Hclosed] & Hempty & Hlen & Hall).
    destruct (carve_finish g (df_maze final) V' E' evs) as (g' & -> & Hout);
      try done.
    + intros v dx dy wall op_wall Hv. apply Hclosed; [done|].
      rewrite Hempty. apply not_elem_of_nil.
    + simpl. by rewrite <- He.
  - pose proof (carvable_cells_length g Hcfg).
    unfold dfs_measure in Hloop. unfold dfs_fuel. simpl in Hloop. lia.
Qed.

Lemma prim_steps_spec fuel g :
  cfg_ok g →
  match prim_steps R fuel g with
  | Ret (evs, g') => carve_outcome g evs g'
  | Raise _ => False
  | OutOfFuel => (fuel < prim_fuel g)%nat
  end.
Proof.
  intros Hcfg. unfold prim_steps.
  destruct (tree_inv_start g (cfg_entry g Hcfg)) as (m1 & Hm1 & Htree).
  destruct (entry g) as [ex ey] eqn:He. simpl in Hm1. rewrite Hm1. simpl.
  pose proof (ti_grid _ _ _ _ Htree) as Hgrid.
  destruct (add_to_frontier_ret g m1 [] ex ey (gi_rect _ _ Hgrid))
    as (fr & -> & Hfrlen & Hfr). simpl.
  set (st0 := {| pf_maze := m1; pf_frontier := fr;
                 pf_rng := rng_seed R (seed g) |}).
  assert (Hinv : prim_inv R g st0 [(ex, ey)] []).
  { split; simpl; [done|..].
    - intros e [He'|He']%Hfr; [by apply elem_of_nil in He'|].
      destruct He' as (dx & dy & w & o & c & -> & Hd & Hal & _).
      simpl. split; [apply list_elem_of_here|]. exists dx, dy. done.
    - intros v dx dy wall op_wall ->%list_elem_of_singleton Hd Hal. simpl in *.
      destruct (in_grid_gcell g m1 (ex + dx, ey + dy)) as [c Hc];
        [apply Hgrid|by apply allowed_in_grid|].
      destruct (Cell.visited c) eqn:Hv.
      + left. by apply (ti_visited _ _ _ _ Htree _ c Hc).
      + right. apply Hfr. right. exists dx, dy, wall, op_wall, c. done. }
  pose proof (prim_loop_spec R fuel g st0 _ _ Hinv) as Hloop.
  destruct (prim_loop R fuel g st0) as [[evs final]| |]; simpl; [|done|].
  - destruct Hloop as (V' & E' & [Htree' Hfront Hclosed] & Hempty & Hlen & Hall).
    destruct (carve_finish g (pf_maze final) V' E' evs) as (g' & -> & Hout);
      try done.
    + intros v dx dy wall op_wall Hv Hd Hal.
      destruct (Hclosed v dx dy wall op_wall Hv Hd Hal) as [?|Hin]; [done|].
      rewrite Hempty in Hin. by apply elem_of_nil in Hin.
    + simpl. by rewrite <- He.
  - pose proof (carvable_cells_length g Hcfg).
    unfold prim_measure in Hloop. unfold prim_fuel. simpl in Hloop, Hfrlen. lia.
Qed.

(** The convenience wrappers return. *)
Lemma dfs_returns g :
  cfg_ok g → ∃ evs g', dfs_steps R (dfs_fuel g) g = Ret (evs, g')
                       ∧ dfs R g = Ret g' ∧ carve_outcome g evs g'.
Proof.
  intros Hcfg. pose proof (dfs_steps_spec (dfs_fuel g) g Hcfg) as H.
  unfold dfs. destruct (dfs_steps R (dfs_fuel g) g) as [[evs g']| |];
    [|done|lia].
  exists evs, g'. done.
Qed.

Lemma prim_returns g :
  cfg_ok g → ∃ evs g', prim_steps R (prim_fuel g) g = Ret (evs, g')
                       ∧ prim R g = Ret g' ∧ carve_outcome g evs g'.
Proof.
  intros Hcfg. pose proof (prim_steps_spec (prim_fuel g) g Hcfg) as H.
  unfold prim. destruct (prim_steps R (prim_fuel g) g) as [[evs g']| |];
    [|done|lia].
  exists evs, g'. done.
Qed.

End run_proofs.

(** ** Every carvable cell is joined to every other *)

(** [b] belongs to every closed set of cells that [a] belongs to, and
    conversely. *)
Definition linked (g : MazeGenerator) (a b : coord) : Prop :=
  ∀ V, closed_under g V → (a ∈ V ↔ b ∈ V).

Lemma linked_refl g a : linked g a a.
Proof. intros V _. done. Qed.

Lemma linked_trans g a b c : linked g a b → linked g b c → linked g a c.
Proof. intros Hab Hbc V HV. rewrite (Hab V HV). by apply Hbc. Qed.

Lemma linked_step g a b dx dy wall op_wall :
  allowed g a → allowed g b →
  (dx, dy, wall, op_wall) ∈ DIRECTIONS → b = (a.1 + dx, a.2 + dy) →
  linked g a b.
Proof.
  intros Ha Hb Hd -> V HV. split.
  - intros Hin. by apply (HV a dx dy wall op_wall).
  - intros Hin. pose proof (directions_reverse _ _ _ _ Hd) as Hr.
    pose proof (HV _ _ _ _ _ Hin Hr) as H. simpl in H.
    replace (a.1 + dx + - dx, a.2 + dy + - dy) with a in H
      by (destruct a; simpl; f_equal; lia).
    by apply H.
Qed.

Section connectivity.
Context (g : MazeGenerator) (Hcfg : cfg_ok g).

Let px : Z := (pattern_anchor (width g) (height g)).1.
Let py : Z := (pattern_anchor (width g) (height g)).2.

Lemma anchor_bounds :
  1 ≤ px ∧ px + 7 < width g ∧ 2 ≤ py ∧ py + 5 < height g.
Proof.
  apply pattern_anchor_bounds; [apply (cfg_width g Hcfg)|apply (cfg_height g Hcfg)].
Qed.

Lemma pattern_is : pattern_42 g = pattern_cells px py.
Proof. apply (cfg_pattern g Hcfg). Qed.

(** Outside the box of the pattern every cell of the grid is carvable. *)
Lemma allowed_out x y :
  0 ≤ x < width g → 0 ≤ y < height g →
  x < px ∨ px + 6 < x ∨ y < py ∨ py + 4 < y →
  allowed g (x, y).
Proof.
  intros Hx Hy Hout. apply allowed_spec. split; [done|].
  rewrite pattern_is. intros Hin%pattern_cells_box. simpl in Hin. lia.
Qed.

Lemma step_east x y :
  allowed g (x, y) → allowed g (x + 1, y) →
  linked g (0, 0) (x, y) → linked g (0, 0) (x + 1, y).
Proof.
  intros Ha Hb Hl. eapply linked_trans; [exact Hl|].
  apply (linked_step g (x, y) (x + 1, y) 1 0 Cell.EAST Cell.WEST); try done.
  - unfold DIRECTIONS. rewrite !elem_of_cons. tauto.
  - simpl. f_equal. lia.
Qed.

Lemma step_west x y :
  allowed g (x, y) → allowed g (x - 1, y) →
  linked g (0, 0) (x, y) → linked g (0, 0) (x - 1, y).
Proof.
  intros Ha Hb Hl. eapply linked_trans; [exact Hl|].
  apply (linked_step g (x, y) (x - 1, y) (-1) 0 Cell.WEST Cell.EAST); try done.
  - unfold DIRECTIONS. rewrite !elem_of_cons. tauto.
  - simpl. f_equal. lia.
Qed.

Lemma step_south x y :
  allowed g (x, y) → allowed g (x, y + 1) →
  linked g (0, 0) (x, y) → linked g (0, 0) (x, y + 1).
Proof.
  intros Ha Hb Hl. eapply linked_trans; [exact Hl|].
  apply (linked_step g (x, y) (x, y + 1) 0 1 Cell.SOUTH Cell.NORTH); try done.
  - unfold DIRECTIONS. rewrite !elem_of_cons. tauto.
  - simpl. f_equal. lia.
Qed.

(** Along the top row. *)
Lemma linked_row0 x : 0 ≤ x → x < width g → linked g (0, 0) (x, 0).
Proof.
  pose proof anchor_bounds as Hb.
  intros Hx. revert x Hx. apply (natlike_ind (fun x => x < width g → _)).
  - intros _. apply linked_refl.
  - intros x Hx IH Hlt. apply step_east; [| |apply IH; lia];
      apply allowed_out; lia.
Qed.

(** Down a column, as far as it is free. *)
Lemma linked_column x y :
  0 ≤ x < width g → 0 ≤ y →
  (∀ y', 0 ≤ y' ≤ y → allowed g (x, y')) →
  linked g (0, 0) (x, y).
Proof.
  intros Hx Hy. revert y Hy. apply (natlike_ind (fun y => _ → _)).
  - intros _. apply linked_row0; lia.
  - intros y Hy IH Hfree. apply step_south.
    + apply Hfree. lia.
    + apply Hfree. lia.
    + apply IH. intros y' Hy'. apply Hfree. lia.
Qed.

(** Along a row below the box. *)
Lemma linked_row_below x y :
  0 ≤ x → x < width g → py + 4 < y < height g → linked g (0, 0) (x, y).
Proof.
  pose proof anchor_bounds as Hb.
  intros Hx. revert x Hx. apply (natlike_ind (fun x => x < width g → _ → _)).
  - intros _ Hy. apply linked_column; [lia..|].
    intros y' Hy'. apply allowed_out; lia.
  - intros x Hx IH Hlt Hy. apply step_east; [| |apply IH; lia];
      apply allowed_out; lia.
Qed.

Lemma linked_outside x y :
  0 ≤ x < width g → 0 ≤ y < height g →
  x < px ∨ px + 6 < x ∨ y < py ∨ py + 4 < y →
  linked g (0, 0) (x, y).
Proof.
  pose proof anchor_bounds as Hb. intros Hx Hy Hout.
  destruct (decide (py + 4 < y)) as [Hbelow|Hnb].
  - apply linked_row_below; lia.
  - apply linked_column; [lia..|].
    intros y' Hy'. apply allowed_out; lia.
Qed.

Ltac in_box :=
  apply allowed_spec; split;
  [ pose proof anchor_bounds; unfold in_grid; simpl; lia
  | rewrite pattern_is; unfold pattern_cells;
    rewrite !elem_of_cons, elem_of_nil;
    let H := fresh in intros H; destruct_or!; simplify_eq; lia ].

Ltac outside :=
  apply linked_outside; pose proof anchor_bounds; lia.

(** The free cells inside the box, each reached from a neighbour. *)
Lemma linked_box :
  linked g (0, 0) (px + 1, py + 0) ∧ linked g (0, 0) (px + 2, py + 0)
  ∧ linked g (0, 0) (px + 3, py + 0) ∧ linked g (0, 0) (px + 1, py + 1)
  ∧ linked g (0, 0) (px + 2, py + 1) ∧ linked g (0, 0) (px + 3, py + 1)
  ∧ linked g (0, 0) (px + 4, py + 1) ∧ linked g (0, 0) (px + 5, py + 1)
  ∧ linked g (0, 0) (px + 3, py + 2) ∧ linked g (0, 0) (px + 3, py + 3)
  ∧ linked g (0, 0) (px + 3, py + 4) ∧ linked g (0, 0) (px + 0, py + 3)
  ∧ linked g (0, 0) (px + 0, py + 4) ∧ linked g (0, 0) (px + 1, py + 3)
  ∧ linked g (0, 0) (px + 1, py + 4) ∧ linked g (0, 0) (px + 6, py + 3)
  ∧ linked g (0, 0) (px + 5, py + 3).
Proof.
  pose proof anchor_bounds as Hb.
  assert (H10 : linked g (0, 0) (px + 1, py + 0)).
  { replace (py + 0) with (py - 1 + 1) by lia.
    apply step_south; [apply allowed_out; lia| |outside].
    replace (py - 1 + 1) with (py + 0) by lia. in_box. }
  assert (H20 : linked g (0, 0) (px + 2, py + 0)).
  { replace (py + 0) with (py - 1 + 1) by lia.
    apply step_south; [apply allowed_out; lia| |outside].
    replace (py - 1 + 1) with (py + 0) by lia. in_box. }
  assert (H30 : linked g (0, 0) (px + 3, py + 0)).
  { replace (py + 0) with (py - 1 + 1) by lia.
    apply step_south; [apply allowed_out; lia| |outside].
    replace (py - 1 + 1) with (py + 0) by lia. in_box. }
  assert (H11 : linked g (0, 0) (px + 1, py + 1)).
  { replace (py + 1) with (py + 0 + 1) by lia.
    apply step_south; [in_box| |done].
    replace (py + 0 + 1) with (py + 1) by lia. in_box. }
  assert (H21 : linked g (0, 0) (px + 2, py + 1)).
  { replace (py + 1) with (py + 0 + 1) by lia.
    apply step_south; [in_box| |done].
    replace (py + 0 + 1) with (py + 1) by lia. in_box. }
  assert (H31 : linked g (0, 0) (px + 3, py + 1)).
  { replace (py + 1) with (py + 0 + 1) by lia.
    apply step_south; [in_box| |done].
    replace (py + 0 + 1) with (py + 1) by lia. in_box. }
  assert (H41 : linked g (0, 0) (px + 4, py + 1)).
  { replace (px + 4) with (px + 3 + 1) by lia.
    apply step_east; [in_box| |done].
    replace (px + 3 + 1) with (px + 4) by lia. in_box. }
  assert (H51 : linked g (0, 0) (px + 5, py + 1)).
  { replace (px + 5) with (px + 4 + 1) by lia.
    apply step_east; [in_box| |done].
    replace (px + 4 + 1) with (px + 5) by lia. in_box. }
  assert (H32 : linked g (0, 0) (px + 3, py + 2)).
  { replace (py + 2) with (py + 1 + 1) by lia.
    apply step_south; [in_box| |done].
    replace (py + 1 + 1) with (py + 2) by lia. in_box. }
  assert (H33 : linked g (0, 0) (px + 3, py + 3)).
  { replace (py + 3) with (py + 2 + 1) by lia.
    apply step_south; [in_box| |done].
    replace (py + 2 + 1) with (py + 3) by lia. in_box. }
  assert (H34 : linked g (0, 0) (px + 3, py + 4)).
  { replace (py + 4) with (py + 3 + 1) by lia.
    apply step_south; [in_box| |done].
    replace (py + 3 + 1) with (py + 4) by lia. in_box. }
  assert (H03 : linked g (0, 0) (px + 0, py + 3)).
  { replace (px + 0) with (px - 1 + 1) by lia.
    apply step_east; [apply allowed_out; lia| |outside].
    replace (px - 1 + 1) with (px + 0) by lia. in_box. }
  assert (H04 : linked g (0, 0) (px + 0, py + 4)).
  { replace (px + 0) with (px - 1 + 1) by lia.
    apply step_east; [apply allowed_out; lia| |outside].
    replace (px - 1 + 1) with (px + 0) by lia. in_box. }
  assert (H13 : linked g (0, 0) (px + 1, py + 3)).
  { replace (px + 1) with (px + 0 + 1) by lia.
    apply step_east; [in_box| |done].
    replace (px + 0 + 1) with (px + 1) by lia. in_box. }
  assert (H14 : linked g (0, 0) (px + 1, py + 4)).
  { replace (px + 1) with (px + 0 + 1) by lia.
    apply step_east; [in_box| |done].
    replace (px + 0 + 1) with (px + 1) by lia. in_box. }
  assert (H63 : linked g (0, 0) (px + 6, py + 3)).
  { replace (px + 6) with (px + 7 - 1) by lia.
    apply step_west; [apply allowed_out; lia| |outside].
    replace (px + 7 - 1) with (px + 6) by lia. in_box. }
  assert (H53 : linked g (0, 0) (px + 5, py + 3)).
  { replace (px + 5) with (px + 6 - 1) by lia.
    apply step_west; [in_box| |done].
    replace (px + 6 - 1) with (px + 5) by lia. in_box. }
  do 16 (split; [assumption|]). assumption.
Qed.

(** Every carvable cell is linked to the corner. *)
Lemma linked_all p : allowed g p → linked g (0, 0) p.
Proof.
  pose proof anchor_bounds as Hb. intros Hp. destruct p as [x y].
  pose proof (allowed_in_grid _ _ Hp) as [Hx Hy]. simpl in Hx, Hy.
  destruct (decide (x < px ∨ px + 6 < x ∨ y < py ∨ py + 4 < y)) as [Hout|Hin].
  { by apply linked_outside. }
  destruct linked_box as (H10 & H20 & H30 & H11 & H21 & H31 & H41 & H51 & H32
    & H33 & H34 & H03 & H04 & H13 & H14 & H63 & H53).
  apply allowed_spec in Hp as [_ Hp]. rewrite pattern_is in Hp.
  assert (Hxs : x = px + 0 ∨ x = px + 1 ∨ x = px + 2 ∨ x = px + 3 ∨ x = px + 4
                ∨ x = px + 5 ∨ x = px + 6) by lia.
  assert (Hys : y = py + 0 ∨ y = py + 1 ∨ y = py + 2 ∨ y = py + 3 ∨ y = py + 4)
    by lia.
  destruct_or!; subst x y; first
    [ assumption
    | exfalso; apply Hp; unfold pattern_cells; rewrite !elem_of_cons;
      repeat first [ left; f_equal; lia | right ] ].
Qed.

(** A closed set of cells that holds the entry holds every carvable cell. *)
Lemma closed_covers V p :
  closed_under g V → entry g ∈ V → allowed g p → p ∈ V.
Proof.
  intros HV He Hp.
  apply (linked_all p Hp V HV). by apply (linked_all _ (cfg_entry g Hcfg) V HV).
Qed.

End connectivity.

(** ** A complete perfect carve is a spanning tree *)

Lemma simple_cycle_impl (e1 e2 : coord → coord → Prop) c :
  (∀ a b, e1 a b → e2 a b) → simple_cycle e1 c → simple_cycle e2 c.
Proof.
  intros H (Hlen & Hnd & Hw & a & b & Ha & Hb & Hab).
  split; [done|]. split; [done|]. split; [by eapply is_walk_impl|].
  exists a, b. eauto.
Qed.

(** A tree on a closed set of cells covers the carvable cells. *)
Lemma tree_covers g m V E :
  cfg_ok g → tree_inv g m V E → closed_under g V → V ≡ₚ carvable_cells g.
Proof.
  intros Hcfg Htree Hclosed. apply NoDup_Permutation.
  - eapply grows_NoDup, Htree.
  - apply carvable_cells_NoDup.
  - intros p. rewrite elem_of_carvable_cells. split.
    + apply Htree.
    + apply closed_covers; [done..|]. eapply grows_root_in, Htree.
Qed.

Lemma tree_spanning g m V E :
  cfg_ok g → tree_inv g m V E → closed_under g V →
  spanning_tree g m
  ∧ (length E + 19 = Z.to_nat (width g) * Z.to_nat (height g))%nat.
Proof.
  intros Hcfg Htree Hclosed.
  pose proof (ti_grows _ _ _ _ Htree) as HG. split; [split|].
  - intros p Hp. eapply connected_impl.
    + intros a b Hab. apply (ti_edges _ _ _ _ Htree), Hab.
    + apply (grows_connected _ V); [done|].
      apply (closed_covers g Hcfg); [done| |done]. by eapply grows_root_in.
  - intros a b Hab. apply (ti_edges _ _ _ _ Htree) in Hab as [Hab|Hab];
      apply (grows_edges_in _ _ _ _ _ HG) in Hab as [? ?];
      split; by apply (ti_allowed _ _ _ _ Htree).
  - intros c Hc. apply (grows_acyclic _ _ _ c HG).
    eapply simple_cycle_impl; [|exact Hc].
    intros a b Hab. by apply (ti_edges _ _ _ _ Htree).
  - pose proof (Permutation_length (tree_covers g m V E Hcfg Htree Hclosed)) as Hl.
    pose proof (grows_length _ _ _ HG). pose proof (carvable_cells_length g Hcfg).
    lia.
Qed.

Lemma removals_run p m0 (rest : list (event * grid)) :
  Forall (fun em : event * grid => is_wall em.1.2) rest →
  removals (((p, -1), m0) :: rest) = rest.
Proof.
  intros Hall. unfold removals. rewrite filter_cons_False by (simpl; tauto).
  induction Hall as [|em rest Hw _ IH]; [done|].
  rewrite filter_cons_True, IH; [done|].
  unfold is_wall, Cell.NORTH, Cell.EAST, Cell.SOUTH, Cell.WEST in Hw. lia.
Qed.

(** What a complete run in perfect mode leaves. *)
Lemma carve_outcome_perfect g evs g' :
  cfg_ok g → perfect g = true → carve_outcome g evs g' →
  Z.of_nat (length (removals evs)) = width g * height g - 19
  ∧ spanning_tree g (maze g').
Proof.
  intros Hcfg Hp (rest & m & V & E & m' & -> & Hall & Htree & Hclosed & Hlen
                  & -> & _ & Hm').
  rewrite (Hm' Hp). simpl.
  destruct (tree_spanning g m V E Hcfg Htree Hclosed) as [Hst Hcount].
  rewrite removals_run by (eapply Forall_impl; [exact Hall|]; by intros ? [_ ?]).
  split; [|done].
  pose proof (cfg_width g Hcfg). pose proof (cfg_height g Hcfg).
  rewrite <- Hlen. nia.
Qed.

(** ** Every reachable object is well formed *)

Lemma cfg_ok_fields g g' :
  width g' = width g → height g' = height g → entry g' = entry g →
  maze_exit g' = maze_exit g → pattern_42 g' = pattern_42 g →
  cfg_ok g → cfg_ok g'.
Proof.
  intros Hw Hh He Hx Hp [? ? ? ? ? ?].
  split; rewrite ?Hw, ?Hh, ?He, ?Hx, ?Hp; try done;
    unfold allowed, _in_maze_bounds, _is_not_42_pattern in *;
    rewrite ?Hw, ?Hh, ?He, ?Hx, ?Hp; done.
Qed.

Lemma grid_inv_fields g g' m :
  width g' = width g → height g' = height g → pattern_42 g' = pattern_42 g →
  grid_inv g m → grid_inv g' m.
Proof.
  intros Hw Hh Hp [[? ?] ? ? ?]. split; try done.
  - split; by rewrite ?Hw, ?Hh.
  - unfold pattern_intact. by rewrite Hp.
Qed.

Lemma gen_inv_fields g g' :
  width g' = width g → height g' = height g → entry g' = entry g →
  maze_exit g' = maze_exit g → pattern_42 g' = pattern_42 g →
  maze g' = maze g →
  gen_inv g → gen_inv g'.
Proof.
  intros Hw Hh He Hx Hp Hm [Hcfg Hmaze]. split.
  - by apply (cfg_ok_fields g g').
  - rewrite Hm. destruct Hmaze as [?|?]; [by left|right].
    by apply (grid_inv_fields g g').
Qed.

Lemma gen_inv_set_maze g m :
  cfg_ok g → m = [] ∨ grid_inv g m → gen_inv (set_maze g m).
Proof.
  intros Hcfg Hm. split.
  - by apply (cfg_ok_fields g).
  - simpl. destruct Hm as [?|?]; [by left|right].
    by apply grid_inv_set_maze.
Qed.

(** The path search changes nothing but the stored path. *)
Lemma find_shortest_path_steps_frame fuel g ys g' :
  find_shortest_path_steps fuel g = Ret (ys, g') →
  g' = g ∨ ∃ p, g' = set_path g p.
Proof.
  unfold find_shortest_path_steps. destruct (maze g); [by intros [= _ <-]; left|].
  intros H. apply bind_ret_inv in H as ([ys' r] & _ & H).
  injection H as _ <-. destruct r; eauto.
Qed.

(** What a call of [write_output] that returns has done. *)
Lemma write_output_ret can_open g text g' :
  write_output can_open g = Ret (text, g') →
  text = export_text g ∧ g' = set_maze g []
  ∧ has_nul (output_file g) = false ∧ can_open (output_file g) = true.
Proof.
  unfold write_output. destruct (has_nul _); [done|].
  destruct (can_open _); [|done]. by intros [= <- <-].
Qed.

Lemma cell_at_empty x y : cell_at [] x y = Raise IndexError.
Proof.
  unfold cell_at, py_index, py_norm_index. cbn.
  change (Z.of_nat 0) with 0.
  destruct (y <? 0) eqn:E.
  - rewrite Z.add_0_r, E. replace (0 <=? y) with false; [done|].
    symmetry. apply Z.leb_gt. by apply Z.ltb_lt.
  - rewrite E, andb_false_r. done.
Qed.

Section reachable_proofs.
Context (R : RandomSource).

(** On an object with no grid the passes of the braiding loop either
    raise or leave no grid. *)
Lemma braid_passes_empty g cells rng m rng' :
  for_each (braid_cell R g) cells ([], rng) = Ret (m, rng') → m = [].
Proof.
  revert rng. induction cells as [|[x y] cells IH]; intros rng; simpl.
  - by intros [= <- _].
  - unfold braid_cell at 1.
    destruct (_is_not_42_pattern g x y); simpl; [|apply IH].
    by rewrite cell_at_empty.
Qed.

Lemma carve_outcome_gen_inv g evs g' :
  cfg_ok g → carve_outcome g evs g' →
  gen_inv g' ∧ ∀ ev m, (ev, m) ∈ evs → grid_inv g m.
Proof.
  intros Hcfg (rest & m & V & E & m' & -> & Hall & _ & _ & _ & -> & Hm' & _).
  split; [apply gen_inv_set_maze; auto|].
  intros ev m0 [Heq|Hin]%elem_of_cons.
  - injection Heq as _ ->. apply fresh_grid_inv.
  - rewrite Forall_forall in Hall. by destruct (Hall _ Hin).
Qed.

Theorem reachable_gen_inv g : reachable R g → gen_inv g.
Proof.
  induction 1 as
    [ds w h e x o p s g Hinit
    |g fuel evs g' _ IH Hrun
    |g fuel evs g' ev m _ IH Hrun Hin
    |g fuel evs g' _ IH Hrun
    |g fuel evs g' ev m _ IH Hrun Hin
    |g g' _ IH Hrun
    |g k m rng _ IH Hrun
    |g fuel ys g' _ IH Hrun
    |g can_open text g' _ IH Hrun
    |g s _ IH
    |g b _ IH].
  - apply init_ret in Hinit as (Hcfg & Hm & _). split; [done|by left].
  - destruct IH as [Hcfg _].
    pose proof (dfs_steps_spec R fuel g Hcfg) as Hs. rewrite Hrun in Hs.
    by apply carve_outcome_gen_inv in Hs as [? _].
  - destruct IH as [Hcfg _].
    pose proof (dfs_steps_spec R fuel g Hcfg) as Hs. rewrite Hrun in Hs.
    apply carve_outcome_gen_inv in Hs as [_ Hs]; [|done].
    apply gen_inv_set_maze; eauto.
  - destruct IH as [Hcfg _].
    pose proof (prim_steps_spec R fuel g Hcfg) as Hs. rewrite Hrun in Hs.
    by apply carve_outcome_gen_inv in Hs as [? _].
  - destruct IH as [Hcfg _].
    pose proof (prim_steps_spec R fuel g Hcfg) as Hs. rewrite Hrun in Hs.
    apply carve_outcome_gen_inv in Hs as [_ Hs]; [|done].
    apply gen_inv_set_maze; eauto.
  - destruct IH as [Hcfg [Hm|Hm]].
    + unfold braid_dead_ends in Hrun. rewrite Hm in Hrun.
      apply bind_ret_inv in Hrun as ([m rng] & Hrun & [= <-]).
      apply braid_passes_empty in Hrun as ->.
      apply gen_inv_set_maze; auto.
    + destruct (braid_dead_ends_inv R g Hm) as (m' & Hb & Hm').
      rewrite Hb in Hrun. injection Hrun as <-.
      apply gen_inv_set_maze; auto.
  - destruct IH as [Hcfg [Hm|Hm]].
    + rewrite Hm in Hrun. apply braid_passes_empty in Hrun as ->.
      apply gen_inv_set_maze; auto.
    + destruct (braid_passes_inv R g (take k (braid_cells g)) (maze g)
                  (rng_seed R (seed g))) as (st' & Hb & Hst'); [|done|].
      { intros p Hp. eapply elem_of_sublist; [exact Hp|apply sublist_take]. }
      rewrite Hb in Hrun. injection Hrun as ->. simpl in Hst'.
      apply gen_inv_set_maze; auto.
  - apply find_shortest_path_steps_frame in Hrun as [->|[p ->]]; [done|].
    by apply (gen_inv_fields g).
  - apply write_output_ret in Hrun as (_ & -> & _). destruct IH as [Hcfg _].
    apply gen_inv_set_maze; auto.
  - by apply (gen_inv_fields g).
  - by apply (gen_inv_fields g).
Qed.

End reachable_proofs.

(** ** The hex text of a grid and its reading *)

(** The hex digit of a 4-bit wall state. *)
Definition hex_char (w : Z) : ascii :=
  nth (Z.to_nat w) (list_ascii_of_string "0123456789ABCDEF") "0"%char.

Lemma to_hex_single c :
  0 ≤ Cell._walls c ≤ 15 →
  Cell.to_hex c = String (hex_char (Cell._walls c)) EmptyString
  ∧ hex_value (hex_char (Cell._walls c)) = Some (Cell._walls c)
  ∧ hex_char (Cell._walls c) ≠ "010"%char.
Proof.
  destruct c as [ws v]. simpl. intros Hc.
  assert (Hws : ws = 0 ∨ ws = 1 ∨ ws = 2 ∨ ws = 3 ∨ ws = 4 ∨ ws = 5 ∨ ws = 6
                ∨ ws = 7 ∨ ws = 8 ∨ ws = 9 ∨ ws = 10 ∨ ws = 11 ∨ ws = 12
                ∨ ws = 13 ∨ ws = 14 ∨ ws = 15) by lia.
  destruct_or!; subst; vm_compute; (split; [done|split; done]).
Qed.

Definition no_newline (s : string) : Prop :=
  Forall (fun a => a ≠ "010"%char) (list_ascii_of_string s).

Lemma str_join_empty_cons s l : str_join "" (s :: l) = s +:+ str_join "" l.
Proof.
  destruct l as [|s' l]; simpl; [|done].
  induction s as [|a s IH]; [done|].
  change (String a s +:+ "") with (String a (s +:+ "")). by f_equal.
Qed.

Lemma list_ascii_app s t :
  list_ascii_of_string (s +:+ t)
  = list_ascii_of_string s ++ list_ascii_of_string t.
Proof.
  induction s as [|a s IH]; [done|].
  change (String a s +:+ t) with (String a (s +:+ t)). simpl. by rewrite IH.
Qed.

(** The text of a row: one digit per cell. *)
Lemma row_text row :
  Forall (fun c => 0 ≤ Cell._walls c ≤ 15) row →
  list_ascii_of_string (str_join "" (map Cell.to_hex row))
  = map (fun c => hex_char (Cell._walls c)) row.
Proof.
  induction 1 as [|c row Hc _ IH]; [done|].
  change (map Cell.to_hex (c :: row)) with (Cell.to_hex c :: map Cell.to_hex row).
  rewrite str_join_empty_cons, list_ascii_app, IH.
  destruct (to_hex_single c Hc) as (-> & _). done.
Qed.

Lemma row_decode row :
  Forall (fun c => 0 ≤ Cell._walls c ≤ 15) row →
  decode_line (str_join "" (map Cell.to_hex row)) = Some (map Cell._walls row)
  ∧ no_newline (str_join "" (map Cell.to_hex row)).
Proof.
  intros Hrow. unfold decode_line, no_newline. rewrite (row_text row Hrow).
  clear -Hrow. induction Hrow as [|c row Hc _ [IH1 IH2]]; [done|].
  destruct (to_hex_single c Hc) as (_ & Hv & Hn). split.
  - simpl. rewrite Hv. simpl. simpl in IH1. rewrite IH1. done.
  - simpl. by apply Forall_cons.
Qed.

Lemma split_lines_no_newline s : no_newline s → split_lines s = [s].
Proof.
  unfold no_newline. induction s as [|a s IH]; simpl; [done|].
  intros [Ha Hs]%Forall_cons.
  destruct (Ascii.eqb_spec a "010"%char); [done|]. by rewrite IH.
Qed.

Lemma split_lines_app s t :
  no_newline s → split_lines (s +:+ newline +:+ t) = s :: split_lines t.
Proof.
  unfold no_newline. induction s as [|a s IH]; [done|].
  change (String a s +:+ newline +:+ t) with (String a (s +:+ newline +:+ t)).
  simpl. intros [Ha Hs]%Forall_cons.
  destruct (Ascii.eqb_spec a "010"%char); [done|]. by rewrite IH.
Qed.

Lemma split_lines_join strs :
  strs ≠ [] → Forall no_newline strs → split_lines (str_join newline strs) = strs.
Proof.
  intros Hne Hall. induction Hall as [|s strs Hs Hall IH]; [done|].
  destruct strs as [|s' strs].
  - simpl. by apply split_lines_no_newline.
  - change (str_join newline (s :: s' :: strs))
      with (s +:+ newline +:+ str_join newline (s' :: strs)).
    rewrite split_lines_app by done. by rewrite IH.
Qed.

(** Decoding the text of a grid whose wall states are 4-bit values gives
    the wall states back. *)
Lemma decode_maze_to_str g :
  maze g ≠ [] →
  Forall (Forall (fun c => 0 ≤ Cell._walls c ≤ 15)) (maze g) →
  decode_grid (maze_to_str g) = Some (map (map Cell._walls) (maze g)).
Proof.
  intros Hne Hall. unfold decode_grid, maze_to_str.
  rewrite split_lines_join.
  - clear Hne. induction Hall as [|row rows Hrow _ IH]; [done|].
    simpl. destruct (row_decode row Hrow) as [-> _]. simpl.
    simpl in IH. by rewrite IH.
  - by destruct (maze g).
  - clear Hne. induction Hall as [|row rows Hrow _ IH]; [done|].
    simpl. apply Forall_cons. split; [|done]. by apply row_decode.
Qed.

Lemma walls_in_range_rows m :
  walls_in_range m → Forall (Forall (fun c => 0 ≤ Cell._walls c ≤ 15)) m.
Proof.
  intros Hr. apply Forall_forall. intros row Hrow.
  apply Forall_forall. intros c Hc.
  apply list_elem_of_lookup in Hrow as [y Hy].
  apply list_elem_of_lookup in Hc as [x Hx].
  apply (Hr (Z.of_nat x, Z.of_nat y)).
  rewrite gcell_unfold by lia. rewrite !Nat2Z.id, Hy. done.
Qed.

Lemma gcell_map_walls m x y c :
  gcell m (x, y) = Some c →
  (map (map Cell._walls) m !! Z.to_nat y) ≫= (fun row => row !! Z.to_nat x)
  = Some (Cell._walls c).
Proof.
  intros H. apply gcell_Some_rows in H as (_ & _ & row & Hrow & Hc).
  change (map (map Cell._walls) m) with (map Cell._walls <$> m).
  rewrite list_lookup_fmap, Hrow. simpl.
  change (map Cell._walls row) with (Cell._walls <$> row).
  by rewrite list_lookup_fmap, Hc.
Qed.

(** ** A 9 by 9 example *)

Lemma pattern_in_grid g p : cfg_ok g → p ∈ pattern_42 g → in_grid g p.
Proof.
  intros Hcfg Hp. rewrite (cfg_pattern g Hcfg) in Hp.
  apply pattern_cells_box in Hp.
  pose proof (pattern_anchor_bounds (width g) (height g)
                (cfg_width g Hcfg) (cfg_height g Hcfg)).
  unfold in_grid. lia.
Qed.

(** The object that construction returns for a 9 by 9 grid with entry
    [(0, 0)], exit [(8, 8)], seed 42 and the perfect flag set. *)
Definition g9 : MazeGenerator :=
  {| width := 9; height := 9;
     entry := (0, 0); entry_is_bool := (false, false);
     maze_exit := (8, 8); exit_is_bool := (false, false);
     seed := 42; output_file := "maze.txt"; perfect := true;
     pattern_42 := pattern_cells 1 2; maze := []; path := [] |}.

Lemma g9_init :
  __init__ 0 (PyInt 9) (PyInt 9)
    (PyTuple [PyInt 0; PyInt 0]) (PyTuple [PyInt 8; PyInt 8])
    (PyStr "maze.txt") (PyBool true) (Some (PyInt 42)) = Ret g9.
Proof. reflexivity. Qed.

Lemma g9_reachable R : reachable R g9.
Proof. eapply reach_init. exact g9_init. Qed.

(** Its depth-first run with the example generator. *)
Definition g9_run : list (event * grid) * MazeGenerator :=
  match dfs_steps lcg (dfs_fuel g9) g9 with
  | Ret r => r
  | _ => ([], g9)
  end.

Definition g9_carved : MazeGenerator := g9_run.2.

Lemma g9_run_ret : dfs_steps lcg (dfs_fuel g9) g9 = Ret (g9_run.1, g9_carved).
Proof. vm_compute. reflexivity. Qed.

Lemma g9_carved_reachable : reachable lcg g9_carved.
Proof. eapply reach_dfs; [apply g9_reachable|exact g9_run_ret]. Qed.


Definition g9_braided : MazeGenerator :=
  match braid_dead_ends lcg g9_carved with Ret g => g | _ => g9_carved end.

Lemma g9_braided_reachable : reachable lcg g9_braided.
Proof.
  eapply reach_braid; [apply g9_carved_reachable|].
  vm_compute. reflexivity.
Qed.

(** ** The path search *)

Lemma sp_edge_spec g a b :
  sp_edge g a b = true ↔
  ∃ dx dy wall op_wall,
    (dx, dy, wall, op_wall) ∈ DIRECTIONS ∧ b = (a.1 + dx, a.2 + dy)
    ∧ in_grid g b ∧ lacks (maze g) a wall = true.
Proof.
  unfold sp_edge. rewrite existsb_exists. split.
  - intros ([[[dx dy] wall] op_wall] & Hin & H).
    apply andb_true_iff in H as [H Hl]. apply andb_true_iff in H as [H Hg].
    apply bool_decide_eq_true in H, Hg.
    exists dx, dy, wall, op_wall. by rewrite list_elem_of_In.
  - intros (dx & dy & wall & op_wall & Hin & -> & Hg & Hl).
    exists (dx, dy, wall, op_wall). rewrite <- list_elem_of_In. split; [done|].
    rewrite Hl, !bool_decide_eq_true_2; done.
Qed.

(** *** The queue *)

Lemma item_ltb_cost (a b : pq_item) :
  (item_ltb a b = true → a.1.1 ≤ b.1.1)
  ∧ (item_ltb a b = false → b.1.1 ≤ a.1.1).
Proof.
  destruct a as [[ca xa] pa], b as [[cb xb] pb]. simpl. split.
  - intros [H|H]%orb_true_iff; [apply Z.ltb_lt in H; lia|].
    apply andb_true_iff in H as [H%Z.eqb_eq _]. lia.
  - intros [H _]%orb_false_iff. apply Z.ltb_ge in H. lia.
Qed.

Lemma heappop_None pq : heappop pq = None ↔ pq = [].
Proof.
  destruct pq as [|a rest]; [done|]. simpl.
  destruct (heappop rest) as [[least rest']|]; [|done].
  by destruct (item_ltb least a).
Qed.

(** [heappop] takes an item of least cost out of the queue. *)
Lemma heappop_Some pq it pq' :
  heappop pq = Some (it, pq') →
  pq ≡ₚ it :: pq' ∧ ∀ it', it' ∈ pq → it.1.1 ≤ it'.1.1.
Proof.
  revert it pq'. induction pq as [|a rest IH]; intros it pq'; [done|].
  simpl. destruct (heappop rest) as [[least rest']|] eqn:Hrest.
  - destruct (IH least rest' eq_refl) as [Hperm Hmin].
    destruct (item_ltb least a) eqn:Hlt; intros [= <- <-].
    + split; [by rewrite Hperm, Permutation_swap|].
      intros it' [->|Hin]%elem_of_cons; [|by apply Hmin].
      by apply (proj1 (item_ltb_cost least a)).
    + split; [done|].
      intros it' [->|Hin]%elem_of_cons; [lia|].
      apply (proj2 (item_ltb_cost least a)) in Hlt.
      specialize (Hmin it' Hin). lia.
  - intros [= <- <-]. apply heappop_None in Hrest as ->. split; [done|].
    intros it' ->%list_elem_of_singleton. lia.
Qed.

(** *** Counting the cells without a distance *)

Definition unset_cells (g : MazeGenerator) (distance : gmap coord Z) : nat :=
  length (filter (fun v => distance !! v = None) (all_cells g)).

Lemma unset_filter_insert (distance : gmap coord Z) w c (l : list coord) :
  (length (filter (fun v => <[w := c]> distance !! v = None) l)
   ≤ length (filter (fun v => distance !! v = None) l))%nat
  ∧ (w ∈ l → distance !! w = None →
     (length (filter (fun v => <[w := c]> distance !! v = None) l)
      < length (filter (fun v => distance !! v = None) l))%nat).
Proof.
  induction l as [|v l [IH1 IH2]]; [split; [done|by intros ?%elem_of_nil]|].
  rewrite !filter_cons.
  destruct (decide (v = w)) as [->|Hne].
  - rewrite decide_False by (by rewrite lookup_insert_eq).
    split; [case_decide; simpl; lia|].
    intros _ Hw. rewrite decide_True by done. simpl. lia.
  - rewrite lookup_insert_ne by done. split.
    + case_decide; simpl; lia.
    + intros [?|Hin]%elem_of_cons Hw; [done|].
      specialize (IH2 Hin Hw). case_decide; simpl; lia.
Qed.

Lemma unset_cells_insert (g : MazeGenerator) (distance : gmap coord Z) w c :
  in_grid g w → distance !! w = None →
  (unset_cells g (<[w := c]> distance) < unset_cells g distance)%nat.
Proof.
  intros Hw Hnone. unfold unset_cells.
  apply unset_filter_insert; [|done]. by apply elem_of_all_cells.
Qed.

Lemma walk_from_to_snoc (edge : coord → coord → Prop) a u w p :
  walk_from_to edge a u p → edge u w → walk_from_to edge a w (p ++ [w]).
Proof.
  intros (Hh & Hl & Hw) Huw.
  apply last_Some in Hl as [p' ->].
  split; [|split].
  - destruct p'; simpl in *; done.
  - by rewrite last_snoc.
  - by apply is_walk_snoc.
Qed.

Lemma directions_of_spec cu dx dy hw :
  (dx, dy, hw) ∈ directions_of cu ↔
  ∃ wall op_wall, (dx, dy, wall, op_wall) ∈ DIRECTIONS ∧ hw = Cell.has_wall cu wall.
Proof.
  unfold directions_of, DIRECTIONS, Cell.has_north_wall, Cell.has_east_wall,
    Cell.has_south_wall, Cell.has_west_wall.
  rewrite !elem_of_cons, elem_of_nil. split.
  - intros H. destruct_or!; simplify_eq; try done;
      eexists _, _; (split; [|done]); rewrite !elem_of_cons; tauto.
  - intros (wall & op_wall & H & ->).
    rewrite !elem_of_cons, elem_of_nil in H.
    destruct_or!; simplify_eq; tauto.
Qed.

Arguments relax : simpl never.
Arguments heappop : simpl never.

Section sp_proofs.
Context (g : MazeGenerator).

Definition sp_step (a b : coord) : Prop := sp_edge g a b = true.

(** The invariant of [while pq].  [clb] are the cells taken off the queue
    and expanded, [clc] those whose neighbours have all been relaxed (the
    two lists differ only inside an expansion); [m] is the cost of the
    last item taken off. *)
Record sp_inv (pq : list pq_item) (distance : gmap coord Z)
  (clb clc : list coord) (m : Z) : Prop := {
  si_items : ∀ c v p, (c, v, p) ∈ pq →
    walk_from_to sp_step (entry g) v p ∧ Z.of_nat (length p) = c + 1
    ∧ distance !! v = Some c ∧ in_grid g v;
  si_keys : ∀ v d, distance !! v = Some d →
    in_grid g v ∧ d ≤ m + 1 ∧ (v ∈ clb ∨ ∃ p, (d, v, p) ∈ pq);
  si_closed : ∀ u du w, u ∈ clc → distance !! u = Some du → sp_step u w →
    ∃ dw, distance !! w = Some dw ∧ dw ≤ du + 1;
  si_level : ∀ c v p, (c, v, p) ∈ pq → m ≤ c ≤ m + 1;
  si_closed_level : ∀ u, u ∈ clb → ∃ du, distance !! u = Some du ∧ du ≤ m;
  si_sub : ∀ u, u ∈ clc → u ∈ clb;
  si_exit : maze_exit g ∉ clb
}.

(** A walk that starts at a cell with a distance and ends outside the
    expanded cells passes a cell that is still in the queue, at a cost
    within the length of the walk. *)
Lemma sp_walk_bound pq distance closed m q :
  sp_inv pq distance closed closed m →
  ∀ v0 d0 x,
    is_walk sp_step q → head q = Some v0 → last q = Some x →
    distance !! v0 = Some d0 → x ∉ closed →
    ∃ c v p, (c, v, p) ∈ pq ∧ c ≤ d0 + Z.of_nat (length q) - 1.
Proof.
  intros Hinv. induction q as [|a q IH]; intros v0 d0 x Hw Hh Hl Hd Hx; [done|].
  simpl in Hh. injection Hh as ->.
  destruct (si_keys _ _ _ _ _ Hinv v0 d0 Hd) as (_ & _ & [Hcl|[p Hp]]).
  - destruct q as [|b q].
    + simpl in Hl. injection Hl as ->. done.
    + destruct Hw as [Hab Hw].
      destruct (si_closed _ _ _ _ _ Hinv v0 d0 b Hcl Hd Hab) as (db & Hdb & Hle).
      rewrite last_cons_cons in Hl.
      destruct (IH b db x Hw eq_refl Hl Hdb Hx) as (c & v & p & Hin & Hc).
      exists c, v, p. split; [done|]. simpl length in *. lia.
  - exists d0, v0, p. split; [done|]. simpl length. lia.
Qed.

(** One pass of the loop over the four directions. *)
Lemma relax_inv pq distance closed c u p dx dy hw :
  sp_inv pq distance (u :: closed) closed c →
  distance !! u = Some c →
  walk_from_to sp_step (entry g) u p → Z.of_nat (length p) = c + 1 →
  (hw = false → in_grid g (u.1 + dx, u.2 + dy) →
   sp_step u (u.1 + dx, u.2 + dy)) →
  ∃ pq' distance',
    relax g c u.1 u.2 p (pq, distance) (dx, dy, hw) = (pq', distance')
    ∧ sp_inv pq' distance' (u :: closed) closed c
    ∧ (∀ v d, distance !! v = Some d → distance' !! v = Some d)
    ∧ (length pq' + unset_cells g distance'
       ≤ length pq + unset_cells g distance)%nat
    ∧ (hw = false → in_grid g (u.1 + dx, u.2 + dy) →
       ∃ dw, distance' !! (u.1 + dx, u.2 + dy) = Some dw ∧ dw ≤ c + 1).
Proof.
  intros Hinv Hu Hp Hlen Hedge. unfold relax.
  set (w := (u.1 + dx, u.2 + dy)).
  destruct ((0 <=? u.1 + dx) && (u.1 + dx <? width g) && (0 <=? u.2 + dy)
            && (u.2 + dy <? height g) && negb hw) eqn:Hcond.
  - apply andb_true_iff in Hcond as [Hcond Hhw].
    apply negb_true_iff in Hhw.
    assert (Hw : in_grid g w).
    { unfold in_grid, w. simpl.
      repeat (apply andb_true_iff in Hcond as [Hcond ?]).
      rewrite ?Z.leb_le, ?Z.ltb_lt in *. lia. }
    specialize (Hedge Hhw Hw).
    destruct (distance !! w) as [dw|] eqn:Hdw.
    + destruct (si_keys _ _ _ _ _ Hinv w dw Hdw) as (_ & Hle & _).
      replace (c + 1 <? dw) with false by (symmetry; apply Z.ltb_ge; lia).
      eexists _, _. split; [done|]. split; [done|]. split; [done|].
      split; [done|]. intros _ _. eauto.
    + eexists _, _. split; [done|].
      assert (Hother : ∀ v d, distance !! v = Some d →
                <[w := c + 1]> distance !! v = Some d).
      { intros v d Hv. rewrite lookup_insert_ne; [done|]. congruence. }
      split; [|split; [done|split]].
      * split.
        -- intros c0 v p0 [Heq|Hin]%elem_of_cons.
           ++ injection Heq as -> -> ->.
              split; [by apply (walk_from_to_snoc _ _ u)|].
              split; [rewrite length_app; simpl; lia|].
              split; [by rewrite lookup_insert_eq|done].
           ++ destruct (si_items _ _ _ _ _ Hinv c0 v p0 Hin) as (? & ? & ? & ?).
              split; [done|]. split; [done|]. split; [by apply Hother|done].
        -- intros v d Hv. destruct (decide (v = w)) as [->|Hne].
           ++ rewrite lookup_insert_eq in Hv. injection Hv as <-.
              split; [done|]. split; [lia|]. right. eexists.
              apply list_elem_of_here.
           ++ rewrite lookup_insert_ne in Hv by done.
              destruct (si_keys _ _ _ _ _ Hinv v d Hv) as (? & ? & [?|[p0 ?]]).
              ** split; [done|]. split; [done|]. by left.
              ** split; [done|]. split; [done|]. right. exists p0.
                 by apply list_elem_of_further.
        -- intros u0 du w0 Hu0 Hdu Hstep.
           destruct (si_closed_level _ _ _ _ _ Hinv u0
                       (si_sub _ _ _ _ _ Hinv u0 Hu0)) as (du' & Hdu' & _).
           rewrite (Hother _ _ Hdu') in Hdu. injection Hdu as <-.
           destruct (si_closed _ _ _ _ _ Hinv u0 du' w0 Hu0 Hdu' Hstep)
             as (dw & Hdw' & Hle).
           exists dw. split; [by apply Hother|done].
        -- intros c0 v p0 [Heq|Hin]%elem_of_cons.
           ++ injection Heq as -> _ _. lia.
           ++ by apply (si_level _ _ _ _ _ Hinv c0 v p0).
        -- intros u0 Hu0.
           destruct (si_closed_level _ _ _ _ _ Hinv u0 Hu0) as (du & Hdu & Hle).
           exists du. split; [by apply Hother|done].
        -- apply Hinv.
        -- apply Hinv.
      * pose proof (unset_cells_insert g distance w (c + 1) Hw Hdw).
        unfold heappush. simpl. lia.
      * intros _ _. exists (c + 1). split; [by rewrite lookup_insert_eq|lia].
  - eexists _, _. split; [done|]. split; [done|]. split; [done|].
    split; [done|]. intros Hhw [[Hx1 Hx2] [Hy1 Hy2]]. simpl in *.
    exfalso. rewrite Hhw in Hcond. simpl in Hcond. rewrite andb_true_r in Hcond.
    apply not_true_iff_false in Hcond. apply Hcond.
    repeat (apply andb_true_iff; split);
      rewrite ?Z.leb_le, ?Z.ltb_lt; lia.
Qed.

Lemma relax_fold_inv dirs pq distance closed c u p :
  sp_inv pq distance (u :: closed) closed c →
  distance !! u = Some c →
  walk_from_to sp_step (entry g) u p → Z.of_nat (length p) = c + 1 →
  (∀ dx dy hw, (dx, dy, hw) ∈ dirs → hw = false →
     in_grid g (u.1 + dx, u.2 + dy) → sp_step u (u.1 + dx, u.2 + dy)) →
  ∃ pq' distance',
    fold_left (relax g c u.1 u.2 p) dirs (pq, distance) = (pq', distance')
    ∧ sp_inv pq' distance' (u :: closed) closed c
    ∧ (∀ v d, distance !! v = Some d → distance' !! v = Some d)
    ∧ (length pq' + unset_cells g distance'
       ≤ length pq + unset_cells g distance)%nat
    ∧ (∀ dx dy hw, (dx, dy, hw) ∈ dirs → hw = false →
         in_grid g (u.1 + dx, u.2 + dy) →
         ∃ dw, distance' !! (u.1 + dx, u.2 + dy) = Some dw ∧ dw ≤ c + 1).
Proof.
  revert pq distance.
  induction dirs as [|[[dx dy] hw] dirs IH]; intros pq distance Hinv Hu Hp Hlen Hedge.
  - exists pq, distance. split; [done|]. split; [done|]. split; [done|].
    split; [done|]. intros ? ? ? ?%elem_of_nil. done.
  - destruct (relax_inv pq distance closed c u p dx dy hw Hinv Hu Hp Hlen)
      as (pq1 & d1 & Hr & Hinv1 & Hkeep1 & Hm1 & Hset1).
    { apply Hedge, list_elem_of_here. }
    destruct (IH pq1 d1 Hinv1 (Hkeep1 _ _ Hu) Hp Hlen)
      as (pq2 & d2 & Hf & Hinv2 & Hkeep2 & Hm2 & Hset2).
    { intros dx' dy' hw' Hin. apply Hedge. by apply list_elem_of_further. }
    exists pq2, d2. simpl. rewrite Hr. split; [done|]. split; [done|].
    split; [eauto|]. split; [lia|].
    intros dx' dy' hw' [Heq|Hin]%elem_of_cons Hhw Hg.
    + injection Heq as -> -> ->.
      destruct (Hset1 Hhw Hg) as (dw & Hdw & Hle). exists dw. eauto.
    + by apply (Hset2 dx' dy' hw').
Qed.

Definition sp_measure (pq : list pq_item) (distance : gmap coord Z) : nat :=
  length pq + unset_cells g distance.

(** Taking an item off the queue and relaxing its four neighbours. *)
Lemma sp_expand pq distance closed m c u p pq1 cu :
  sp_inv pq distance closed closed m →
  heappop pq = Some ((c, u, p), pq1) →
  u ≠ maze_exit g →
  gcell (maze g) u = Some cu →
  ∃ pq2 distance2,
    fold_left (relax g c u.1 u.2 p) (directions_of cu) (pq1, distance)
    = (pq2, distance2)
    ∧ sp_inv pq2 distance2 (u :: closed) (u :: closed) c
    ∧ (∀ v d, distance !! v = Some d → distance2 !! v = Some d)
    ∧ (S (sp_measure pq2 distance2) ≤ sp_measure pq distance)%nat.
Proof.
  intros Hinv Hpop Hne Hcu.
  apply heappop_Some in Hpop as [Hperm Hmin].
  assert (Hin : (c, u, p) ∈ pq) by (rewrite Hperm; apply list_elem_of_here).
  destruct (si_items _ _ _ _ _ Hinv c u p Hin) as (Hwalk & Hlen & Hdu & Hug).
  pose proof (si_level _ _ _ _ _ Hinv c u p Hin) as Hlev.
  assert (Hmid : sp_inv pq1 distance (u :: closed) closed c).
  { split.
    - intros c0 v p0 Hin0. apply (si_items _ _ _ _ _ Hinv).
      rewrite Hperm. by apply list_elem_of_further.
    - intros v d Hv.
      destruct (si_keys _ _ _ _ _ Hinv v d Hv) as (? & ? & [?|[p0 Hp0]]).
      + split; [done|]. split; [lia|]. left. by apply list_elem_of_further.
      + split; [done|]. split; [lia|].
        rewrite Hperm in Hp0. apply elem_of_cons in Hp0 as [Heq|Hp0].
        * injection Heq as _ -> _. left. apply list_elem_of_here.
        * right. eauto.
    - apply Hinv.
    - intros c0 v p0 Hin0.
      assert ((c0, v, p0) ∈ pq) as Hin'
        by (rewrite Hperm; by apply list_elem_of_further).
      pose proof (si_level _ _ _ _ _ Hinv c0 v p0 Hin').
      specialize (Hmin _ Hin'). simpl in Hmin. lia.
    - intros u0 [->|Hu0]%elem_of_cons.
      + exists c. split; [done|lia].
      + destruct (si_closed_level _ _ _ _ _ Hinv u0 Hu0) as (du & ? & ?).
        exists du. split; [done|lia].
    - intros u0 Hu0. by apply list_elem_of_further.
    - intros [Heq|Hex]%elem_of_cons; [done|]. by apply (si_exit _ _ _ _ _ Hinv). }
  destruct (relax_fold_inv (directions_of cu) pq1 distance closed c u p
              Hmid Hdu Hwalk Hlen)
    as (pq2 & d2 & Hfold & Hinv2 & Hkeep & Hmeas & Hset).
  { intros dx dy hw Hd Hhw Hg.
    apply directions_of_spec in Hd as (wall & op_wall & Hd & ->).
    apply sp_edge_spec. exists dx, dy, wall, op_wall.
    split; [done|]. split; [done|]. split; [done|].
    unfold lacks. rewrite Hcu. by rewrite Hhw. }
  exists pq2, d2. split; [done|]. split; [|split; [done|]].
  - split; try apply Hinv2.
    + intros u0 du w [->|Hu0]%elem_of_cons Hdu0 Hstep.
      * rewrite (Hkeep _ _ Hdu) in Hdu0. injection Hdu0 as <-.
        apply sp_edge_spec in Hstep
          as (dx & dy & wall & op_wall & Hd & -> & Hg & Hl).
        apply (Hset dx dy (Cell.has_wall cu wall)); [|  |done].
        -- apply directions_of_spec. eauto.
        -- unfold lacks in Hl. rewrite Hcu in Hl. by apply negb_true_iff.
      * by apply (si_closed _ _ _ _ _ Hinv2 u0 du w).
    + done.
  - apply Permutation_length in Hperm. simpl in Hperm.
    unfold sp_measure. lia.
Qed.

(** The loop: it raises nothing; when it stores a path, the path is a walk
    from the entry to the exit and no walk between them is shorter; when it
    stores none, there is no such walk and no path it yielded ends at the
    exit; it runs out of fuel only below the measure. *)
Lemma sp_loop_spec fuel pq distance closed m :
  rect g (maze g) →
  sp_inv pq distance closed closed m →
  distance !! entry g = Some 0 →
  match sp_loop fuel g pq distance with
  | Ret (ys, Some path) =>
      walk_from_to sp_step (entry g) (maze_exit g) path
      ∧ (∀ q, walk_from_to sp_step (entry g) (maze_exit g) q →
           (length path ≤ length q)%nat)
      ∧ ∃ ys', ys = ys' ++ [path]
          ∧ Forall (fun y => last y ≠ Some (maze_exit g)) ys'
  | Ret (ys, None) =>
      (∀ q, ¬ walk_from_to sp_step (entry g) (maze_exit g) q)
      ∧ Forall (fun y => last y ≠ Some (maze_exit g)) ys
  | Raise _ => False
  | OutOfFuel => (fuel < sp_measure pq distance)%nat
  end.
Proof.
  intros Hrect. revert pq distance closed m.
  induction fuel as [|fuel IH]; intros pq distance closed m Hinv Hentry.
  - simpl. destruct (heappop pq) as [[[[c [ux uy]] p] pq1]|] eqn:Hpop.
    + apply heappop_Some in Hpop as [Hperm _].
      apply Permutation_length in Hperm. unfold sp_measure. simpl in Hperm. lia.
    + apply heappop_None in Hpop as ->. split; [|done].
      intros q (Hh & Hl & Hw).
      destruct (sp_walk_bound [] distance closed m q Hinv _ _ _ Hw Hh Hl Hentry)
        as (? & ? & ? & Hin%elem_of_nil & _); [apply Hinv|done].
  - simpl. destruct (heappop pq) as [[[[c [ux uy]] p] pq1]|] eqn:Hpop.
    + pose proof (heappop_Some _ _ _ Hpop) as [Hperm Hmin].
      assert (Hin : (c, (ux, uy), p) ∈ pq)
        by (rewrite Hperm; apply list_elem_of_here).
      destruct (si_items _ _ _ _ _ Hinv _ _ _ Hin) as (Hwalk & Hlen & Hdu & Hug).
      case_bool_decide as Hex.
      * rewrite <- Hex. split; [done|]. split; [|exists []; done].
        intros q (Hh & Hl & Hw).
        destruct (sp_walk_bound pq distance closed m q Hinv _ _ _
                    Hw Hh Hl Hentry) as (c' & v' & p' & Hin' & Hc').
        { rewrite Hex. apply Hinv. }
        specialize (Hmin _ Hin'). simpl in Hmin. lia.
      * rewrite Hdu, Z.ltb_irrefl.
        destruct (in_grid_gcell g (maze g) (ux, uy) Hrect Hug) as [cu Hcu].
        rewrite (cell_at_ret _ _ _ _ Hcu). simpl.
        destruct (sp_expand pq distance closed m c (ux, uy) p pq1 cu
                    Hinv Hpop Hex Hcu)
          as (pq2 & d2 & Hfold & Hinv2 & Hkeep & Hmeas).
        simpl in Hfold. rewrite Hfold.
        specialize (IH pq2 d2 _ _ Hinv2 (Hkeep _ _ Hentry)).
        assert (Hlast : last p ≠ Some (maze_exit g)).
        { destruct Hwalk as (_ & -> & _). congruence. }
        destruct (sp_loop fuel g pq2 d2) as [[ys [path|]]| |]; simpl.
        -- destruct IH as (? & ? & ys' & -> & Hall).
           split; [done|]. split; [done|]. exists (p :: ys').
           split; [done|]. by apply Forall_cons.
        -- destruct IH as [? Hall]. split; [done|]. by apply Forall_cons.
        -- done.
        -- lia.
    + apply heappop_None in Hpop as ->. split; [|done].
      intros q (Hh & Hl & Hw).
      destruct (sp_walk_bound [] distance closed m q Hinv _ _ _ Hw Hh Hl Hentry)
        as (? & ? & ? & Hin%elem_of_nil & _); [apply Hinv|done].
Qed.

(** The state in which the search starts. *)
Lemma sp_inv_start :
  in_grid g (entry g) →
  sp_inv [(0, entry g, [entry g])] {[ entry g := 0 ]} [] [] 0.
Proof.
  intros Hentry. split.
  - intros c v p [= -> -> ->]%list_elem_of_singleton.
    split; [done|]. split; [done|]. split; [by rewrite lookup_singleton_eq|done].
  - intros v d [<- <-]%lookup_singleton_Some.
    split; [done|]. split; [lia|]. right. eexists. apply list_elem_of_here.
  - intros u du w Hu. by apply elem_of_nil in Hu.
  - intros c v p [= -> -> ->]%list_elem_of_singleton. lia.
  - intros u Hu. by apply elem_of_nil in Hu.
  - done.
  - apply not_elem_of_nil.
Qed.

End sp_proofs.

(** *** The search on a well-formed grid *)

(** On a grid with symmetric walls the edges the search follows are the
    passages. *)
Lemma sp_edge_passage g a b :
  grid_inv g (maze g) → sp_edge g a b = passage (maze g) a b.
Proof.
  intros Hgrid. apply eq_true_iff_eq. rewrite sp_edge_spec, passage_spec. split.
  - intros (dx & dy & wall & op_wall & Hd & -> & Hg & Hl).
    exists dx, dy, wall, op_wall. split; [done|]. split; [done|]. split; [done|].
    apply lacks_spec in Hl as (ca & Hca & Hw).
    destruct (in_grid_gcell g (maze g) _ (gi_rect _ _ Hgrid) Hg) as [cb Hcb].
    apply lacks_spec. exists cb. split; [done|].
    by rewrite <- (gi_sym _ _ Hgrid a dx dy wall op_wall ca cb Hd Hca Hcb).
  - intros (dx & dy & wall & op_wall & Hd & -> & Hl & Hl').
    exists dx, dy, wall, op_wall. split; [done|]. split; [done|]. split; [|done].
    apply lacks_spec in Hl' as (cb & Hcb & _).
    by apply (gcell_in_grid g (maze g) _ cb (gi_rect _ _ Hgrid)).
Qed.

Lemma unset_cells_bound (g : MazeGenerator) (distance : gmap coord Z) :
  (unset_cells g distance ≤ Z.to_nat (width g) * Z.to_nat (height g))%nat.
Proof.
  unfold unset_cells.
  pose proof (length_filter (fun v => distance !! v = None) (all_cells g)).
  rewrite all_cells_length in *. lia.
Qed.

(** The outcome of [find_shortest_path_steps] on an object that holds a
    well-formed grid. *)
Lemma find_shortest_path_steps_spec fuel g :
  grid_inv g (maze g) → in_grid g (entry g) → maze g ≠ [] →
  match find_shortest_path_steps fuel g with
  | Ret (ys, g') =>
      (∃ path ys',
         g' = set_path g path ∧ ys = ys' ++ [path]
         ∧ Forall (fun y => last y ≠ Some (maze_exit g)) ys'
         ∧ walk_from_to (fun a b => passage (maze g) a b = true)
             (entry g) (maze_exit g) path
         ∧ ∀ q, walk_from_to (fun a b => passage (maze g) a b = true)
                  (entry g) (maze_exit g) q → (length path ≤ length q)%nat)
      ∨ (g' = g
         ∧ Forall (fun y => last y ≠ Some (maze_exit g)) ys
         ∧ ∀ q, ¬ walk_from_to (fun a b => passage (maze g) a b = true)
                    (entry g) (maze_exit g) q)
  | Raise _ => False
  | OutOfFuel => (fuel < sp_fuel g)%nat
  end.
Proof.
  intros Hgrid Hentry Hne. unfold find_shortest_path_steps.
  destruct (maze g) as [|row rows] eqn:Hm; [done|]. rewrite <- Hm in *.
  pose proof (sp_loop_spec g fuel _ _ [] 0 (gi_rect _ _ Hgrid)
                (sp_inv_start g Hentry) (lookup_singleton_eq _ _)) as Hloop.
  assert (Hsame : ∀ q a b,
            walk_from_to (sp_step g) a b q
            ↔ walk_from_to (fun a b => passage (maze g) a b = true) a b q).
  { intros q a b. unfold walk_from_to.
    split; intros (? & ? & Hw); (split; [done|split; [done|]]);
      (eapply is_walk_impl; [|exact Hw]); intros x y; unfold sp_step;
      by rewrite (sp_edge_passage g x y Hgrid). }
  destruct (sp_loop fuel g _ _) as [[ys [path|]]| |]; simpl.
  - destruct Hloop as (Hw & Hmin & ys' & -> & Hall). left.
    exists path, ys'. split; [done|]. split; [done|]. split; [done|].
    split; [by apply Hsame|]. intros q Hq. by apply Hmin, Hsame.
  - destruct Hloop as [Hno Hall]. right. split; [done|]. split; [done|].
    intros q Hq. by apply (Hno q), Hsame.
  - done.
  - unfold sp_measure in Hloop. simpl in Hloop.
    assert (unset_cells g {[entry g := 0%Z]} < unset_cells g ∅)%nat.
    { rewrite <- insert_empty. apply unset_cells_insert; [done|].
      apply lookup_empty. }
    pose proof (unset_cells_bound g ∅). unfold sp_fuel. lia.
Qed.

(** *** A reference breadth-first search *)

(** The cells one passage away from a cell of [seen]. *)
Definition bfs_layer (g : MazeGenerator) (seen : list coord) : list coord :=
  filter (fun b => existsb (fun a => passage (maze g) a b) seen = true)
         (all_cells g).

(** Breadth-first search by rounds: [seen] holds the cells within [k]
    passages of the entry; the answer is the first round at which the exit
    is among them. *)
Fixpoint bfs_search (g : MazeGenerator) (rounds k : nat) (seen : list coord)
  : option nat :=
  if bool_decide (maze_exit g ∈ seen) then Some k
  else match rounds with
       | O => None
       | S rounds' => bfs_search g rounds' (S k) (seen ++ bfs_layer g seen)
       end.

Definition bfs_distance (g : MazeGenerator) (rounds : nat) : option nat :=
  bfs_search g rounds 0 [entry g].

(** [v] is within [n] passages of the entry. *)
Definition within (g : MazeGenerator) (n : nat) (v : coord) : Prop :=
  ∃ q, walk_from_to (fun a b => passage (maze g) a b = true) (entry g) v q
     ∧ (length q ≤ S n)%nat.

Lemma walk_from_to_unsnoc (edge : coord → coord → Prop) a v q :
  walk_from_to edge a v q → (2 ≤ length q)%nat →
  ∃ q' u, q = q' ++ [v] ∧ walk_from_to edge a u q' ∧ edge u v.
Proof.
  intros (Hh & Hl & Hw) Hlen.
  apply last_Some in Hl as [q' ->].
  destruct (last q') as [u|] eqn:Hu.
  - apply last_Some in Hu as [q'' ->].
    exists (q'' ++ [u]), u. split; [done|]. split.
    + split; [|split].
      * destruct q''; simpl in *; done.
      * by rewrite last_snoc.
      * clear -Hw. induction q'' as [|x q'' IH]; simpl in *; [done|].
        destruct q'' as [|y q'']; simpl in *; [tauto|].
        destruct Hw as [? Hw]. split; [done|]. by apply IH.
    + rewrite <- app_assoc in Hw. simpl in Hw. by eapply is_walk_mid.
  - apply last_None in Hu as ->. simpl in Hlen. lia.
Qed.

Lemma bfs_round g k seen :
  rect g (maze g) →
  (∀ v, v ∈ seen ↔ within g k v) →
  ∀ v, v ∈ seen ++ bfs_layer g seen ↔ within g (S k) v.
Proof.
  intros Hrect Hseen v. rewrite elem_of_app. unfold bfs_layer.
  rewrite list_elem_of_filter, elem_of_all_cells, existsb_exists. split.
  - intros [(q & Hq & Hlen)%Hseen|[(a & Ha & Hav) Hv]].
    + exists q. split; [done|lia].
    + apply list_elem_of_In, Hseen in Ha as (q & Hq & Hlen).
      exists (q ++ [v]). split; [by apply (walk_from_to_snoc _ _ a)|].
      rewrite length_app. simpl. lia.
  - intros (q & Hq & Hlen).
    destruct (decide (length q ≤ S k)%nat) as [Hle|Hgt].
    + left. apply Hseen. by exists q.
    + destruct (walk_from_to_unsnoc _ _ _ _ Hq) as (q' & u & -> & Hq' & Huv);
        [lia|].
      rewrite length_app in Hlen, Hgt. simpl in Hlen, Hgt. right. split.
      * exists u. split; [|done]. apply list_elem_of_In, Hseen.
        exists q'. split; [done|lia].
      * apply passage_spec in Huv as (dx & dy & w & o & _ & _ & _ & Hl).
        apply lacks_spec in Hl as (c & Hc & _).
        by apply (gcell_in_grid g (maze g) v c).
Qed.

Lemma bfs_search_spec g rounds k seen L :
  rect g (maze g) →
  (∀ v, v ∈ seen ↔ within g k v) →
  within g L (maze_exit g) → (∀ j, (j < L)%nat → ¬ within g j (maze_exit g)) →
  (k ≤ L)%nat → (L ≤ k + rounds)%nat →
  bfs_search g rounds k seen = Some L.
Proof.
  intros Hrect. revert k seen.
  induction rounds as [|rounds IH]; intros k seen Hseen HL Hmin Hk Hr; simpl.
  - assert (L = k) as -> by lia.
    rewrite bool_decide_eq_true_2; [done|]. by apply Hseen.
  - case_bool_decide as Hex.
    + apply Hseen in Hex. destruct (decide (k = L)) as [->|Hne]; [done|].
      destruct (Hmin k); [lia|done].
    + assert (k ≠ L) by (intros ->; by apply Hex, Hseen).
      apply IH; try done; try lia. by apply bfs_round.
Qed.

(** A shortest walk has the length that the reference search computes. *)
Lemma bfs_distance_shortest g path rounds :
  rect g (maze g) →
  walk_from_to (fun a b => passage (maze g) a b = true)
    (entry g) (maze_exit g) path →
  (∀ q, walk_from_to (fun a b => passage (maze g) a b = true)
          (entry g) (maze_exit g) q → (length path ≤ length q)%nat) →
  (length path - 1 ≤ rounds)%nat →
  bfs_distance g rounds = Some (length path - 1)%nat.
Proof.
  intros Hrect Hpath Hmin Hrounds. unfold bfs_distance.
  assert (1 ≤ length path)%nat as Hpos.
  { destruct Hpath as (Hh & _). destruct path; [done|simpl; lia]. }
  apply bfs_search_spec; try done; try lia.
  - intros v. rewrite list_elem_of_singleton. split.
    + intros ->. exists [entry g]. done.
    + intros (q & (Hh & Hl & _) & Hlen).
      destruct q as [|a [|b q]]; simpl in *; [done| |lia]. congruence.
  - exists path. split; [done|lia].
  - intros j Hj (q & Hq & Hlen). specialize (Hmin q Hq). lia.
Qed.

Lemma walk_sp_passage g q a b :
  grid_inv g (maze g) →
  walk_from_to (sp_step g) a b q
  ↔ walk_from_to (fun a b => passage (maze g) a b = true) a b q.
Proof.
  intros Hgrid. unfold walk_from_to.
  split; intros (? & ? & Hw); (split; [done|split; [done|]]);
    (eapply is_walk_impl; [|exact Hw]); intros x y; unfold sp_step;
    by rewrite (sp_edge_passage g x y Hgrid).
Qed.

(** The search started by [find_shortest_path_steps], on a well-formed
    grid. *)
Lemma sp_search_spec fuel g :
  grid_inv g (maze g) → in_grid g (entry g) →
  match sp_loop fuel g [(0, entry g, [entry g])] {[ entry g := 0 ]} with
  | Ret (ys, Some path) =>
      walk_from_to (fun a b => passage (maze g) a b = true)
        (entry g) (maze_exit g) path
      ∧ (∀ q, walk_from_to (fun a b => passage (maze g) a b = true)
                (entry g) (maze_exit g) q → (length path ≤ length q)%nat)
      ∧ ∃ ys', ys = ys' ++ [path]
          ∧ Forall (fun y => last y ≠ Some (maze_exit g)) ys'
  | Ret (ys, None) =>
      (∀ q, ¬ walk_from_to (fun a b => passage (maze g) a b = true)
                (entry g) (maze_exit g) q)
      ∧ Forall (fun y => last y ≠ Some (maze_exit g)) ys
  | Raise _ => False
  | OutOfFuel => (fuel < sp_fuel g)%nat
  end.
Proof.
  intros Hgrid Hentry.
  pose proof (sp_loop_spec g fuel _ _ [] 0 (gi_rect _ _ Hgrid)
                (sp_inv_start g Hentry) (lookup_singleton_eq _ _)) as Hloop.
  destruct (sp_loop fuel g _ _) as [[ys [path|]]| |]; simpl.
  - destruct Hloop as (Hw & Hmin & Hys).
    split; [by apply walk_sp_passage|]. split; [|done].
    intros q Hq. by apply Hmin, walk_sp_passage.
  - destruct Hloop as [Hno Hall]. split; [|done].
    intros q Hq. by apply (Hno q), walk_sp_passage.
  - done.
  - unfold sp_measure in Hloop. simpl in Hloop.
    assert (unset_cells g {[entry g := 0%Z]} < unset_cells g ∅)%nat.
    { rewrite <- insert_empty. apply unset_cells_insert; [done|].
      apply lookup_empty. }
    pose proof (unset_cells_bound g ∅). unfold sp_fuel. lia.
Qed.

Lemma find_shortest_path_steps_unfold fuel g :
  maze g ≠ [] →
  find_shortest_path_steps fuel g
  = '(ys, r) ← sp_loop fuel g [(0, entry g, [entry g])] {[ entry g := 0 ]};
    Ret (ys, match r with Some p => set_path g p | None => g end).
Proof. unfold find_shortest_path_steps. by destruct (maze g). Qed.

Lemma no_walk_without_passage (m : grid) a b q :
  (∀ x y, passage m x y = false) → a ≠ b →
  ¬ walk_from_to (fun a b => passage m a b = true) a b q.
Proof.
  intros Hno Hne (Hh & Hl & Hw).
  destruct q as [|x [|y q]]; simpl in *; [done|congruence|].
  destruct Hw as [Hxy _]. by rewrite Hno in Hxy.
Qed.

(** * The claims *)

(** The parameters of the running example: a 9 by 9 grid, entry [(0, 0)],
    exit [(8, 8)]. *)
Definition init_9x9 (default_seed : Z) (output_file : pyval) (seed : option pyval)
  : run MazeGenerator :=
  __init__ default_seed (PyInt 9) (PyInt 9)
    (PyTuple [PyInt 0; PyInt 0]) (PyTuple [PyInt 8; PyInt 8])
    output_file (PyBool true) seed.

(** C3 (evaluation at the failing input).  With the seed 0 the constructor
    passes validation and then raises [AttributeError]: the fallback
    [self.seed] of [seed if seed else self.seed] was never assigned.  The
    same happens for every argument list when the seed is 0, and when the
    seed is omitted and the default drawn at class definition is 0. *)
Theorem C3_seed_zero_raises :
  (∀ ds, init_9x9 ds (PyStr "maze.txt") (Some (PyInt 0))
         = Raise (AttributeError "'MazeGenerator' object has no attribute 'seed'"))
  ∧ (∀ ds w h e x o p, ∃ err, __init__ ds w h e x o p (Some (PyInt 0)) = Raise err)
  ∧ (∀ w h e x o p, ∃ err, __init__ 0 w h e x o p None = Raise err)
  ∧ (∀ ds, ∃ g, init_9x9 ds (PyStr "maze.txt") (Some (PyInt 1)) = Ret g).
Proof.
  split; [reflexivity|]. split; [|split].
  - intros. destruct (__init__ ds w h e x o p (Some (PyInt 0))) as [g|err|] eqn:E.
    + apply init_ret in E as (_ & _ & _ & _ & _ & _ & _ & Hs & Hpos).
      simpl in Hs. simplify_eq. lia.
    + eauto.
    + by apply init_no_fuel in E.
  - intros. destruct (__init__ 0 w h e x o p None) as [g|err|] eqn:E.
    + apply init_ret in E as (_ & _ & _ & _ & _ & _ & _ & Hs & Hpos).
      simpl in Hs. simplify_eq. lia.
    + eauto.
    + by apply init_no_fuel in E.
  - intros. eexists. reflexivity.
Qed.

(** C6.  For a 9 by 9 grid the anchor of the pattern is [(1, 2)] and the
    pattern is the 18 listed coordinates; construction with entry [(0, 0)]
    and exit [(8, 8)] succeeds and stores that pattern; construction with
    entry [(1, 2)] raises the error of an entry inside the pattern. *)
Theorem C6_pattern_9x9 :
  pattern_anchor 9 9 = (1, 2)
  ∧ pattern_cells 1 2 =
      [(1,2); (1,3); (1,4); (2,4); (3,4); (3,5); (3,6); (5,2); (5,4);
       (5,5); (5,6); (6,2); (6,4); (6,6); (7,2); (7,3); (7,4); (7,6)]
  ∧ length (pattern_cells 1 2) = 18%nat
  ∧ NoDup (pattern_cells 1 2)
  ∧ (∀ ds, ∃ g, init_9x9 ds (PyStr "maze.txt") (Some (PyInt 42)) = Ret g
       ∧ pattern_42 g = pattern_cells 1 2)
  ∧ (∀ ds, __init__ ds (PyInt 9) (PyInt 9)
       (PyTuple [PyInt 1; PyInt 2]) (PyTuple [PyInt 8; PyInt 8])
       (PyStr "maze.txt") (PyBool true) (Some (PyInt 42))
     = Raise (ValueError "Entry point is inside 42 pattern!")).
Proof.
  repeat split; try reflexivity.
  - refine (bool_decide_unpack (NoDup (pattern_cells 1 2)) _). vm_compute. exact I.
  - intros. eexists. split; reflexivity.
Qed.




(** C1 (counterexample).  The 3 by 3 scenario cannot be set up: the
    constructor raises, whatever the seed. *)
Lemma C1_3x3_not_constructible :
  __init__ 0 (PyInt 3) (PyInt 3)
    (PyTuple [PyInt 0; PyInt 0]) (PyTuple [PyInt 2; PyInt 2])
    (PyStr "maze.txt") (PyBool true) (Some (PyInt 42))
  = Raise (ValueError "Cannot generate 42 pattern, maze too small!").
Proof. reflexivity. Qed.

(** C1 (amended).  Every object the constructor returns is at least 9 by 9
    and has the protected pattern, so 18 of its [W * H] cells are never
    carved.  In perfect mode both carving runs return with the fuel they
    are given, report exactly [W * H - 19] wall removals after the opening
    event, and leave a grid whose passages form a spanning tree of the
    [W * H - 18] carvable cells: every carvable cell is joined to the entry,
    passages join carvable cells only, and there is no simple cycle. *)
Theorem C1_perfect_carve_spans R g :
  reachable R g → perfect g = true →
  8 < width g ∧ 8 < height g
  ∧ Z.of_nat (length (carvable_cells g)) = width g * height g - 18
  ∧ (∃ evs g', dfs_steps R (dfs_fuel g) g = Ret (evs, g')
       ∧ dfs R g = Ret g'
       ∧ Z.of_nat (length (removals evs)) = width g * height g - 19
       ∧ spanning_tree g (maze g'))
  ∧ (∃ evs g', prim_steps R (prim_fuel g) g = Ret (evs, g')
       ∧ prim R g = Ret g'
       ∧ Z.of_nat (length (removals evs)) = width g * height g - 19
       ∧ spanning_tree g (maze g')).
Proof.
  intros Hreach Hp.
  destruct (reachable_gen_inv R g Hreach) as [Hcfg _].
  pose proof (cfg_width g Hcfg) as Hw. pose proof (cfg_height g Hcfg) as Hh.
  split; [done|]. split; [done|]. split; [|split].
  - pose proof (carvable_cells_length g Hcfg). nia.
  - destruct (dfs_returns R g Hcfg) as (evs & g' & Hs & Hd & Hout).
    exists evs, g'. split; [done|]. split; [done|].
    by apply carve_outcome_perfect.
  - destruct (prim_returns R g Hcfg) as (evs & g' & Hs & Hd & Hout).
    exists evs, g'. split; [done|]. split; [done|].
    by apply carve_outcome_perfect.
Qed.

Lemma C1_perfect_carve_spans_witness :
  8 < width g9 ∧ 8 < height g9
  ∧ Z.of_nat (length (carvable_cells g9)) = width g9 * height g9 - 18
  ∧ (∃ evs g', dfs_steps lcg (dfs_fuel g9) g9 = Ret (evs, g')
       ∧ dfs lcg g9 = Ret g'
       ∧ Z.of_nat (length (removals evs)) = width g9 * height g9 - 19
       ∧ spanning_tree g9 (maze g'))
  ∧ (∃ evs g', prim_steps lcg (prim_fuel g9) g9 = Ret (evs, g')
       ∧ prim lcg g9 = Ret g'
       ∧ Z.of_nat (length (removals evs)) = width g9 * height g9 - 19
       ∧ spanning_tree g9 (maze g')).
Proof.
  apply (C1_perfect_carve_spans lcg g9 (g9_reachable lcg)). reflexivity.
Defined.

(** C4.  In every reachable object, for every cell of the grid and each of
    its four neighbours in the grid, the cell lacks the wall that faces the
    neighbour exactly when the neighbour lacks the wall that faces the
    cell.  Reachable objects include every suspension of a carving run and
    every pass of the braiding loop. *)
Theorem C4_wall_symmetry R g a dx dy wall op_wall :
  reachable R g →
  (dx, dy, wall, op_wall) ∈ DIRECTIONS →
  in_grid g a → in_grid g (a.1 + dx, a.2 + dy) →
  lacks (maze g) a wall = lacks (maze g) (a.1 + dx, a.2 + dy) op_wall.
Proof.
  intros Hreach Hd Ha Hb.
  destruct (reachable_gen_inv R g Hreach) as [Hcfg [Hm|Hm]].
  - rewrite Hm. unfold lacks, gcell. by repeat case_match.
  - destruct (in_grid_gcell g (maze g) a (gi_rect _ _ Hm) Ha) as [ca Hca].
    destruct (in_grid_gcell g (maze g) _ (gi_rect _ _ Hm) Hb) as [cb Hcb].
    unfold lacks. rewrite Hca, Hcb. f_equal.
    by apply (gi_sym _ _ Hm a dx dy wall op_wall).
Qed.

Lemma C4_wall_symmetry_witness :
  lacks (maze g9_carved) (0, 0) Cell.SOUTH
  = lacks (maze g9_carved) (0, 1) Cell.NORTH
  ∧ lacks (maze g9_braided) (4, 3) Cell.EAST
    = lacks (maze g9_braided) (5, 3) Cell.WEST.
Proof.
  split.
  - apply (C4_wall_symmetry lcg g9_carved (0, 0) 0 1 Cell.SOUTH Cell.NORTH).
    + exact g9_carved_reachable.
    + refine (bool_decide_unpack _ _). vm_compute. exact I.
    + vm_compute. repeat split; discriminate.
    + vm_compute. repeat split; discriminate.
  - apply (C4_wall_symmetry lcg g9_braided (4, 3) 1 0 Cell.EAST Cell.WEST).
    + exact g9_braided_reachable.
    + refine (bool_decide_unpack _ _). vm_compute. exact I.
    + vm_compute. repeat split; discriminate.
    + vm_compute. repeat split; discriminate.
Defined.

(** C5.  In every reachable object that holds a grid, every coordinate of
    the protected pattern is a cell of the grid whose wall state is 15
    (all four walls), the state a fresh cell has. *)
Theorem C5_pattern_untouched R g p :
  reachable R g → maze g ≠ [] → p ∈ pattern_42 g →
  ∃ c, gcell (maze g) p = Some c
     ∧ Cell._walls c = 15 ∧ Cell._walls c = Cell._walls Cell.__init__.
Proof.
  intros Hreach Hne Hp.
  destruct (reachable_gen_inv R g Hreach) as [Hcfg [Hm|Hm]]; [done|].
  destruct (in_grid_gcell g (maze g) p (gi_rect _ _ Hm)) as [c Hc];
    [by apply pattern_in_grid|].
  exists c. split; [done|]. split; by apply (gi_pattern _ _ Hm p c).
Qed.

Lemma C5_pattern_untouched_witness :
  ∃ c, gcell (maze g9_braided) (5, 4) = Some c
     ∧ Cell._walls c = 15 ∧ Cell._walls c = Cell._walls Cell.__init__.
Proof.
  apply (C5_pattern_untouched lcg g9_braided (5, 4)).
  - exact g9_braided_reachable.
  - vm_compute. discriminate.
  - refine (bool_decide_unpack _ _). vm_compute. exact I.
Defined.

(** C7.  For every reachable object, reading back the hex text of its grid
    succeeds and gives, at every coordinate of the grid, the wall state of
    the cell there; when the object holds a grid, the rows read are exactly
    the rows of wall states. *)
Theorem C7_hex_round_trip R g :
  reachable R g →
  ∃ rows, decode_grid (maze_to_str g) = Some rows
    ∧ (∀ x y c, gcell (maze g) (x, y) = Some c →
         (rows !! Z.to_nat y) ≫= (fun row => row !! Z.to_nat x)
         = Some (Cell._walls c))
    ∧ (maze g ≠ [] → rows = map (map Cell._walls) (maze g)).
Proof.
  intros Hreach.
  destruct (reachable_gen_inv R g Hreach) as [Hcfg [Hm|Hm]].
  - exists [[]]. unfold maze_to_str. rewrite Hm. split; [done|]. split; [|done].
    intros x y c. unfold gcell. by repeat case_match.
  - assert (maze g ≠ []) as Hne.
    { destruct Hm as [[Hlen _] _ _ _]. destruct Hcfg as [_ Hh _ _ _ _].
      intros Hnil. rewrite Hnil in Hlen. simpl in Hlen. lia. }
    exists (map (map Cell._walls) (maze g)). split; [|split; [|done]].
    + apply decode_maze_to_str; [done|].
      apply walls_in_range_rows, Hm.
    + intros x y c. apply gcell_map_walls.
Qed.

Lemma C7_hex_round_trip_witness :
  ∃ rows, decode_grid (maze_to_str g9_braided) = Some rows
    ∧ (∀ x y c, gcell (maze g9_braided) (x, y) = Some c →
         (rows !! Z.to_nat y) ≫= (fun row => row !! Z.to_nat x)
         = Some (Cell._walls c))
    ∧ (maze g9_braided ≠ [] → rows = map (map Cell._walls) (maze g9_braided)).
Proof. apply (C7_hex_round_trip lcg g9_braided). exact g9_braided_reachable. Defined.



(** C2.  In a reachable object that holds a grid, when the search stores a
    path [p] (the loop ends at [self.path = path]), [p] starts at the
    entry, ends at the exit, every two consecutive coordinates are joined
    by a passage (neighbours in one of the four directions, neither with a
    wall towards the other), no walk along passages from the entry to the
    exit has fewer coordinates, and the reference breadth-first search,
    given rounds enough, counts as many passages as [p] has steps. *)
Theorem C2_path_valid_shortest R g fuel ys p :
  reachable R g → maze g ≠ [] →
  sp_loop fuel g [(0, entry g, [entry g])] {[ entry g := 0 ]}
  = Ret (ys, Some p) →
  find_shortest_path_steps fuel g = Ret (ys, set_path g p)
  ∧ head p = Some (entry g) ∧ last p = Some (maze_exit g)
  ∧ is_walk (fun a b => passage (maze g) a b = true) p
  ∧ (∀ q, walk_from_to (fun a b => passage (maze g) a b = true)
            (entry g) (maze_exit g) q → (length p ≤ length q)%nat)
  ∧ (∀ rounds, (length p - 1 ≤ rounds)%nat →
       bfs_distance g rounds = Some (length p - 1)%nat).
Proof.
  intros Hreach Hne Hloop.
  destruct (reachable_gen_inv R g Hreach) as [Hcfg [Hm|Hm]]; [done|].
  pose proof (sp_search_spec fuel g Hm
                (allowed_in_grid _ _ (cfg_entry g Hcfg))) as Hspec.
  rewrite Hloop in Hspec. destruct Hspec as ((Hh & Hl & Hw) & Hmin & _).
  split; [by rewrite find_shortest_path_steps_unfold, Hloop|].
  split; [done|]. split; [done|]. split; [done|]. split; [done|].
  intros rounds Hr. apply bfs_distance_shortest; try done. apply Hm.
Qed.

(** The search on the carved example. *)
Definition g9_search : run (list (list coord) * option (list coord)) :=
  sp_loop (sp_fuel g9_carved) g9_carved
    [(0, entry g9_carved, [entry g9_carved])] {[ entry g9_carved := 0 ]}.

Definition g9_yields : list (list coord) :=
  match g9_search with Ret (ys, _) => ys | _ => [] end.

Definition g9_path : list coord :=
  match g9_search with Ret (_, Some p) => p | _ => [] end.

Lemma g9_search_ret :
  sp_loop (sp_fuel g9_carved) g9_carved
    [(0, entry g9_carved, [entry g9_carved])] {[ entry g9_carved := 0 ]}
  = Ret (g9_yields, Some g9_path).
Proof. vm_compute. reflexivity. Qed.

Lemma C2_path_valid_shortest_witness :
  find_shortest_path_steps (sp_fuel g9_carved) g9_carved
  = Ret (g9_yields, set_path g9_carved g9_path)
  ∧ head g9_path = Some (entry g9_carved)
  ∧ last g9_path = Some (maze_exit g9_carved)
  ∧ is_walk (fun a b => passage (maze g9_carved) a b = true) g9_path
  ∧ (∀ q, walk_from_to (fun a b => passage (maze g9_carved) a b = true)
            (entry g9_carved) (maze_exit g9_carved) q →
          (length g9_path ≤ length q)%nat)
  ∧ (∀ rounds, (length g9_path - 1 ≤ rounds)%nat →
       bfs_distance g9_carved rounds = Some (length g9_path - 1)%nat).
Proof.
  apply (C2_path_valid_shortest lcg g9_carved (sp_fuel g9_carved)
           g9_yields g9_path g9_carved_reachable).
  - vm_compute. discriminate.
  - exact g9_search_ret.
Defined.

(** The object a driver sees at the first suspension of [dfs_steps]: the
    fresh grid, all walls standing. *)
Definition g9_fresh : MazeGenerator := set_maze g9 (_generate_grid g9).

Lemma g9_fresh_reachable : reachable lcg g9_fresh.
Proof.
  apply (reach_dfs_yield lcg g9 (dfs_fuel g9) g9_run.1 g9_carved
           (entry g9, -1) (_generate_grid g9));
    [apply g9_reachable|exact g9_run_ret|].
  refine (bool_decide_unpack _ _). vm_compute. exact I.
Qed.

(** C8.  In a reachable object whose exit cannot be reached from the entry
    along passages, the search returns (it raises nothing), the loop ends
    with the queue empty and no path stored, no path it yields ends at the
    exit, and the object, stored path included, is left as it was; in an
    object that holds no grid the search yields nothing and leaves the
    object as it was, whatever the fuel. *)
Theorem C8_no_route_no_change R g :
  reachable R g →
  ((∀ q, ¬ walk_from_to (fun a b => passage (maze g) a b = true)
             (entry g) (maze_exit g) q) →
   ∃ ys, find_shortest_path_steps (sp_fuel g) g = Ret (ys, g)
       ∧ find_shortest_path g = Ret g
       ∧ Forall (fun y => last y ≠ Some (maze_exit g)) ys
       ∧ (maze g ≠ [] →
          sp_loop (sp_fuel g) g [(0, entry g, [entry g])] {[ entry g := 0 ]}
          = Ret (ys, None)))
  ∧ (maze g = [] →
     ∀ fuel, find_shortest_path_steps fuel g = Ret ([], g)
             ∧ find_shortest_path g = Ret g).
Proof.
  intros Hreach. split.
  - intros Hno.
    destruct (reachable_gen_inv R g Hreach) as [Hcfg [Hm|Hm]].
    + exists []. unfold find_shortest_path, find_shortest_path_steps.
      rewrite Hm. done.
    + assert (maze g ≠ []) as Hne.
      { destruct Hm as [[Hlen _] _ _ _]. destruct Hcfg as [_ Hh _ _ _ _].
        intros Hnil. rewrite Hnil in Hlen. simpl in Hlen. lia. }
      pose proof (sp_search_spec (sp_fuel g) g Hm
                    (allowed_in_grid _ _ (cfg_entry g Hcfg))) as Hspec.
      unfold find_shortest_path.
      rewrite find_shortest_path_steps_unfold by done.
      destruct (sp_loop (sp_fuel g) g _ _) as [[ys [p|]]| |]; simpl.
      * destruct Hspec as (Hw & _). by destruct (Hno p).
      * destruct Hspec as [_ Hall]. exists ys. done.
      * done.
      * lia.
  - intros Hm fuel. unfold find_shortest_path, find_shortest_path_steps.
    rewrite Hm. done.
Qed.

Lemma C8_no_route_no_change_witness :
  (∃ ys, find_shortest_path_steps (sp_fuel g9_fresh) g9_fresh = Ret (ys, g9_fresh)
       ∧ find_shortest_path g9_fresh = Ret g9_fresh
       ∧ Forall (fun y => last y ≠ Some (maze_exit g9_fresh)) ys
       ∧ (maze g9_fresh ≠ [] →
          sp_loop (sp_fuel g9_fresh) g9_fresh
            [(0, entry g9_fresh, [entry g9_fresh])] {[ entry g9_fresh := 0 ]}
          = Ret (ys, None)))
  ∧ (∀ fuel, find_shortest_path_steps fuel g9 = Ret ([], g9)
             ∧ find_shortest_path g9 = Ret g9).
Proof.
  split.
  - apply (C8_no_route_no_change lcg g9_fresh g9_fresh_reachable).
    intros q. apply no_walk_without_passage; [|vm_compute; discriminate].
    intros x y. apply (fresh_no_passage g9).
  - apply (C8_no_route_no_change lcg g9 (g9_reachable lcg)). reflexivity.
Defined.

(** * Further properties *)

(** ** The cell *)

Lemma has_wall_add c a w :
  is_wall a → is_wall w →
  Cell.has_wall (Cell.set_walls c (Z.lor (Cell._walls c) a)) w
  = Cell.has_wall c w || (w =? a).
Proof.
  unfold is_wall, Cell.NORTH, Cell.EAST, Cell.SOUTH, Cell.WEST.
  intros Ha Hw. destruct c as [ws v]. unfold Cell.has_wall. simpl.
  rewrite Z.land_lor_distr_l.
  destruct Ha as [-> | [-> | [-> | ->]]];
    destruct Hw as [-> | [-> | [-> | ->]]]; simpl;
    rewrite ?Z.lor_0_r, ?orb_false_r; try done;
    rewrite orb_true_r; apply negb_true_iff, Z.eqb_neq;
    rewrite Z.lor_eq_0_iff; intros [_ ?]; done.
Qed.

Lemma has_wall_clear c a w :
  is_wall a → is_wall w →
  Cell.has_wall (Cell.set_walls c (Z.land (Cell._walls c) (Z.lnot a))) w
  = Cell.has_wall c w && negb (w =? a).
Proof.
  unfold is_wall, Cell.NORTH, Cell.EAST, Cell.SOUTH, Cell.WEST.
  intros Ha Hw. destruct c as [ws v]. unfold Cell.has_wall. simpl.
  rewrite <- Z.land_assoc.
  destruct Ha as [-> | [-> | [-> | ->]]];
    destruct Hw as [-> | [-> | [-> | ->]]]; simpl;
    rewrite ?Z.land_0_r, ?andb_true_r, ?andb_false_r; done.
Qed.

(** X1.  The wall methods of a cell, whatever integer its wall field holds:
    after [add_*_wall] the cell has that wall, after [remove_*_wall] it has
    not; the answers for the three other walls, the visited mark, and what
    [set_visited] leaves of the walls, are unchanged. *)
Theorem cell_wall_methods c :
  Forall (fun m1 : Z * (Cell.t → Cell.t) * (Cell.t → Cell.t) * (Cell.t → bool) =>
    let '(w1, add, remove, _) := m1 in
    Cell.visited (add c) = Cell.visited c
    ∧ Cell.visited (remove c) = Cell.visited c
    ∧ Forall (fun m2 : Z * (Cell.t → Cell.t) * (Cell.t → Cell.t) * (Cell.t → bool) =>
        let '(w2, _, _, has) := m2 in
        has (add c) = (if w1 =? w2 then true else has c)
        ∧ has (remove c) = (if w1 =? w2 then false else has c)
        ∧ (∀ v, has (Cell.set_visited v c) = has c)
        ∧ has Cell.__init__ = true) wall_methods)
    wall_methods.
Proof.
  assert (Hadd : ∀ a w, is_wall a → is_wall w →
            Cell.has_wall (Cell.set_walls c (Z.lor (Cell._walls c) a)) w
            = (if a =? w then true else Cell.has_wall c w)).
  { intros a w Ha Hw. rewrite has_wall_add by done. rewrite (Z.eqb_sym w a).
    destruct (a =? w); [apply orb_true_r|apply orb_false_r]. }
  assert (Hrem : ∀ a w, is_wall a → is_wall w →
            Cell.has_wall (Cell.set_walls c (Z.land (Cell._walls c) (Z.lnot a))) w
            = (if a =? w then false else Cell.has_wall c w)).
  { intros a w Ha Hw. rewrite has_wall_clear by done. rewrite (Z.eqb_sym w a).
    destruct (a =? w); [apply andb_false_r|apply andb_true_r]. }
  assert (HN : is_wall Cell.NORTH) by (unfold is_wall; tauto).
  assert (HE : is_wall Cell.EAST) by (unfold is_wall; tauto).
  assert (HS : is_wall Cell.SOUTH) by (unfold is_wall; tauto).
  assert (HW : is_wall Cell.WEST) by (unfold is_wall; tauto).
  unfold wall_methods.
  repeat (apply Forall_cons; split; [split; [done|split; [done|]]|]);
    try apply Forall_nil_2;
    repeat (apply Forall_cons; split; [|]); try apply Forall_nil_2;
    (split; [by apply Hadd|split; [by apply Hrem|split; done]]).
Qed.

Lemma is_wall_dec_cases w :
  is_wall w ∨ (w ≠ Cell.NORTH ∧ w ≠ Cell.EAST ∧ w ≠ Cell.SOUTH ∧ w ≠ Cell.WEST).
Proof. unfold is_wall. lia. Qed.

(** X2.  [_wall_count] is between 0 and 4 and is 4 for a fresh cell;
    [_remove_wall] with one of the four flags lowers the count by one when
    the cell has that wall and leaves it otherwise, and changes no other
    wall and not the mark; with any other integer as flag it leaves the
    cell as it is. *)
Theorem wall_count_remove_wall c w :
  0 ≤ _wall_count c ≤ 4
  ∧ _wall_count Cell.__init__ = 4
  ∧ Cell.visited (_remove_wall c w) = Cell.visited c
  ∧ (is_wall w →
     _wall_count (_remove_wall c w) = _wall_count c - Z.b2z (Cell.has_wall c w)
     ∧ Cell.has_wall (_remove_wall c w) w = false
     ∧ ∀ w', is_wall w' → w' ≠ w →
         Cell.has_wall (_remove_wall c w) w' = Cell.has_wall c w')
  ∧ (¬ is_wall w → _remove_wall c w = c).
Proof.
  split; [|split; [done|split; [apply remove_wall_visited|split]]].
  - unfold _wall_count.
    destruct (Cell.has_east_wall c), (Cell.has_north_wall c),
      (Cell.has_south_wall c), (Cell.has_west_wall c); simpl; lia.
  - intros Hw.
    assert (HN : is_wall Cell.NORTH) by (unfold is_wall; tauto).
    assert (HE : is_wall Cell.EAST) by (unfold is_wall; tauto).
    assert (HS : is_wall Cell.SOUTH) by (unfold is_wall; tauto).
    assert (HW : is_wall Cell.WEST) by (unfold is_wall; tauto).
    split; [|split].
    + unfold _wall_count, Cell.has_east_wall, Cell.has_north_wall,
        Cell.has_south_wall, Cell.has_west_wall.
      rewrite !has_wall_remove by done.
      unfold is_wall, Cell.NORTH, Cell.EAST, Cell.SOUTH, Cell.WEST in *.
      destruct Hw as [-> | [-> | [-> | ->]]]; simpl;
        rewrite ?andb_true_r, ?andb_false_r;
        destruct (Cell.has_wall c 1), (Cell.has_wall c 2),
          (Cell.has_wall c 4), (Cell.has_wall c 8); simpl; lia.
    + rewrite has_wall_remove by done. rewrite Z.eqb_refl. apply andb_false_r.
    + intros w' Hw' Hne. rewrite has_wall_remove by done.
      apply Z.eqb_neq in Hne. rewrite Hne. apply andb_true_r.
  - intros Hw. unfold _remove_wall.
    destruct (is_wall_dec_cases w) as [?|(H1 & H2 & H3 & H4)]; [done|].
    apply Z.eqb_neq in H1, H2, H3, H4. by rewrite H1, H2, H3, H4.
Qed.

(** X3.  For cells whose wall field is in 0..15 (every cell of a grid the
    generator holds), [to_hex] is one character of [0123456789ABCDEF], and
    two such cells have the same text only when they have the same
    walls. *)
Theorem to_hex_one_digit c1 c2 :
  0 ≤ Cell._walls c1 ≤ 15 → 0 ≤ Cell._walls c2 ≤ 15 →
  String.length (Cell.to_hex c1) = 1%nat
  ∧ (∃ a, Cell.to_hex c1 = String a EmptyString
          ∧ a ∈ list_ascii_of_string "0123456789ABCDEF")
  ∧ (Cell.to_hex c1 = Cell.to_hex c2 → Cell._walls c1 = Cell._walls c2).
Proof.
  destruct c1 as [w1 v1], c2 as [w2 v2]. simpl. intros H1 H2.
  assert (Hw1 : w1 = 0 ∨ w1 = 1 ∨ w1 = 2 ∨ w1 = 3 ∨ w1 = 4 ∨ w1 = 5 ∨ w1 = 6
                ∨ w1 = 7 ∨ w1 = 8 ∨ w1 = 9 ∨ w1 = 10 ∨ w1 = 11 ∨ w1 = 12
                ∨ w1 = 13 ∨ w1 = 14 ∨ w1 = 15) by lia.
  assert (Hw2 : w2 = 0 ∨ w2 = 1 ∨ w2 = 2 ∨ w2 = 3 ∨ w2 = 4 ∨ w2 = 5 ∨ w2 = 6
                ∨ w2 = 7 ∨ w2 = 8 ∨ w2 = 9 ∨ w2 = 10 ∨ w2 = 11 ∨ w2 = 12
                ∨ w2 = 13 ∨ w2 = 14 ∨ w2 = 15) by lia.
  clear H1 H2. split; [|split].
  - destruct_or!; subst; reflexivity.
  - destruct_or! Hw1; subst; (eexists; split; [reflexivity|]);
      refine (bool_decide_unpack _ _); vm_compute; exact I.
  - destruct_or! Hw1; subst; destruct_or! Hw2; subst;
      first [reflexivity | vm_compute; discriminate].
Qed.

Lemma to_hex_one_digit_witness :
  String.length (Cell.to_hex Cell.__init__) = 1%nat
  ∧ (∃ a, Cell.to_hex Cell.__init__ = String a EmptyString
          ∧ a ∈ list_ascii_of_string "0123456789ABCDEF")
  ∧ (Cell.to_hex Cell.__init__ = Cell.to_hex (Cell.remove_east_wall Cell.__init__)
     → Cell._walls Cell.__init__
       = Cell._walls (Cell.remove_east_wall Cell.__init__)).
Proof.
  apply (to_hex_one_digit Cell.__init__ (Cell.remove_east_wall Cell.__init__));
    vm_compute; split; discriminate.
Defined.

(** ** The constructor and its callers *)

(** X4.  What a successful construction guarantees: the grid is at least
    9 by 9; width, height, output file, perfect flag and seed are the
    arguments (the default when the seed is omitted) and the seed is
    positive; entry and exit are distinct cells of the grid outside the
    pattern; the pattern is the 18 cells at the anchor, all of them cells of
    the grid; there is no grid and no path yet. *)
Theorem init_postcondition ds w h e x o p s g :
  __init__ ds w h e x o p s = Ret g →
  8 < width g ∧ 8 < height g
  ∧ as_int w = Some (width g) ∧ as_int h = Some (height g)
  ∧ o = PyStr (output_file g) ∧ p = PyBool (perfect g)
  ∧ as_int (default (PyInt ds) s) = Some (seed g) ∧ 0 < seed g
  ∧ in_grid g (entry g) ∧ in_grid g (maze_exit g) ∧ entry g ≠ maze_exit g
  ∧ (entry g ∉ pattern_42 g) ∧ (maze_exit g ∉ pattern_42 g)
  ∧ pattern_42 g = pattern_cells (pattern_anchor (width g) (height g)).1
                                 (pattern_anchor (width g) (height g)).2
  ∧ length (pattern_42 g) = 18%nat
  ∧ (∀ c, c ∈ pattern_42 g → in_grid g c)
  ∧ maze g = [] ∧ path g = [].
Proof.
  intros H. apply init_ret in H
    as (Hcfg & Hm & Hp & Hw & Hh & Ho & Hpf & Hs & Hs0).
  pose proof (cfg_entry g Hcfg) as [He1 He2]%allowed_spec.
  pose proof (cfg_exit g Hcfg) as [Hx1 Hx2]%allowed_spec.
  repeat (split; [first [done | apply Hcfg]|]).
  split; [by rewrite (cfg_pattern g Hcfg)|].
  split; [|done]. intros c. by apply pattern_in_grid.
Qed.

Lemma init_postcondition_witness :
  8 < width g9 ∧ 8 < height g9
  ∧ as_int (PyInt 9) = Some (width g9) ∧ as_int (PyInt 9) = Some (height g9)
  ∧ PyStr "maze.txt" = PyStr (output_file g9) ∧ PyBool true = PyBool (perfect g9)
  ∧ as_int (default (PyInt 0) (Some (PyInt 42))) = Some (seed g9) ∧ 0 < seed g9
  ∧ in_grid g9 (entry g9) ∧ in_grid g9 (maze_exit g9) ∧ entry g9 ≠ maze_exit g9
  ∧ (entry g9 ∉ pattern_42 g9) ∧ (maze_exit g9 ∉ pattern_42 g9)
  ∧ pattern_42 g9 = pattern_cells (pattern_anchor (width g9) (height g9)).1
                                  (pattern_anchor (width g9) (height g9)).2
  ∧ length (pattern_42 g9) = 18%nat
  ∧ (∀ c, c ∈ pattern_42 g9 → in_grid g9 c)
  ∧ maze g9 = [] ∧ path g9 = [].
Proof.
  exact (init_postcondition 0 (PyInt 9) (PyInt 9)
           (PyTuple [PyInt 0; PyInt 0]) (PyTuple [PyInt 8; PyInt 8])
           (PyStr "maze.txt") (PyBool true) (Some (PyInt 42)) g9 eq_refl).
Defined.

(** X5.  Arguments that pass [_validate_inputs] with a width or a height
    of at most 8 and a non-zero seed make the constructor raise the
    [ValueError] of the pattern that does not fit: no maze smaller than
    9 by 9 can be built, although validation asks for 3 by 3 only. *)
Theorem init_too_small ds w h e x o p s ci :
  _validate_inputs w h e x (default (PyInt ds) s) o p = Ret ci →
  truthy (default (PyInt ds) s) = true →
  ci_width ci ≤ 8 ∨ ci_height ci ≤ 8 →
  3 ≤ ci_width ci ∧ 3 ≤ ci_height ci
  ∧ __init__ ds w h e x o p s
    = Raise (ValueError "Cannot generate 42 pattern, maze too small!").
Proof.
  intros Hci Ht Hsmall.
  pose proof (validate_inputs_ret _ _ _ _ _ _ _ _ Hci)
    as (_ & _ & HW & HH & _ & _ & _ & _ & _ & Hseed).
  split; [done|]. split; [done|].
  unfold __init__. rewrite Hci. simpl. rewrite Ht.
  destruct (Hseed Ht) as (n & -> & _). simpl.
  unfold _generate_pattern_42.
  destruct ((8 <? ci_width ci) && (8 <? ci_height ci)) eqn:E; [|done].
  apply andb_true_iff in E as [?%Z.ltb_lt ?%Z.ltb_lt]. lia.
Qed.

Lemma init_too_small_witness :
  3 ≤ 8 ∧ 3 ≤ 20
  ∧ __init__ 0 (PyInt 8) (PyInt 20)
      (PyTuple [PyInt 0; PyInt 0]) (PyTuple [PyInt 7; PyInt 19])
      (PyStr "maze.txt") (PyBool false) (Some (PyInt 7))
    = Raise (ValueError "Cannot generate 42 pattern, maze too small!").
Proof.
  apply (init_too_small 0 (PyInt 8) (PyInt 20)
           (PyTuple [PyInt 0; PyInt 0]) (PyTuple [PyInt 7; PyInt 19])
           (PyStr "maze.txt") (PyBool false) (Some (PyInt 7))
           {| ci_width := 8; ci_height := 20; ci_entry := (0, 0);
              ci_exit := (7, 19); ci_output := "maze.txt";
              ci_perfect := false |}).
  - reflexivity.
  - reflexivity.
  - simpl. lia.
Defined.

(** X6.  The construction in [main] never succeeds when the configuration
    holds a string under [OUTPUT_FILE], as every configuration that
    [return_config] returns does: [main] passes the seed where the
    constructor expects the output file, the output file where it expects
    the perfect flag and the perfect flag where it expects the seed.  When
    the construction in [init_params], which passes the same values in the
    constructor's own order, builds an object from a configuration whose
    perfect flag is a boolean and whose seed, if any, is an integer, the
    call in [main] raises the [TypeError] about the output file. *)
Theorem main_generator_raises ds W H E X (out : string) P S :
  (∃ err, main_generator ds W H E X (PyStr out) P S = Raise err)
  ∧ ∀ (perfect_flag : bool) (seed_value : option Z) g,
      P = PyBool perfect_flag → S = PyInt <$> seed_value →
      init_params_generator ds W H E X (PyStr out) P S = Ret g →
      main_generator ds W H E X (PyStr out) P S
      = Raise (TypeError "Output file name must be a string!").
Proof.
  split.
  - unfold main_generator.
    destruct S as [sv|].
    + destruct (__init__ ds W H E X sv (PyStr out) (Some P)) as [g|err|] eqn:Hg.
      * apply init_ret in Hg as (_ & _ & _ & _ & _ & _ & Hp & _). done.
      * eauto.
      * by apply init_no_fuel in Hg.
    + destruct (__init__ ds W H E X PyNone (PyStr out) (Some P)) as [g|err|] eqn:Hg.
      * apply init_ret in Hg as (_ & _ & _ & _ & _ & _ & Hp & _). done.
      * eauto.
      * by apply init_no_fuel in Hg.
  - intros pf sv g -> -> Hg.
    assert (Hinit : __init__ ds W H E X (PyStr out) (PyBool pf) (PyInt <$> sv)
                    = Ret g) by (by destruct sv).
    clear Hg. unfold __init__ in Hinit.
    apply bind_ret_inv in Hinit as (ci & Hci & _).
    unfold main_generator, __init__, _validate_inputs in *.
    destruct (as_int W) as [w|]; [|repeat case_match; discriminate].
    destruct (as_int H) as [h|]; [|discriminate].
    destruct (_ || _); [discriminate|].
    destruct ((w <? 3) || _); [discriminate|].
    destruct (validate_point "entry" E w h) as [ce| |]; try discriminate.
    destruct (validate_point "maze_exit" X w h) as [cx| |]; try discriminate.
    simpl in *. case_bool_decide; [discriminate|].
    destruct sv as [n|]; simpl; by destruct pf.
Qed.

(** X7.  [is_all_mandatory] returns [True] exactly when the dictionary
    has every key of the tuple; otherwise it raises the [ValueError] that
    names the first key of the tuple that is missing. *)
Theorem is_all_mandatory_spec mandatory config :
  match is_all_mandatory mandatory config with
  | Ret b => b = true ∧ ∀ key, key ∈ mandatory → is_Some (config !! key)
  | Raise err =>
      ∃ before key after,
        mandatory = before ++ key :: after
        ∧ (∀ k, k ∈ before → is_Some (config !! k))
        ∧ config !! key = None
        ∧ err = ValueError ("You missing a mandatory " +:+ key +:+ " key!")
  | OutOfFuel => False
  end.
Proof.
  induction mandatory as [|key rest IH]; simpl.
  - split; [done|]. intros key Hk. by apply elem_of_nil in Hk.
  - destruct (config !! key) as [v|] eqn:Hkey.
    + destruct (is_all_mandatory rest config) as [b|err|].
      * destruct IH as [-> IH]. split; [done|].
        intros k [->|Hk]%elem_of_cons; [by eexists|by apply IH].
      * destruct IH as (before & k & after & -> & Hb & Hk & ->).
        exists (key :: before), k, after. split; [done|]. split; [|done].
        intros k' [->|Hk']%elem_of_cons; [by eexists|by apply Hb].
      * done.
    + exists [], key, rest. split; [done|]. split; [|done].
      intros k Hk. by apply elem_of_nil in Hk.
Qed.

(** ** The path as text *)

Lemma direction_letter_adjacent a b :
  adjacent a b →
  (b = (a.1, a.2 - 1) ∧ direction_letter (b.1 - a.1, b.2 - a.2) = "N")
  ∨ (b = (a.1, a.2 + 1) ∧ direction_letter (b.1 - a.1, b.2 - a.2) = "S")
  ∨ (b = (a.1 + 1, a.2) ∧ direction_letter (b.1 - a.1, b.2 - a.2) = "E")
  ∨ (b = (a.1 - 1, a.2) ∧ direction_letter (b.1 - a.1, b.2 - a.2) = "W").
Proof.
  intros (dx & dy & wall & op_wall & Hd & ->). destruct a as [x y]. simpl.
  dir_cases Hd.
  - left. split; [f_equal; lia|].
    replace (x + 0 - x) with 0 by lia. by replace (y + -1 - y) with (-1) by lia.
  - right. right. left. split; [f_equal; lia|].
    replace (x + 1 - x) with 1 by lia. by replace (y + 0 - y) with 0 by lia.
  - right. left. split; [f_equal; lia|].
    replace (x + 0 - x) with 0 by lia. by replace (y + 1 - y) with 1 by lia.
  - right. right. right. split; [f_equal; lia|].
    replace (x + -1 - x) with (-1) by lia. by replace (y + 0 - y) with 0 by lia.
Qed.

Lemma letter_append (a : ascii) (s : string) :
  String a EmptyString +:+ s = String a s.
Proof. reflexivity. Qed.

Lemma path_letters_length prev rest :
  is_walk adjacent (prev :: rest) →
  String.length (path_letters prev rest) = length rest.
Proof.
  revert prev. induction rest as [|[x y] rest IH]; intros prev Hw; [done|].
  apply is_walk_cons in Hw as [Hab Hw]. simpl.
  apply direction_letter_adjacent in Hab. simpl in Hab.
  destruct Hab as [[_ ->]|[[_ ->]|[[_ ->]|[_ ->]]]];
    rewrite letter_append; simpl; by rewrite IH.
Qed.

Lemma path_letters_inj prev r1 r2 :
  is_walk adjacent (prev :: r1) → is_walk adjacent (prev :: r2) →
  path_letters prev r1 = path_letters prev r2 → r1 = r2.
Proof.
  revert prev r2. induction r1 as [|[x1 y1] r1 IH]; intros prev r2 H1 H2 Heq.
  - destruct r2 as [|[x2 y2] r2]; [done|].
    apply is_walk_cons in H2 as [Hab _]. simpl in Heq.
    apply direction_letter_adjacent in Hab. simpl in Hab.
    destruct Hab as [[_ E]|[[_ E]|[[_ E]|[_ E]]]];
      rewrite E, letter_append in Heq; done.
  - destruct r2 as [|[x2 y2] r2].
    + apply is_walk_cons in H1 as [Hab _]. simpl in Heq.
      apply direction_letter_adjacent in Hab. simpl in Hab.
      destruct Hab as [[_ E]|[[_ E]|[[_ E]|[_ E]]]];
      rewrite E, letter_append in Heq; done.
    + apply is_walk_cons in H1 as [Ha1 H1]. apply is_walk_cons in H2 as [Ha2 H2].
      simpl in Heq.
      apply direction_letter_adjacent in Ha1, Ha2. simpl in Ha1, Ha2.
      destruct Ha1 as [[P1 E1]|[[P1 E1]|[[P1 E1]|[P1 E1]]]];
        destruct Ha2 as [[P2 E2]|[[P2 E2]|[[P2 E2]|[P2 E2]]]];
        rewrite E1, E2, !letter_append in Heq; try discriminate;
        rewrite P1, P2; rewrite P1 in H1, Heq; rewrite P2 in H2, Heq;
        injection Heq as Heq; f_equal; by apply (IH _ _ H1 H2).
Qed.

(** X8.  For paths whose consecutive cells are neighbours in one of the
    four directions (as every path the search stores is), [path_to_str]
    has one letter per move, so one less than the path has cells, and two
    such paths from the same first cell have the same text only when they
    are the same path. *)
Theorem path_to_str_faithful g g' :
  is_walk adjacent (path g) → is_walk adjacent (path g') →
  String.length (path_to_str g) = (length (path g) - 1)%nat
  ∧ (head (path g) = head (path g') → path_to_str g = path_to_str g' →
     path g = path g').
Proof.
  unfold path_to_str. intros H1 H2. split.
  - destruct (path g) as [|a r]; [done|]. rewrite path_letters_length by done.
    simpl. lia.
  - intros Hh Heq. destruct (path g) as [|a r], (path g') as [|a' r'];
      simpl in Hh; try done.
    injection Hh as <-. f_equal. by apply (path_letters_inj a).
Qed.

(** Two paths of the example grid from the same corner. *)
Definition g9_south_east : MazeGenerator := set_path g9 [(0, 0); (0, 1); (1, 1)].
Definition g9_east_south : MazeGenerator := set_path g9 [(0, 0); (1, 0); (1, 1)].

Lemma path_to_str_faithful_witness :
  String.length (path_to_str g9_south_east)
  = (length (path g9_south_east) - 1)%nat
  ∧ (head (path g9_south_east)
     = head (path g9_east_south) →
     path_to_str g9_south_east
     = path_to_str g9_east_south →
     path g9_south_east
     = path g9_east_south).
Proof.
  apply (path_to_str_faithful g9_south_east g9_east_south).
  - simpl. split; [|split; [|exact I]].
    + exists 0, 1, Cell.SOUTH, Cell.NORTH. split; [|reflexivity].
      refine (bool_decide_unpack _ _). vm_compute. exact I.
    + exists 1, 0, Cell.EAST, Cell.WEST. split; [|reflexivity].
      refine (bool_decide_unpack _ _). vm_compute. exact I.
  - simpl. split; [|split; [|exact I]].
    + exists 1, 0, Cell.EAST, Cell.WEST. split; [|reflexivity].
      refine (bool_decide_unpack _ _). vm_compute. exact I.
    + exists 0, 1, Cell.SOUTH, Cell.NORTH. split; [|reflexivity].
      refine (bool_decide_unpack _ _). vm_compute. exact I.
Defined.

(** ** Objects a program can hold *)

(** X9.  The grid of every object a program can hold is empty (before the
    first carve, after an export) or has exactly [height] rows of [width]
    cells whose wall fields are between 0 and 15; a coordinate holds a cell
    exactly when it is inside the grid. *)
Theorem reachable_grid_shape R g :
  reachable R g →
  maze g = []
  ∨ (length (maze g) = Z.to_nat (height g)
     ∧ Forall (fun row => length row = Z.to_nat (width g)
                          ∧ Forall (fun c => 0 ≤ Cell._walls c ≤ 15) row)
              (maze g)
     ∧ ∀ p, is_Some (gcell (maze g) p) ↔ in_grid g p).
Proof.
  intros Hreach. destruct (reachable_gen_inv R g Hreach) as [Hcfg [Hm|Hm]];
    [by left|right].
  pose proof (gi_rect _ _ Hm) as [Hlen Hrows].
  pose proof (walls_in_range_rows _ (gi_range _ _ Hm)) as Hrange.
  split; [done|]. split.
  - apply Forall_forall. intros row Hrow. split.
    + by apply (proj1 (Forall_forall _ _) Hrows).
    + by apply (proj1 (Forall_forall _ _) Hrange).
  - intros p. split.
    + intros [c Hc]. by apply (gcell_in_grid g (maze g) p c (gi_rect _ _ Hm)).
    + apply in_grid_gcell, Hm.
Qed.

Lemma reachable_grid_shape_witness :
  maze g9_braided = []
  ∨ (length (maze g9_braided) = Z.to_nat (height g9_braided)
     ∧ Forall (fun row => length row = Z.to_nat (width g9_braided)
                          ∧ Forall (fun c => 0 ≤ Cell._walls c ≤ 15) row)
              (maze g9_braided)
     ∧ ∀ p, is_Some (gcell (maze g9_braided) p) ↔ in_grid g9_braided p).
Proof. exact (reachable_grid_shape lcg g9_braided g9_braided_reachable). Defined.

Lemma braid_cells_head g :
  cfg_ok g → ∃ rest, braid_cells g = (1, 1) :: rest.
Proof.
  intros Hcfg. pose proof (cfg_width g Hcfg). pose proof (cfg_height g Hcfg).
  unfold braid_cells, py_range.
  destruct (Z.to_nat (height g - 1 - 1)) as [|nh] eqn:Eh; [lia|].
  destruct (Z.to_nat (width g - 1 - 1)) as [|nw] eqn:Ew; [lia|].
  simpl. eauto.
Qed.

(** X10.  [braid_dead_ends] on an object that holds no grid (before the
    first carve, or after [write_output]) raises [IndexError]: the first
    cell its loops look at, [(1, 1)], is never a cell of the pattern, and
    [self.maze[1]] does not exist. *)
Theorem braid_without_grid R g :
  reachable R g → maze g = [] → braid_dead_ends R g = Raise IndexError.
Proof.
  intros Hreach Hm. destruct (reachable_gen_inv R g Hreach) as [Hcfg _].
  destruct (braid_cells_head g Hcfg) as [rest Hcells].
  unfold braid_dead_ends. rewrite Hcells, Hm. simpl.
  assert (_is_not_42_pattern g 1 1 = true) as ->.
  { apply is_not_42_pattern_spec. rewrite (cfg_pattern g Hcfg).
    pose proof (pattern_anchor_bounds _ _ (cfg_width g Hcfg) (cfg_height g Hcfg))
      as Hb.
    destruct (pattern_anchor (width g) (height g)) as [px py].
    intros Hin%pattern_cells_box. simpl in Hin, Hb. lia. }
  simpl. rewrite ?cell_at_empty. done.
Qed.

Lemma braid_without_grid_witness : braid_dead_ends lcg g9 = Raise IndexError.
Proof. apply braid_without_grid; [apply g9_reachable|reflexivity]. Defined.

(** ** Braiding opens walls only *)

Section braid_opens.
Context (R : RandomSource).

(** One pass of the braiding loop closes no passage, and opens passages
    between carvable neighbours only. *)
Lemma braid_cell_opens g (st : grid * rng_state R) p :
  p ∈ braid_cells g → grid_inv g st.1 →
  ∃ st', braid_cell R g st p = Ret st' ∧ grid_inv g st'.1
       ∧ (∀ a b, passage st.1 a b = true → passage st'.1 a b = true)
       ∧ (∀ a b, passage st'.1 a b = true →
            passage st.1 a b = true ∨ (allowed g a ∧ allowed g b)).
Proof.
  intros Hp Hgrid. destruct st as [m rng]. destruct p as [x y].
  apply elem_of_braid_cells in Hp. simpl in Hp, Hgrid.
  unfold braid_cell.
  destruct (_is_not_42_pattern g x y) eqn:Hpat; simpl; [|by eauto 10].
  assert (Hxy : allowed g (x, y)).
  { apply allowed_spec. split; [unfold in_grid; simpl; lia|].
    by apply is_not_42_pattern_spec. }
  destruct (in_grid_gcell g m (x, y)) as [c Hc];
    [apply Hgrid|by apply allowed_in_grid|].
  rewrite (cell_at_ret _ _ _ _ Hc). simpl.
  destruct (_wall_count c =? 3); [|by eauto 10].
  destruct (braid_neighbors g x y) as [|n0 ns0] eqn:Ens; [by eauto 10|].
  rewrite <- Ens.
  assert (Hlen : (0 < length (braid_neighbors g x y))%nat)
    by (rewrite Ens; simpl; lia).
  clear Ens.
  destruct (rng_randint R 0 (Z.of_nat (length (braid_neighbors g x y)) - 1) rng)
    as [idx rng'] eqn:Hr.
  pose proof (rng_randint_range R 0
                (Z.of_nat (length (braid_neighbors g x y)) - 1) rng) as Hrange.
  rewrite Hr in Hrange. simpl in Hrange.
  destruct (py_index_elem_of (braid_neighbors g x y) idx) as (n & -> & Hin);
    [lia|].
  apply braid_neighbors_spec in Hin as (dx & dy & wall & op_wall & -> & Hd & Hal).
  simpl.
  destruct (in_grid_gcell g m (x + dx, y + dy)) as [cn Hcn];
    [apply Hgrid|by apply allowed_in_grid|].
  destruct (remove_wall_pair_ret m x y (x + dx) (y + dy) wall op_wall c cn)
    as (m' & -> & Hcells & Hrect); [done|done|by eapply directions_nonzero|].
  simpl. eexists. split; [done|]. simpl.
  pose proof (passage_carve m m' x y dx dy wall op_wall Hd
                (mk_is_Some _ _ Hc) (mk_is_Some _ _ Hcn) Hcells) as Hpass.
  split; [|split].
  - apply (carve_grid_inv g m m' x y dx dy wall op_wall); try done.
    apply Hrect, Hgrid.
  - intros a b Hab. apply Hpass. by left.
  - intros a b Hab. apply Hpass in Hab as [Hab|[[-> ->]|[-> ->]]]; eauto.
Qed.

Lemma braid_passes_opens g cells m rng :
  (∀ p, p ∈ cells → p ∈ braid_cells g) → grid_inv g m →
  ∃ st', for_each (braid_cell R g) cells (m, rng) = Ret st' ∧ grid_inv g st'.1
       ∧ (∀ a b, passage m a b = true → passage st'.1 a b = true)
       ∧ (∀ a b, passage st'.1 a b = true →
            passage m a b = true ∨ (allowed g a ∧ allowed g b)).
Proof.
  intros Hcells Hgrid.
  apply (for_each_inv (braid_cell R g)
           (fun st => grid_inv g st.1
              ∧ (∀ a b, passage m a b = true → passage st.1 a b = true)
              ∧ (∀ a b, passage st.1 a b = true →
                   passage m a b = true ∨ (allowed g a ∧ allowed g b)))).
  - intros st p Hp (Hst & Hkeep & Hnew).
    destruct (braid_cell_opens g st p (Hcells p Hp) Hst)
      as (st' & Hret & Hst' & Hkeep' & Hnew').
    exists st'. split; [done|]. split; [done|]. split.
    + eauto.
    + intros a b Hab. apply Hnew' in Hab as [Hab|Hab]; eauto.
  - simpl. eauto.
Qed.

Lemma braid_dead_ends_opens g :
  grid_inv g (maze g) →
  ∃ m', braid_dead_ends R g = Ret (set_maze g m') ∧ grid_inv g m'
      ∧ (∀ a b, passage (maze g) a b = true → passage m' a b = true)
      ∧ (∀ a b, passage m' a b = true →
           passage (maze g) a b = true ∨ (allowed g a ∧ allowed g b)).
Proof.
  intros Hgrid. unfold braid_dead_ends.
  destruct (braid_passes_opens g (braid_cells g) (maze g) (rng_seed R (seed g)))
    as ([m' rng'] & -> & Hinv); [done|done|].
  simpl. eauto.
Qed.

End braid_opens.

(** X11.  On an object that holds a grid, [braid_dead_ends] returns and
    changes the grid only; it closes no passage, and every passage it opens
    joins two carvable cells, so the pattern and the outside stay walled
    off and cells joined before stay joined. *)
Theorem braid_opens_only R g :
  reachable R g → maze g ≠ [] →
  ∃ m', braid_dead_ends R g = Ret (set_maze g m')
      ∧ (∀ a b, passage (maze g) a b = true → passage m' a b = true)
      ∧ (∀ a b, passage m' a b = true →
           passage (maze g) a b = true ∨ (allowed g a ∧ allowed g b))
      ∧ (∀ a b, connected_from (fun x y => passage (maze g) x y = true) a b →
           connected_from (fun x y => passage m' x y = true) a b).
Proof.
  intros Hreach Hne.
  destruct (reachable_gen_inv R g Hreach) as [Hcfg [Hm|Hm]]; [done|].
  destruct (braid_dead_ends_opens R g Hm) as (m' & Hret & _ & Hkeep & Hnew).
  exists m'. split; [done|]. split; [done|]. split; [done|].
  intros a b. apply connected_impl. apply Hkeep.
Qed.

Lemma braid_opens_only_witness :
  ∃ m', braid_dead_ends lcg g9_carved = Ret (set_maze g9_carved m')
      ∧ (∀ a b, passage (maze g9_carved) a b = true → passage m' a b = true)
      ∧ (∀ a b, passage m' a b = true →
           passage (maze g9_carved) a b = true
           ∨ (allowed g9_carved a ∧ allowed g9_carved b))
      ∧ (∀ a b,
           connected_from (fun x y => passage (maze g9_carved) x y = true) a b →
           connected_from (fun x y => passage m' x y = true) a b).
Proof.
  apply (braid_opens_only lcg g9_carved g9_carved_reachable).
  vm_compute. discriminate.
Defined.

(** ** Complete runs, in either mode *)

(** What a complete carving run is made of: the events, the tree the loop
    leaves, and the last step, which braids unless the maze is to be
    perfect. *)
Definition carve_run (R : RandomSource) (g : MazeGenerator)
  (evs : list (event * grid)) (g' : MazeGenerator) : Prop :=
  ∃ rest m V E,
    evs = ((entry g, -1), _generate_grid g) :: rest
    ∧ Forall (fun em : event * grid => grid_inv g em.2 ∧ is_wall em.1.2) rest
    ∧ tree_inv g m V E ∧ closed_under g V ∧ length E = length rest
    ∧ (if perfect g then Ret (set_maze g m)
       else braid_dead_ends R (set_maze g m)) = Ret g'.

Section run_shape.
Context (R : RandomSource).

Lemma dfs_steps_run fuel g evs g' :
  cfg_ok g → dfs_steps R fuel g = Ret (evs, g') → carve_run R g evs g'.
Proof.
  intros Hcfg. unfold dfs_steps.
  destruct (tree_inv_start g (cfg_entry g Hcfg)) as (m1 & Hm1 & Htree).
  destruct (entry g) as [ex ey] eqn:He. simpl in Hm1. rewrite Hm1. simpl.
  set (st0 := {| df_maze := m1; df_stack := [(ex, ey)];
                 df_rng := rng_seed R (seed g) |}).
  assert (Hinv : dfs_inv R g st0 [(ex, ey)] []).
  { split; simpl; [done|done|].
    intros v dx dy wall op_wall Hv Hnot. done. }
  pose proof (dfs_loop_spec R fuel g st0 _ _ Hinv) as Hloop.
  destruct (dfs_loop R fuel g st0) as [[rest final]| |]; simpl; [|done..].
  destruct Hloop as (V' & E' & [Htree' Hstack Hclosed] & Hempty & Hlen & Hall).
  intros Hret. apply bind_ret_inv in Hret as (g'' & Hfin & [= <- <-]).
  exists rest, (df_maze final), V', E'. rewrite <- He.
  split; [done|]. split; [done|]. split; [done|]. split; [|done].
  intros v dx dy wall op_wall Hv. apply Hclosed; [done|].
  rewrite Hempty. apply not_elem_of_nil.
Qed.

Lemma prim_steps_run fuel g evs g' :
  cfg_ok g → prim_steps R fuel g = Ret (evs, g') → carve_run R g evs g'.
Proof.
  intros Hcfg. unfold prim_steps.
  destruct (tree_inv_start g (cfg_entry g Hcfg)) as (m1 & Hm1 & Htree).
  destruct (entry g) as [ex ey] eqn:He. simpl in Hm1. rewrite Hm1. simpl.
  pose proof (ti_grid _ _ _ _ Htree) as Hgrid.
  destruct (add_to_frontier_ret g m1 [] ex ey (gi_rect _ _ Hgrid))
    as (fr & -> & Hfrlen & Hfr). simpl.
  set (st0 := {| pf_maze := m1; pf_frontier := fr;
                 pf_rng := rng_seed R (seed g) |}).
  assert (Hinv : prim_inv R g st0 [(ex, ey)] []).
  { split; simpl; [done|..].
    - intros e [He'|He']%Hfr; [by apply elem_of_nil in He'|].
      destruct He' as (dx & dy & w & o & c & -> & Hd & Hal & _).
      simpl. split; [apply list_elem_of_here|]. exists dx, dy. done.
    - intros v dx dy wall op_wall ->%list_elem_of_singleton Hd Hal. simpl in *.
      destruct (in_grid_gcell g m1 (ex + dx, ey + dy)) as [c Hc];
        [apply Hgrid|by apply allowed_in_grid|].
      destruct (Cell.visited c) eqn:Hv.
      + left. by apply (ti_visited _ _ _ _ Htree _ c Hc).
      + right. apply Hfr. right. exists dx, dy, wall, op_wall, c. done. }
  pose proof (prim_loop_spec R fuel g st0 _ _ Hinv) as Hloop.
  destruct (prim_loop R fuel g st0) as [[rest final]| |]; simpl; [|done..].
  destruct Hloop as (V' & E' & [Htree' Hfront Hclosed] & Hempty & Hlen & Hall).
  intros Hret. apply bind_ret_inv in Hret as (g'' & Hfin & [= <- <-]).
  exists rest, (pf_maze final), V', E'. rewrite <- He.
  split; [done|]. split; [done|]. split; [done|]. split; [|done].
  intros v dx dy wall op_wall Hv Hd Hal.
  destruct (Hclosed v dx dy wall op_wall Hv Hd Hal) as [?|Hin]; [done|].
  rewrite Hempty in Hin. by apply elem_of_nil in Hin.
Qed.

(** What follows of a complete run for the object it leaves. *)
Lemma carve_run_result g evs g' :
  cfg_ok g → carve_run R g evs g' →
  ∃ m', g' = set_maze g m' ∧ grid_inv g m'
      ∧ head evs = Some ((entry g, -1), _generate_grid g)
      ∧ Z.of_nat (length evs) = width g * height g - 18
      ∧ Forall (fun em : event * grid => is_wall em.1.2 ∧ grid_inv g em.2)
               (tail evs)
      ∧ (∀ p, allowed g p →
           connected_from (fun a b => passage m' a b = true) (entry g) p)
      ∧ (∀ a b, passage m' a b = true → allowed g a ∧ allowed g b).
Proof.
  intros Hcfg (rest & m & V & E & -> & Hall & Htree & Hclosed & Hlen & Hfin).
  destruct (tree_spanning g m V E Hcfg Htree Hclosed) as [[Hconn Hcarv _] Hcount].
  pose proof (ti_grid _ _ _ _ Htree) as Hgrid.
  pose proof (cfg_width g Hcfg). pose proof (cfg_height g Hcfg).
  assert (Hevs : Z.of_nat (length (((entry g, -1), _generate_grid g) :: rest))
                 = width g * height g - 18) by (simpl; nia).
  assert (Hrest : Forall (fun em : event * grid => is_wall em.1.2 ∧ grid_inv g em.2)
                    rest)
    by (eapply Forall_impl; [exact Hall|]; by intros ? [? ?]).
  destruct (perfect g).
  - injection Hfin as <-. exists m. done.
  - destruct (braid_dead_ends_opens R (set_maze g m))
      as (m' & Hret & Hm' & Hkeep & Hnew); [by apply grid_inv_set_maze|].
    rewrite Hret in Hfin. injection Hfin as <-.
    exists m'. split; [done|]. split; [exact (proj1 (grid_inv_set_maze g m m') Hm')|].
    split; [done|]. split; [done|]. split; [done|]. split.
    + intros p Hp. eapply connected_impl; [|by apply Hconn]. apply Hkeep.
    + intros a b Hab. apply Hnew in Hab as [Hab|Hab]; [by apply Hcarv|done].
Qed.

End run_shape.

(** What a complete run leaves, in either mode: the object differs from
    [g] in its grid only; the first event is the entry with the flag [-1]
    on the fresh grid and every later event carries one of the four wall
    flags and a well-formed grid; there are [W * H - 18] events; in the
    final grid every carvable cell is joined to the entry and passages join
    carvable cells only. *)
Definition carve_post (g : MazeGenerator) (evs : list (event * grid))
  (g' : MazeGenerator) : Prop :=
  ∃ m', g' = set_maze g m' ∧ grid_inv g m'
      ∧ head evs = Some ((entry g, -1), _generate_grid g)
      ∧ Z.of_nat (length evs) = width g * height g - 18
      ∧ Forall (fun em : event * grid => is_wall em.1.2 ∧ grid_inv g em.2)
               (tail evs)
      ∧ (∀ p, allowed g p →
           connected_from (fun a b => passage m' a b = true) (entry g) p)
      ∧ (∀ a b, passage m' a b = true → allowed g a ∧ allowed g b).

(** X12.  On every object a program can hold, with the perfect flag set
    or not and whatever grid and path it holds, [dfs_steps] and
    [prim_steps] run to their end within the iterations [dfs] and [prim]
    allow and raise nothing; each changes the grid only (a stored path
    stays, stale), yields the opening event on the fresh grid and then one
    event per wall removal, [W * H - 18] events in all, and leaves every
    carvable cell joined to the entry, braided or not. *)
Theorem carve_either_mode R g :
  reachable R g →
  (∃ evs g', dfs_steps R (dfs_fuel g) g = Ret (evs, g') ∧ dfs R g = Ret g'
             ∧ carve_post g evs g')
  ∧ (∃ evs g', prim_steps R (prim_fuel g) g = Ret (evs, g') ∧ prim R g = Ret g'
               ∧ carve_post g evs g').
Proof.
  intros Hreach. destruct (reachable_gen_inv R g Hreach) as [Hcfg _]. split.
  - destruct (dfs_returns R g Hcfg) as (evs & g' & Hs & Hd & _).
    exists evs, g'. split; [done|]. split; [done|].
    apply (carve_run_result R); [done|]. by eapply dfs_steps_run.
  - destruct (prim_returns R g Hcfg) as (evs & g' & Hs & Hd & _).
    exists evs, g'. split; [done|]. split; [done|].
    apply (carve_run_result R); [done|]. by eapply prim_steps_run.
Qed.

Lemma carve_either_mode_witness :
  (∃ evs g', dfs_steps lcg (dfs_fuel (set_perfect g9 false)) (set_perfect g9 false)
             = Ret (evs, g')
             ∧ dfs lcg (set_perfect g9 false) = Ret g'
             ∧ carve_post (set_perfect g9 false) evs g')
  ∧ (∃ evs g', prim_steps lcg (prim_fuel (set_perfect g9 false))
                 (set_perfect g9 false) = Ret (evs, g')
               ∧ prim lcg (set_perfect g9 false) = Ret g'
               ∧ carve_post (set_perfect g9 false) evs g').
Proof.
  apply (carve_either_mode lcg (set_perfect g9 false)).
  apply reach_perfect, g9_reachable.
Defined.

(** ** The path search on any object *)

Lemma passage_empty a b : passage [] a b = false.
Proof.
  assert (∀ p w, lacks [] p w = false) as Hl.
  { intros p w. unfold lacks, gcell. by destruct (_ && _). }
  unfold passage, DIRECTIONS. simpl. rewrite !Hl.
  by rewrite !andb_false_r.
Qed.

Lemma grid_inv_nonempty g m : cfg_ok g → grid_inv g m → m ≠ [].
Proof.
  intros Hcfg [[Hlen _] _ _ _] ->. pose proof (cfg_height g Hcfg).
  simpl in Hlen. lia.
Qed.

(** X13.  On every object a program can hold the path search runs to its
    end within the iterations [find_shortest_path] allows and raises
    nothing.  It changes the stored path only, and only when it found one:
    then the last path it yielded is the stored one, a shortest walk from
    the entry to the exit; otherwise the exit cannot be reached and the
    object is left as it was. *)
Theorem find_shortest_path_returns R g :
  reachable R g →
  ∃ ys g', find_shortest_path_steps (sp_fuel g) g = Ret (ys, g')
    ∧ find_shortest_path g = Ret g'
    ∧ ((∃ p, g' = set_path g p ∧ last ys = Some p
          ∧ walk_from_to (fun a b => passage (maze g) a b = true)
              (entry g) (maze_exit g) p
          ∧ ∀ q, walk_from_to (fun a b => passage (maze g) a b = true)
                   (entry g) (maze_exit g) q → (length p ≤ length q)%nat)
       ∨ (g' = g
          ∧ ∀ q, ¬ walk_from_to (fun a b => passage (maze g) a b = true)
                     (entry g) (maze_exit g) q)).
Proof.
  intros Hreach. destruct (reachable_gen_inv R g Hreach) as [Hcfg [Hm|Hm]].
  - exists [], g. unfold find_shortest_path, find_shortest_path_steps.
    rewrite Hm. split; [done|]. split; [done|]. right. split; [done|].
    intros q. apply no_walk_without_passage; [|apply (cfg_distinct g Hcfg)].
    apply passage_empty.
  - pose proof (grid_inv_nonempty g _ Hcfg Hm) as Hne.
    pose proof (find_shortest_path_steps_spec (sp_fuel g) g Hm
                  (allowed_in_grid _ _ (cfg_entry g Hcfg)) Hne) as Hspec.
    unfold find_shortest_path.
    destruct (find_shortest_path_steps (sp_fuel g) g) as [[ys g']| |];
      [|done|lia].
    exists ys, g'. split; [done|]. split; [done|].
    destruct Hspec as [(p & ys' & -> & -> & _ & Hw & Hmin)|(-> & _ & Hno)].
    + left. exists p. split; [done|]. split; [apply last_snoc|done].
    + right. done.
Qed.

Lemma find_shortest_path_returns_witness :
  ∃ ys g', find_shortest_path_steps (sp_fuel g9_braided) g9_braided = Ret (ys, g')
    ∧ find_shortest_path g9_braided = Ret g'
    ∧ ((∃ p, g' = set_path g9_braided p ∧ last ys = Some p
          ∧ walk_from_to (fun a b => passage (maze g9_braided) a b = true)
              (entry g9_braided) (maze_exit g9_braided) p
          ∧ ∀ q, walk_from_to (fun a b => passage (maze g9_braided) a b = true)
                   (entry g9_braided) (maze_exit g9_braided) q →
                 (length p ≤ length q)%nat)
       ∨ (g' = g9_braided
          ∧ ∀ q, ¬ walk_from_to (fun a b => passage (maze g9_braided) a b = true)
                     (entry g9_braided) (maze_exit g9_braided) q)).
Proof. exact (find_shortest_path_returns lcg g9_braided g9_braided_reachable). Defined.

(** ** Carve, solve, export *)

Section solve.
Context (R : RandomSource).

(** After a complete run the search finds a path. *)
Lemma carve_run_solved g evs g1 :
  cfg_ok g → carve_run R g evs g1 →
  ∃ ys p, find_shortest_path_steps (sp_fuel g1) g1 = Ret (ys, set_path g1 p)
    ∧ find_shortest_path g1 = Ret (set_path g1 p)
    ∧ last ys = Some p
    ∧ walk_from_to (fun a b => passage (maze g1) a b = true)
        (entry g1) (maze_exit g1) p
    ∧ ∀ q, walk_from_to (fun a b => passage (maze g1) a b = true)
             (entry g1) (maze_exit g1) q → (length p ≤ length q)%nat.
Proof.
  intros Hcfg Hrun.
  destruct (carve_run_result R g evs g1 Hcfg Hrun)
    as (m' & -> & Hm' & _ & _ & _ & Hconn & _).
  assert (Hcfg' : cfg_ok (set_maze g m')) by (destruct Hcfg; split; done).
  assert (Hm1 : grid_inv (set_maze g m') (maze (set_maze g m')))
    by (by apply grid_inv_set_maze).
  pose proof (grid_inv_nonempty _ _ Hcfg' Hm1) as Hne.
  pose proof (find_shortest_path_steps_spec (sp_fuel (set_maze g m'))
                (set_maze g m') Hm1
                (allowed_in_grid _ _ (cfg_entry _ Hcfg')) Hne) as Hspec.
  unfold find_shortest_path.
  destruct (find_shortest_path_steps (sp_fuel (set_maze g m')) (set_maze g m'))
    as [[ys g']| |]; [|done|lia].
  destruct Hspec as [(p & ys' & -> & -> & _ & Hw & Hmin)|(_ & _ & Hno)].
  - exists (ys' ++ [p]), p. split; [done|]. split; [done|].
    split; [apply last_snoc|done].
  - destruct (Hconn (maze_exit g) (cfg_exit g Hcfg)) as [q Hq].
    by destruct (Hno q).
Qed.

End solve.

(** X14.  A maze carved by [dfs] or [prim], in either mode, always has a
    solution and the search finds it: after the carve, [find_shortest_path]
    stores a walk along passages from the entry to the exit that no other
    such walk undercuts, the last path its generator yields. *)
Theorem carved_maze_solved R g g1 :
  reachable R g → dfs R g = Ret g1 ∨ prim R g = Ret g1 →
  ∃ ys p, find_shortest_path_steps (sp_fuel g1) g1 = Ret (ys, set_path g1 p)
    ∧ find_shortest_path g1 = Ret (set_path g1 p)
    ∧ last ys = Some p
    ∧ walk_from_to (fun a b => passage (maze g1) a b = true)
        (entry g1) (maze_exit g1) p
    ∧ ∀ q, walk_from_to (fun a b => passage (maze g1) a b = true)
             (entry g1) (maze_exit g1) q → (length p ≤ length q)%nat.
Proof.
  intros Hreach Hcarve. destruct (reachable_gen_inv R g Hreach) as [Hcfg _].
  destruct Hcarve as [Hd|Hp].
  - unfold dfs in Hd. apply bind_ret_inv in Hd as ([evs g'] & Hs & [= <-]).
    apply (carve_run_solved R g evs); [done|]. by eapply dfs_steps_run.
  - unfold prim in Hp. apply bind_ret_inv in Hp as ([evs g'] & Hs & [= <-]).
    apply (carve_run_solved R g evs); [done|]. by eapply prim_steps_run.
Qed.

Lemma g9_dfs : dfs lcg g9 = Ret g9_carved.
Proof. vm_compute. reflexivity. Qed.

Lemma carved_maze_solved_witness :
  ∃ ys p, find_shortest_path_steps (sp_fuel g9_carved) g9_carved
          = Ret (ys, set_path g9_carved p)
    ∧ find_shortest_path g9_carved = Ret (set_path g9_carved p)
    ∧ last ys = Some p
    ∧ walk_from_to (fun a b => passage (maze g9_carved) a b = true)
        (entry g9_carved) (maze_exit g9_carved) p
    ∧ ∀ q, walk_from_to (fun a b => passage (maze g9_carved) a b = true)
             (entry g9_carved) (maze_exit g9_carved) q →
           (length p ≤ length q)%nat.
Proof.
  apply (carved_maze_solved lcg g9 g9_carved (g9_reachable lcg)).
  left. exact g9_dfs.
Defined.



(** ** Openings never face the outside or the pattern *)

(** Every wall a cell of the grid lacks faces a carvable neighbour, and
    the cell is carvable itself. *)
Definition openings_inside (g : MazeGenerator) (m : grid) : Prop :=
  ∀ a c dx dy wall op_wall,
    gcell m a = Some c → (dx, dy, wall, op_wall) ∈ DIRECTIONS →
    Cell.has_wall c wall = false →
    allowed g a ∧ allowed g (a.1 + dx, a.2 + dy).

Lemma openings_fresh g : openings_inside g (_generate_grid g).
Proof.
  intros a c dx dy wall op_wall ->%generate_grid_gcell Hd Hw.
  dir_cases Hd; done.
Qed.

Lemma openings_empty g : openings_inside g [].
Proof.
  intros a c dx dy wall op_wall Hc. unfold gcell in Hc.
  by destruct (_ && _).
Qed.

Lemma openings_carve g m m' x y dx dy wall op_wall :
  openings_inside g m →
  (dx, dy, wall, op_wall) ∈ DIRECTIONS →
  allowed g (x, y) → allowed g (x + dx, y + dy) →
  (∀ p, gcell m' p
        = carve_fn (x, y) (x + dx, y + dy) wall op_wall p <$> gcell m p) →
  openings_inside g m'.
Proof.
  intros Hin Hd Hxy Hnb Hm' a c' dx' dy' w' op' Hc' Hd' Hw'.
  pose proof (directions_walls _ _ _ _ Hd) as [Hwall Hop].
  pose proof (directions_walls _ _ _ _ Hd') as [Hwall' _].
  pose proof (directions_nonzero _ _ _ _ x y Hd) as Hne.
  rewrite Hm' in Hc'. destruct (gcell m a) as [c|] eqn:Hc; [|done].
  simpl in Hc'. injection Hc' as <-.
  rewrite has_wall_carve_fn in Hw' by done.
  apply andb_false_iff in Hw' as [Hw'|Hw']; [by eapply Hin|].
  apply negb_false_iff, bool_decide_eq_true in Hw'.
  destruct Hw' as [[-> ->]|[-> ->]].
  - destruct (directions_wall_op _ _ _ _ _ _ _ Hd Hd') as (-> & -> & _).
    split; [done|]. simpl.
    by replace (x + dx + - dx, y + dy + - dy) with (x, y) by (f_equal; lia).
  - destruct (directions_wall_inj _ _ _ _ _ _ _ Hd Hd') as (-> & -> & _).
    done.
Qed.

Lemma openings_visit g m m' (f : Cell.t → Cell.t) q :
  openings_inside g m →
  (∀ c, Cell._walls (f c) = Cell._walls c) →
  (∀ p, gcell m' p = (if decide (p = q) then f else id) <$> gcell m p) →
  openings_inside g m'.
Proof.
  intros Hin Hf Hm' a c' dx dy wall op_wall Hc' Hd Hw.
  rewrite Hm' in Hc'. destruct (gcell m a) as [c|] eqn:Hc; [|done].
  simpl in Hc'. injection Hc' as <-.
  apply (Hin a c dx dy wall op_wall Hc Hd).
  unfold Cell.has_wall in *. case_decide; [by rewrite Hf in Hw|done].
Qed.

Lemma openings_fields g g' m :
  width g' = width g → height g' = height g → pattern_42 g' = pattern_42 g →
  openings_inside g m → openings_inside g' m.
Proof.
  intros Hw Hh Hp Hin a c dx dy wall op_wall Hc Hd Hwall.
  destruct (Hin a c dx dy wall op_wall Hc Hd Hwall) as [H1 H2].
  unfold allowed, _in_maze_bounds, _is_not_42_pattern in *.
  rewrite Hw, Hh, Hp. done.
Qed.

Lemma for_each_pres {A S} (body : S → A → run S) (P : S → Prop)
  (items : list A) (s s' : S) :
  (∀ s a s', a ∈ items → P s → body s a = Ret s' → P s') →
  P s → for_each body items s = Ret s' → P s'.
Proof.
  revert s. induction items as [|a items IH]; intros s Hbody Hs; simpl.
  - by intros [= <-].
  - intros (s1 & H1 & H2)%bind_ret_inv.
    apply (IH s1); [|by eapply Hbody; [apply list_elem_of_here|..]|done].
    intros s0 a0 s0' Ha0. apply Hbody. by apply list_elem_of_further.
Qed.

Section openings.
Context (R : RandomSource).

(** One carving step of either loop. *)
Lemma carve_step_openings g m V E x y dx dy wall op_wall cw m1 m2 :
  tree_inv g m V E → (x, y) ∈ V →
  (dx, dy, wall, op_wall) ∈ DIRECTIONS → allowed g (x + dx, y + dy) →
  gcell m (x + dx, y + dy) = Some cw →
  remove_wall_pair m x y (x + dx) (y + dy) wall op_wall = Ret m1 →
  update_cell (Cell.set_visited true) m1 (x + dx) (y + dy) = Ret m2 →
  openings_inside g m → openings_inside g m1 ∧ openings_inside g m2.
Proof.
  intros Htree Hu Hd Hnb Hcw Hm1 Hm2 Hin.
  pose proof (ti_grid _ _ _ _ Htree) as Hgrid.
  pose proof (ti_allowed _ _ _ _ Htree _ Hu) as Hxy.
  destruct (in_grid_gcell g m (x, y)) as [cu Hcu];
    [apply Hgrid|by apply allowed_in_grid|].
  pose proof (directions_nonzero _ _ _ _ x y Hd) as Hne.
  destruct (remove_wall_pair_ret m x y (x + dx) (y + dy) wall op_wall cu cw)
    as (m1' & Hm1' & Hcells1 & _); [done..|].
  rewrite Hm1 in Hm1'. injection Hm1' as <-.
  assert (Hin1 : openings_inside g m1)
    by (by apply (openings_carve g m m1 x y dx dy wall op_wall)).
  split; [done|].
  assert (Hcw1 : gcell m1 (x + dx, y + dy) = Some (_remove_wall cw op_wall)).
  { rewrite Hcells1, Hcw. simpl. unfold carve_fn. by rewrite decide_True. }
  destruct (update_cell_ret (Cell.set_visited true) _ _ _ _ Hcw1)
    as (m2' & Hm2' & Hcells2 & _).
  rewrite Hm2 in Hm2'. injection Hm2' as <-.
  eapply (openings_visit g m1 m2 (Cell.set_visited true) (x + dx, y + dy));
    [done|done|].
  intros p. rewrite Hcells2. case_decide; [subst; by rewrite Hcw1|].
  by destruct (gcell m1 p).
Qed.

Lemma dfs_iter_openings g st V E st' ev :
  dfs_inv R g st V E → dfs_iter R g st = Ret (st', ev) →
  openings_inside g (df_maze st) →
  openings_inside g (df_maze st')
  ∧ ∀ e m1, ev = Some (e, m1) → openings_inside g m1.
Proof.
  intros [Htree Hstack Hclosed]. unfold dfs_iter.
  destruct st as [m stack rng]. simpl in *.
  destruct stack as [|[x y] below]; [by intros [= <- <-]|].
  assert (Hxy : (x, y) ∈ V) by (apply Hstack, list_elem_of_here).
  pose proof (ti_grid _ _ _ _ Htree) as Hgrid.
  destruct (in_grid_gcell g m (x, y)) as [cu Hcu];
    [apply Hgrid|by apply allowed_in_grid, (ti_allowed _ _ _ _ Htree)|].
  rewrite (cell_at_ret _ _ _ _ Hcu). simpl.
  destruct (unvisited_neighbors_ret g m x y DIRECTIONS (gi_rect _ _ Hgrid))
    as (ns & -> & _ & Hns). simpl.
  destruct ns as [|n0 ns0] eqn:Ens; [by intros [= <- <-]|].
  rewrite <- Ens in *.
  assert (Hlen : (0 < length ns)%nat) by (rewrite Ens; simpl; lia).
  clear Ens.
  destruct (rng_randint R 0 (Z.of_nat (length ns) - 1) rng)
    as [idx rng'] eqn:Hr.
  pose proof (rng_randint_range R 0 (Z.of_nat (length ns) - 1) rng) as Hrange.
  rewrite Hr in Hrange. simpl in Hrange.
  destruct (py_index_elem_of ns idx) as (n & Hn & Hin); [lia|].
  try (replace (match ns with [] => _ | _ :: _ => _ end)
    with ('(next_x, next_y, wall, op_wall) ← py_index ns idx;
          _ ← cell_at m next_x next_y;
          m1 ← remove_wall_pair m x y next_x next_y wall op_wall;
          m2 ← update_cell (Cell.set_visited true) m1 next_x next_y;
          Ret ({| df_maze := m2;
                  df_stack := (next_x, next_y) :: (x, y) :: below;
                  df_rng := rng' |},
               Some (((x, y), wall), m1)))
    by (destruct ns; [simpl in Hlen; lia|done])).
  rewrite Hn. simpl.
  apply Hns in Hin as (dx & dy & wall & op_wall & c & -> & Hd & Hal & Hc & Hv).
  rewrite (cell_at_ret _ _ _ _ Hc). simpl.
  intros (m1 & Hm1 & Hrest)%bind_ret_inv.
  apply bind_ret_inv in Hrest as (m2 & Hm2 & [= <- <-]).
  intros Hopen. simpl.
  destruct (carve_step_openings g m V E x y dx dy wall op_wall c m1 m2)
    as [H1 H2]; try done.
  split; [done|]. by intros e m1' [= _ <-].
Qed.

Lemma dfs_loop_openings fuel g st V E evs final :
  dfs_inv R g st V E → dfs_loop R fuel g st = Ret (evs, final) →
  openings_inside g (df_maze st) →
  openings_inside g (df_maze final)
  ∧ Forall (fun em : event * grid => openings_inside g em.2) evs.
Proof.
  revert st V E evs. induction fuel as [|fuel IH]; intros st V E evs Hinv; simpl.
  - destruct (df_stack st); [|done]. by intros [= <- <-].
  - destruct (df_stack st) eqn:Hs; [by intros [= <- <-]|].
    destruct (dfs_iter_ret R g st V E Hinv)
      as (st' & ev & V' & E' & Hiter & Hinv' & _); [by rewrite Hs|].
    rewrite Hiter. simpl.
    intros ([evs' final'] & Hloop & [= <- <-])%bind_ret_inv Hopen.
    destruct (dfs_iter_openings g st V E st' ev Hinv Hiter Hopen) as [H1 H2].
    destruct (IH st' V' E' evs' Hinv' Hloop H1) as [H3 H4].
    split; [done|]. apply Forall_app. split; [|done].
    destruct ev as [[e m1]|]; simpl; [|done].
    apply Forall_singleton. by eapply H2.
Qed.

Lemma prim_iter_openings g st V E st' ev :
  prim_inv R g st V E → pf_frontier st ≠ [] →
  prim_iter R g st = Ret (st', ev) →
  openings_inside g (pf_maze st) →
  openings_inside g (pf_maze st')
  ∧ ∀ e m1, ev = Some (e, m1) → openings_inside g m1.
Proof.
  intros [Htree Hfront Hclosed] Hne. unfold prim_iter.
  destruct st as [m frontier rng]. simpl in *.
  assert (Hlen : (0 < length frontier)%nat)
    by (destruct frontier; [done|simpl; lia]).
  destruct (rng_randint R 0 (Z.of_nat (length frontier) - 1) rng)
    as [idx rng'] eqn:Hr.
  pose proof (rng_randint_range R 0 (Z.of_nat (length frontier) - 1) rng)
    as Hrange.
  rewrite Hr in Hrange. simpl in Hrange.
  rewrite py_norm_index_ret by lia. simpl.
  destruct (lookup_lt_is_Some_2 frontier (Z.to_nat idx)) as [e He]; [lia|].
  rewrite He.
  pose proof (Hfront e (list_elem_of_lookup_2 _ _ _ He)) as Hok.
  destruct e as [[[[[cx cy] nx] ny] wall] op_wall]. simpl in Hok.
  destruct Hok as (Hc & dx & dy & Hd & -> & -> & Hal).
  pose proof (ti_grid _ _ _ _ Htree) as Hgrid.
  destruct (in_grid_gcell g m (cx + dx, cy + dy)) as [ct Hct];
    [apply Hgrid|by apply allowed_in_grid|].
  rewrite (cell_at_ret _ _ _ _ Hct). simpl.
  destruct (Cell.visited ct) eqn:Hv; simpl; [by intros [= <- <-]|].
  intros (m1 & Hm1 & Hrest)%bind_ret_inv.
  apply bind_ret_inv in Hrest as (m2 & Hm2 & Hrest).
  apply bind_ret_inv in Hrest as (fr & _ & [= <- <-]).
  intros Hopen. simpl.
  destruct (carve_step_openings g m V E cx cy dx dy wall op_wall ct m1 m2)
    as [H1 H2]; try done.
  split; [done|]. by intros e m1' [= _ <-].
Qed.

Lemma prim_loop_openings fuel g st V E evs final :
  prim_inv R g st V E → prim_loop R fuel g st = Ret (evs, final) →
  openings_inside g (pf_maze st) →
  openings_inside g (pf_maze final)
  ∧ Forall (fun em : event * grid => openings_inside g em.2) evs.
Proof.
  revert st V E evs. induction fuel as [|fuel IH]; intros st V E evs Hinv; simpl.
  - destruct (pf_frontier st); [|done]. by intros [= <- <-].
  - destruct (pf_frontier st) eqn:Hs; [by intros [= <- <-]|].
    destruct (prim_iter_ret R g st V E Hinv)
      as (st' & ev & V' & E' & Hiter & Hinv' & _); [by rewrite Hs|].
    rewrite Hiter. simpl.
    intros ([evs' final'] & Hloop & [= <- <-])%bind_ret_inv Hopen.
    destruct (prim_iter_openings g st V E st' ev Hinv) as [H1 H2];
      [by rewrite Hs|done|done|].
    destruct (IH st' V' E' evs' Hinv' Hloop H1) as [H3 H4].
    split; [done|]. apply Forall_app. split; [|done].
    destruct ev as [[e m1]|]; simpl; [|done].
    apply Forall_singleton. by eapply H2.
Qed.

Lemma braid_cell_openings g (st st' : grid * rng_state R) p :
  p ∈ braid_cells g → grid_inv g st.1 → braid_cell R g st p = Ret st' →
  openings_inside g st.1 → grid_inv g st'.1 ∧ openings_inside g st'.1.
Proof.
  intros Hp Hgrid. destruct st as [m rng]. destruct p as [x y].
  apply elem_of_braid_cells in Hp. simpl in Hp, Hgrid.
  unfold braid_cell.
  destruct (_is_not_42_pattern g x y) eqn:Hpat; simpl; [|by intros [= <-]].
  assert (Hxy : allowed g (x, y)).
  { apply allowed_spec. split; [unfold in_grid; simpl; lia|].
    by apply is_not_42_pattern_spec. }
  destruct (in_grid_gcell g m (x, y)) as [c Hc];
    [apply Hgrid|by apply allowed_in_grid|].
  rewrite (cell_at_ret _ _ _ _ Hc). simpl.
  destruct (_wall_count c =? 3); [|by intros [= <-]].
  destruct (braid_neighbors g x y) as [|n0 ns0] eqn:Ens; [by intros [= <-]|].
  rewrite <- Ens.
  assert (Hlen : (0 < length (braid_neighbors g x y))%nat)
    by (rewrite Ens; simpl; lia).
  clear Ens.
  destruct (rng_randint R 0 (Z.of_nat (length (braid_neighbors g x y)) - 1) rng)
    as [idx rng'] eqn:Hr.
  pose proof (rng_randint_range R 0
                (Z.of_nat (length (braid_neighbors g x y)) - 1) rng) as Hrange.
  rewrite Hr in Hrange. simpl in Hrange.
  destruct (py_index_elem_of (braid_neighbors g x y) idx) as (n & -> & Hin);
    [lia|].
  apply braid_neighbors_spec in Hin as (dx & dy & wall & op_wall & -> & Hd & Hal).
  simpl.
  destruct (in_grid_gcell g m (x + dx, y + dy)) as [cn Hcn];
    [apply Hgrid|by apply allowed_in_grid|].
  destruct (remove_wall_pair_ret m x y (x + dx) (y + dy) wall op_wall c cn)
    as (m' & -> & Hcells & Hrect); [done|done|by eapply directions_nonzero|].
  simpl. intros [= <-] Hopen. simpl. split.
  - apply (carve_grid_inv g m m' x y dx dy wall op_wall); try done.
    apply Hrect, Hgrid.
  - by apply (openings_carve g m m' x y dx dy wall op_wall).
Qed.

Lemma braid_passes_openings g cells m rng st' :
  (∀ p, p ∈ cells → p ∈ braid_cells g) → grid_inv g m →
  for_each (braid_cell R g) cells (m, rng) = Ret st' →
  openings_inside g m → openings_inside g st'.1.
Proof.
  intros Hcells Hgrid Hrun Hopen.
  apply (for_each_pres (braid_cell R g)
           (fun st => grid_inv g st.1 ∧ openings_inside g st.1)
           cells (m, rng) st'); [|done|done].
  intros s a s' Ha [Hg Ho] Hbody.
  by apply (braid_cell_openings g s s' a (Hcells a Ha)).
Qed.

(** A complete run, the last step included. *)
Lemma carve_run_openings g evs g' :
  cfg_ok g →
  (∃ rest m V E,
     evs = ((entry g, -1), _generate_grid g) :: rest
     ∧ Forall (fun em : event * grid => openings_inside g em.2) rest
     ∧ tree_inv g m V E ∧ openings_inside g m
     ∧ (if perfect g then Ret (set_maze g m)
        else braid_dead_ends R (set_maze g m)) = Ret g') →
  openings_inside g (maze g')
  ∧ Forall (fun em : event * grid => openings_inside g em.2) evs.
Proof.
  intros Hcfg (rest & m & V & E & -> & Hall & Htree & Hopen & Hfin).
  split; [|apply Forall_cons; split; [apply openings_fresh|done]].
  destruct (perfect g); [by injection Hfin as <-|].
  unfold braid_dead_ends in Hfin.
  apply bind_ret_inv in Hfin as ([m' rng'] & Hrun & [= <-]). simpl in *.
  apply (braid_passes_openings (set_maze g m) _ _ _ _
           (fun p Hp => Hp)) in Hrun.
  - by apply (openings_fields (set_maze g m) g).
  - apply grid_inv_set_maze, Htree.
  - by apply (openings_fields g (set_maze g m)).
Qed.

Lemma start_openings g m1 :
  update_cell (Cell.set_visited true) (_generate_grid g)
    (entry g).1 (entry g).2 = Ret m1 →
  allowed g (entry g) → openings_inside g m1.
Proof.
  intros Hm1 Hentry.
  destruct (in_grid_gcell g (_generate_grid g) (entry g)) as [c Hc];
    [apply generate_grid_rect|by apply allowed_in_grid|].
  destruct (entry g) as [ex ey] eqn:He. simpl in Hm1.
  destruct (update_cell_ret (Cell.set_visited true) _ _ _ _ Hc)
    as (m1' & Hm1' & Hcells & _).
  rewrite Hm1 in Hm1'. injection Hm1' as <-.
  apply (openings_visit g (_generate_grid g) m1 (Cell.set_visited true) (ex, ey));
    [apply openings_fresh|done|].
  intros p. rewrite Hcells. case_decide; [subst; by rewrite Hc|].
  by destruct (gcell _ p).
Qed.

Lemma dfs_steps_openings fuel g evs g' :
  cfg_ok g → dfs_steps R fuel g = Ret (evs, g') →
  openings_inside g (maze g')
  ∧ Forall (fun em : event * grid => openings_inside g em.2) evs.
Proof.
  intros Hcfg Hrun. apply carve_run_openings; [done|]. revert Hrun.
  unfold dfs_steps.
  destruct (tree_inv_start g (cfg_entry g Hcfg)) as (m1 & Hm1 & Htree).
  pose proof (start_openings g m1 Hm1 (cfg_entry g Hcfg)) as Hopen.
  destruct (entry g) as [ex ey] eqn:He. simpl in Hm1. rewrite Hm1. simpl.
  set (st0 := {| df_maze := m1; df_stack := [(ex, ey)];
                 df_rng := rng_seed R (seed g) |}).
  assert (Hinv : dfs_inv R g st0 [(ex, ey)] []).
  { split; simpl; [done|done|].
    intros v dx dy wall op_wall Hv Hnot. done. }
  pose proof (dfs_loop_spec R fuel g st0 _ _ Hinv) as Hloop.
  destruct (dfs_loop R fuel g st0) as [[rest final]| |] eqn:Hl; simpl; [|done..].
  destruct Hloop as (V' & E' & [Htree' _ _] & _).
  destruct (dfs_loop_openings fuel g st0 _ _ rest final Hinv Hl Hopen)
    as [Hfin Hall].
  intros Hret. apply bind_ret_inv in Hret as (g'' & Hg'' & [= <- <-]).
  exists rest, (df_maze final), V', E'. done.
Qed.

Lemma prim_steps_openings fuel g evs g' :
  cfg_ok g → prim_steps R fuel g = Ret (evs, g') →
  openings_inside g (maze g')
  ∧ Forall (fun em : event * grid => openings_inside g em.2) evs.
Proof.
  intros Hcfg Hrun. apply carve_run_openings; [done|]. revert Hrun.
  unfold prim_steps.
  destruct (tree_inv_start g (cfg_entry g Hcfg)) as (m1 & Hm1 & Htree).
  pose proof (start_openings g m1 Hm1 (cfg_entry g Hcfg)) as Hopen.
  destruct (entry g) as [ex ey] eqn:He. simpl in Hm1. rewrite Hm1. simpl.
  pose proof (ti_grid _ _ _ _ Htree) as Hgrid.
  destruct (add_to_frontier_ret g m1 [] ex ey (gi_rect _ _ Hgrid))
    as (fr & -> & Hfrlen & Hfr). simpl.
  set (st0 := {| pf_maze := m1; pf_frontier := fr;
                 pf_rng := rng_seed R (seed g) |}).
  assert (Hinv : prim_inv R g st0 [(ex, ey)] []).
  { split; simpl; [done|..].
    - intros e [He'|He']%Hfr; [by apply elem_of_nil in He'|].
      destruct He' as (dx & dy & w & o & c & -> & Hd & Hal & _).
      simpl. split; [apply list_elem_of_here|]. exists dx, dy. done.
    - intros v dx dy wall op_wall ->%list_elem_of_singleton Hd Hal. simpl in *.
      destruct (in_grid_gcell g m1 (ex + dx, ey + dy)) as [c Hc];
        [apply Hgrid|by apply allowed_in_grid|].
      destruct (Cell.visited c) eqn:Hv.
      + left. by apply (ti_visited _ _ _ _ Htree _ c Hc).
      + right. apply Hfr. right. exists dx, dy, wall, op_wall, c. done. }
  pose proof (prim_loop_spec R fuel g st0 _ _ Hinv) as Hloop.
  destruct (prim_loop R fuel g st0) as [[rest final]| |] eqn:Hl; simpl; [|done..].
  destruct Hloop as (V' & E' & [Htree' _ _] & _).
  destruct (prim_loop_openings fuel g st0 _ _ rest final Hinv Hl Hopen)
    as [Hfin Hall].
  intros Hret. apply bind_ret_inv in Hret as (g'' & Hg'' & [= <- <-]).
  exists rest, (pf_maze final), V', E'. done.
Qed.

Lemma reachable_openings g : reachable R g → openings_inside g (maze g).
Proof.
  induction 1 as
    [ds w h e x o p s g Hinit
    |g fuel evs g' Hreach IH Hrun
    |g fuel evs g' ev m Hreach IH Hrun Hin
    |g fuel evs g' Hreach IH Hrun
    |g fuel evs g' ev m Hreach IH Hrun Hin
    |g g' Hreach IH Hrun
    |g k m rng Hreach IH Hrun
    |g fuel ys g' Hreach IH Hrun
    |g can_open text g' Hreach IH Hrun
    |g s Hreach IH
    |g b Hreach IH].
  - apply init_ret in Hinit as (_ & -> & _). apply openings_empty.
  - destruct (reachable_gen_inv R g Hreach) as [Hcfg _].
    pose proof (dfs_steps_spec R fuel g Hcfg) as Hs. rewrite Hrun in Hs.
    destruct Hs as (_ & _ & _ & _ & m' & _ & _ & _ & _ & _ & -> & _).
    destruct (dfs_steps_openings fuel g evs _ Hcfg Hrun) as [Ho _].
    by apply (openings_fields g).
  - destruct (reachable_gen_inv R g Hreach) as [Hcfg _].
    destruct (dfs_steps_openings fuel g evs _ Hcfg Hrun) as [_ Ho].
    rewrite Forall_forall in Ho. apply (openings_fields g); [done..|].
    apply (Ho _ Hin).
  - destruct (reachable_gen_inv R g Hreach) as [Hcfg _].
    pose proof (prim_steps_spec R fuel g Hcfg) as Hs. rewrite Hrun in Hs.
    destruct Hs as (_ & _ & _ & _ & m' & _ & _ & _ & _ & _ & -> & _).
    destruct (prim_steps_openings fuel g evs _ Hcfg Hrun) as [Ho _].
    by apply (openings_fields g).
  - destruct (reachable_gen_inv R g Hreach) as [Hcfg _].
    destruct (prim_steps_openings fuel g evs _ Hcfg Hrun) as [_ Ho].
    rewrite Forall_forall in Ho. apply (openings_fields g); [done..|].
    apply (Ho _ Hin).
  - destruct (reachable_gen_inv R g Hreach) as [Hcfg [Hm|Hm]].
    + unfold braid_dead_ends in Hrun. rewrite Hm in Hrun.
      apply bind_ret_inv in Hrun as ([m rng] & Hrun & [= <-]).
      apply braid_passes_empty in Hrun as ->. apply openings_empty.
    + unfold braid_dead_ends in Hrun.
      apply bind_ret_inv in Hrun as ([m rng] & Hrun & [= <-]).
      apply (openings_fields g); [done..|]. simpl.
      by apply (braid_passes_openings g _ _ _ _ (fun p Hp => Hp) Hm Hrun).
  - destruct (reachable_gen_inv R g Hreach) as [Hcfg [Hm|Hm]].
    + rewrite Hm in Hrun. apply braid_passes_empty in Hrun as ->.
      apply openings_empty.
    + apply (openings_fields g); [done..|]. simpl.
      apply (braid_passes_openings g _ _ _ _
               (fun p Hp => elem_of_sublist _ _ _ Hp (sublist_take _ _))
               Hm Hrun IH).
  - apply find_shortest_path_steps_frame in Hrun as [->|[p ->]]; [done|].
    by apply (openings_fields g).
  - apply write_output_ret in Hrun as (_ & -> & _). apply openings_empty.
  - by apply (openings_fields g).
  - by apply (openings_fields g).
Qed.

End openings.

(** X16.  In the grid of every object a program can hold, a wall that a
    cell lacks faces a carvable neighbour and the cell is carvable itself:
    no run, suspended or complete, braided or not, opens a wall towards the
    outside of the grid or towards a cell of the pattern.  In particular
    the cells on the rim keep their outer walls. *)
Theorem openings_stay_inside R g a c :
  reachable R g → gcell (maze g) a = Some c →
  (∀ dx dy wall op_wall,
     (dx, dy, wall, op_wall) ∈ DIRECTIONS → Cell.has_wall c wall = false →
     allowed g a ∧ allowed g (a.1 + dx, a.2 + dy))
  ∧ (a.2 = 0 → Cell.has_north_wall c = true)
  ∧ (a.1 = width g - 1 → Cell.has_east_wall c = true)
  ∧ (a.2 = height g - 1 → Cell.has_south_wall c = true)
  ∧ (a.1 = 0 → Cell.has_west_wall c = true).
Proof.
  intros Hreach Hc. pose proof (reachable_openings R g Hreach) as Hopen.
  assert (Hrim : ∀ dx dy wall op_wall,
            (dx, dy, wall, op_wall) ∈ DIRECTIONS →
            ¬ in_grid g (a.1 + dx, a.2 + dy) → Cell.has_wall c wall = true).
  { intros dx dy wall op_wall Hd Hout.
    destruct (Cell.has_wall c wall) eqn:Hw; [done|].
    destruct (Hopen a c dx dy wall op_wall Hc Hd Hw) as [_ Hal].
    by apply allowed_in_grid in Hal. }
  split; [intros dx dy wall op_wall; by apply Hopen|].
  split; [|split; [|split]]; intros Ha.
  - apply (Hrim 0 (-1) Cell.NORTH Cell.SOUTH).
    + unfold DIRECTIONS. rewrite !elem_of_cons. tauto.
    + unfold in_grid. simpl. lia.
  - apply (Hrim 1 0 Cell.EAST Cell.WEST).
    + unfold DIRECTIONS. rewrite !elem_of_cons. tauto.
    + unfold in_grid. simpl. lia.
  - apply (Hrim 0 1 Cell.SOUTH Cell.NORTH).
    + unfold DIRECTIONS. rewrite !elem_of_cons. tauto.
    + unfold in_grid. simpl. lia.
  - apply (Hrim (-1) 0 Cell.WEST Cell.EAST).
    + unfold DIRECTIONS. rewrite !elem_of_cons. tauto.
    + unfold in_grid. simpl. lia.
Qed.

(** The corner cell of the carved example. *)
Definition g9_corner : Cell.t :=
  match gcell (maze g9_carved) (0, 0) with
  | Some c => c
  | None => Cell.__init__
  end.

Lemma g9_corner_cell : gcell (maze g9_carved) (0, 0) = Some g9_corner.
Proof. vm_compute. reflexivity. Qed.

Lemma openings_stay_inside_witness :
  (∀ dx dy wall op_wall,
     (dx, dy, wall, op_wall) ∈ DIRECTIONS →
     Cell.has_wall g9_corner wall = false →
     allowed g9_carved (0, 0) ∧ allowed g9_carved (0 + dx, 0 + dy))
  ∧ (0 = 0 → Cell.has_north_wall g9_corner = true)
  ∧ (0 = width g9_carved - 1 → Cell.has_east_wall g9_corner = true)
  ∧ (0 = height g9_carved - 1 → Cell.has_south_wall g9_corner = true)
  ∧ (0 = 0 → Cell.has_west_wall g9_corner = true).
Proof.
  exact (openings_stay_inside lcg g9_carved (0, 0) g9_corner
           g9_carved_reachable g9_corner_cell).
Defined.

(** ** The speed buttons of the visualizer *)

(** X17.  Whatever sequence of presses of the two speed buttons follows
    the construction of an animation, its speed stays between 1 and 11, so
    the test [tick % speed] of the animation loop never divides by zero;
    the upper end is 11 (six presses of the button that slows it down
    reach it), not the 9 of the message the button prints.  Without an
    animation the buttons do nothing. *)
Theorem speed_buttons_bounds (presses : list speed_button) :
  (∃ a, fold_left press presses (Some Anim_init) = Some a
        ∧ 1 ≤ speed a ≤ 11 ∧ tick a = tick Anim_init
        ∧ is_Some (step_due a))
  ∧ fold_left press presses None = None
  ∧ (speed <$> fold_left press (replicate 6 DecSpeed) (Some Anim_init)) = Some 11
  ∧ (speed <$> fold_left press (replicate 4 IncSpeed) (Some Anim_init)) = Some 1.
Proof.
  split; [|split; [|split; reflexivity]].
  - assert (Hgen : ∀ a0, 1 ≤ speed a0 ≤ 11 →
              ∃ a, fold_left press presses (Some a0) = Some a
                   ∧ 1 ≤ speed a ≤ 11 ∧ tick a = tick a0).
    { induction presses as [|b presses IH]; intros a0 Ha0; simpl.
      - eauto.
      - destruct b; simpl.
        + destruct (Z.ltb_spec 1 (speed a0)).
          * destruct (IH {| tick := tick a0; speed := speed a0 - 1 |})
              as (a & Ha & Hs & Ht); [simpl; lia|]. eauto.
          * by apply IH.
        + destruct (Z.leb_spec (speed a0) 10).
          * destruct (IH {| tick := tick a0; speed := speed a0 + 1 |})
              as (a & Ha & Hs & Ht); [simpl; lia|]. eauto.
          * by apply IH. }
    destruct (Hgen Anim_init) as (a & Ha & Hs & Ht); [simpl; lia|].
    exists a. split; [done|]. split; [done|]. split; [done|].
    unfold step_due. destruct (Z.eqb_spec (speed a) 0); [lia|by eexists].
  - induction presses as [|b presses IH]; [done|]. by destruct b.
Qed.

(** ** Routes in a perfect maze *)

Lemma is_walk_tail (edge : coord → coord → Prop) a p :
  is_walk edge (a :: p) → is_walk edge p.
Proof. destruct p as [|b p]; [done|]. by intros [_ ?]. Qed.

Lemma is_walk_app_r (edge : coord → coord → Prop) l1 l2 :
  is_walk edge (l1 ++ l2) → is_walk edge l2.
Proof.
  induction l1 as [|a l1 IH]; [done|]. intros H. apply IH.
  by apply (is_walk_tail edge a).
Qed.

Lemma is_walk_app_l (edge : coord → coord → Prop) l1 l2 :
  is_walk edge (l1 ++ l2) → is_walk edge l1.
Proof.
  induction l1 as [|a l1 IH]; [done|]. destruct l1 as [|b l1]; [done|].
  simpl. intros [Hab H]. split; [done|]. by apply IH.
Qed.

Lemma is_walk_join (edge : coord → coord → Prop) l1 x l3 :
  is_walk edge (l1 ++ [x]) → is_walk edge (x :: l3) →
  is_walk edge (l1 ++ x :: l3).
Proof.
  intros H1 H3. induction l1 as [|a l1 IH]; [done|].
  destruct l1 as [|b l1]; simpl in *.
  - destruct H1 as [Hax _]. done.
  - destruct H1 as [Hab H1]. split; [done|]. by apply IH.
Qed.

(** A walk that visits a cell twice can be cut short. *)
Lemma not_NoDup_split (p : list coord) :
  ¬ NoDup p → ∃ x l1 l2 l3, p = l1 ++ x :: l2 ++ x :: l3.
Proof.
  induction p as [|a p IH]; intros Hnd; [destruct Hnd; constructor|].
  destruct (decide (a ∈ p)) as [Hin|Hnin].
  - apply list_elem_of_split in Hin as (l2 & l3 & ->).
    by exists a, [], l2, l3.
  - destruct IH as (x & l1 & l2 & l3 & ->).
    + intros Hp. apply Hnd. by constructor.
    + by exists x, (a :: l1), l2, l3.
Qed.

Lemma shortest_walk_NoDup (edge : coord → coord → Prop) a b p :
  walk_from_to edge a b p →
  (∀ q, walk_from_to edge a b q → (length p ≤ length q)%nat) →
  NoDup p.
Proof.
  intros (Hh & Hl & Hw) Hmin.
  destruct (decide (NoDup p)) as [|Hnd]; [done|exfalso].
  apply not_NoDup_split in Hnd as (x & l1 & l2 & l3 & ->).
  assert (Hq : walk_from_to edge a b (l1 ++ x :: l3)).
  { split; [|split].
    - rewrite head_app in *. by destruct (head l1).
    - rewrite last_app_cons in *.
      change (x :: l2 ++ x :: l3) with ((x :: l2) ++ x :: l3) in Hl.
      by rewrite last_app_cons in Hl.
    - apply is_walk_join.
      + apply (is_walk_app_l edge (l1 ++ [x]) (l2 ++ x :: l3)).
        by rewrite <- app_assoc.
      + apply (is_walk_app_r edge (l1 ++ x :: l2) (x :: l3)).
        by rewrite <- app_assoc. }
  apply Hmin in Hq. rewrite !length_app in Hq. simpl in Hq.
  rewrite length_app in Hq. simpl in Hq. lia.
Qed.

Lemma walk_without_edges (p : list coord) :
  is_walk (edge_in []) p → (length p ≤ 1)%nat.
Proof.
  destruct p as [|a [|b p]]; simpl; [lia|lia|].
  intros [[H|H] _]; by apply elem_of_nil in H.
Qed.

Lemma walk_avoiding_leaf E u w (p : list coord) :
  w ∉ p → is_walk (edge_in ((u, w) :: E)) p → is_walk (edge_in E) p.
Proof.
  intros Hw. apply is_walk_impl_in.
  intros a b Ha Hb [H|H]; apply elem_of_cons in H as [H|H]; simplify_eq;
    try done; [by left|by right].
Qed.

(** In a simple walk the new leaf of a tree can only come first or last. *)
Lemma leaf_at_end root V E u w (p : list coord) :
  grows root V E → u ∈ V → w ∉ V → NoDup p →
  is_walk (edge_in ((u, w) :: E)) p → w ∈ p →
  head p = Some w ∨ last p = Some w.
Proof.
  intros HG Hu Hw Hnd Hwalk Hin.
  apply list_elem_of_split in Hin as (l1 & l2 & ->).
  destruct l1 as [|x l1 _] using rev_ind; [by left|].
  destruct l2 as [|y l2]; [right; by rewrite last_app_cons|exfalso].
  assert (Hnb : ∀ z, edge_in ((u, w) :: E) w z → z = u)
    by (intros z; by apply (grows_leaf_neighbour root V E)).
  rewrite <- app_assoc in Hwalk, Hnd. simpl in Hwalk, Hnd.
  pose proof (is_walk_mid _ l1 x w (y :: l2) Hwalk) as Hxw.
  apply edge_in_sym, Hnb in Hxw as ->.
  assert (is_walk (edge_in ((u, w) :: E)) ((l1 ++ [u]) ++ w :: y :: l2)) as Hwalk'
    by (by rewrite <- app_assoc).
  pose proof (is_walk_mid _ (l1 ++ [u]) w y l2 Hwalk') as Hwy.
  apply Hnb in Hwy as ->.
  apply NoDup_app in Hnd as (_ & _ & Hnd).
  apply NoDup_cons in Hnd as [Hnd _]. apply Hnd.
  apply list_elem_of_further, list_elem_of_here.
Qed.

(** In a tree grown leaf by leaf two cells are joined by one simple walk
    only. *)
Lemma grows_unique_walk root V E :
  grows root V E →
  ∀ a b p q, NoDup p → NoDup q →
    walk_from_to (edge_in E) a b p → walk_from_to (edge_in E) a b q → p = q.
Proof.
  induction 1 as [|V E u w HG IH Hu Hw].
  - intros a b p q _ _ (Hp1 & _ & Hp3) (Hq1 & _ & Hq3).
    apply walk_without_edges in Hp3, Hq3.
    destruct p as [|x [|? ?]], q as [|y [|? ?]]; simpl in *; try lia;
      congruence.
  - intros a b p q Hndp Hndq Hp Hq.
    assert (Hnb : ∀ z, edge_in ((u, w) :: E) w z → z = u)
      by (intros z; by apply (grows_leaf_neighbour root V E)).
    assert (Hcases : ∀ r, NoDup r → walk_from_to (edge_in ((u, w) :: E)) a b r →
              (a = w ∧ b = w ∧ r = [w])
              ∨ (a = w ∧ b ≠ w
                 ∧ ∃ r', r = w :: r' ∧ NoDup r'
                         ∧ walk_from_to (edge_in E) u b r')
              ∨ (a ≠ w ∧ b = w
                 ∧ ∃ r', r = r' ++ [w] ∧ NoDup r'
                         ∧ walk_from_to (edge_in E) a u r')
              ∨ (a ≠ w ∧ b ≠ w ∧ walk_from_to (edge_in E) a b r)).
    { intros r Hnd (Hh & Hl & Hwalk).
      destruct (decide (a = w)) as [->|Ha], (decide (b = w)) as [->|Hb].
      - left. split; [done|]. split; [done|].
        destruct r as [|x r]; [done|]. simpl in Hh. injection Hh as ->.
        destruct r as [|y r]; [done|exfalso].
        rewrite last_cons_cons in Hl. apply last_Some_elem_of in Hl.
        by apply NoDup_cons in Hnd as [Hnd _].
      - right. left. split; [done|]. split; [done|].
        destruct r as [|x r]; [done|]. simpl in Hh. injection Hh as ->.
        destruct r as [|y r]; [simpl in Hl; congruence|].
        apply NoDup_cons in Hnd as [Hnin Hnd].
        destruct Hwalk as [Hwy Hwalk]. apply Hnb in Hwy as ->.
        exists (u :: r). split; [done|]. split; [done|].
        split; [done|]. split; [by rewrite last_cons_cons in Hl|].
        by apply (walk_avoiding_leaf E u w).
      - right. right. left. split; [done|]. split; [done|].
        apply last_Some in Hl as [r' ->].
        apply NoDup_app in Hnd as (Hnd & Hdisj & _).
        assert (Hnin : w ∉ r').
        { intros Hin. apply (Hdisj w Hin), list_elem_of_here. }
        destruct r' as [|x r' _] using rev_ind;
          [simpl in Hh; congruence|].
        rewrite <- app_assoc in Hwalk. simpl in Hwalk.
        pose proof (is_walk_mid _ r' x w [] Hwalk) as Hxw.
        apply edge_in_sym, Hnb in Hxw as ->.
        exists (r' ++ [u]). split; [done|]. split; [done|].
        split; [|split; [apply last_snoc|]].
        + clear -Hh. destruct r' as [|c r']; simpl in *; done.
        + apply (walk_avoiding_leaf E u w); [done|].
          apply (is_walk_app_l _ (r' ++ [u]) [w]).
          by rewrite <- app_assoc.
      - right. right. right. split; [done|]. split; [done|].
        split; [done|]. split; [done|].
        apply (walk_avoiding_leaf E u w); [|done].
        intros Hin.
        destruct (leaf_at_end root V E u w r HG Hu Hw Hnd Hwalk Hin);
          congruence. }
    destruct (Hcases p Hndp Hp)
      as [(? & ? & ->)|[(? & ? & p' & -> & Hp1 & Hp2)
         |[(? & ? & p' & -> & Hp1 & Hp2)|(? & ? & Hp2)]]];
      destruct (Hcases q Hndq Hq)
        as [(? & ? & ->)|[(? & ? & q' & -> & Hq1 & Hq2)
           |[(? & ? & q' & -> & Hq1 & Hq2)|(? & ? & Hq2)]]];
      try done.
    + f_equal. by apply (IH u b).
    + f_equal. by apply (IH a u).
    + by apply (IH a b).
Qed.

(** X18.  A maze carved in perfect mode, by [dfs] or by [prim], has
    exactly one route without repeated cells between any two cells, and
    the path that the search stores is the one from the entry to the
    exit. *)
Theorem perfect_maze_one_route R g g1 :
  reachable R g → perfect g = true →
  dfs R g = Ret g1 ∨ prim R g = Ret g1 →
  (∀ a b p q, NoDup p → NoDup q →
     walk_from_to (fun x y => passage (maze g1) x y = true) a b p →
     walk_from_to (fun x y => passage (maze g1) x y = true) a b q → p = q)
  ∧ ∃ p, find_shortest_path g1 = Ret (set_path g1 p) ∧ NoDup p
      ∧ walk_from_to (fun x y => passage (maze g1) x y = true)
          (entry g) (maze_exit g) p
      ∧ ∀ q, NoDup q →
          walk_from_to (fun x y => passage (maze g1) x y = true)
            (entry g) (maze_exit g) q → q = p.
Proof.
  intros Hreach Hperf Hcarve.
  destruct (reachable_gen_inv R g Hreach) as [Hcfg _].
  assert (Hrun : ∃ evs, carve_run R g evs g1).
  { destruct Hcarve as [Hd|Hp].
    - unfold dfs in Hd. apply bind_ret_inv in Hd as ([evs g'] & Hs & [= <-]).
      exists evs. by eapply dfs_steps_run.
    - unfold prim in Hp. apply bind_ret_inv in Hp as ([evs g'] & Hs & [= <-]).
      exists evs. by eapply prim_steps_run. }
  destruct Hrun as [evs Hrun].
  destruct (carve_run_solved R g evs g1 Hcfg Hrun)
    as (ys & p & _ & Hsp & _ & Hw & Hmin).
  destruct Hrun as (rest & m & V & E & _ & _ & Htree & _ & _ & Hfin).
  rewrite Hperf in Hfin. injection Hfin as <-. simpl in *.
  assert (Huniq : ∀ a b p q, NoDup p → NoDup q →
            walk_from_to (fun x y => passage m x y = true) a b p →
            walk_from_to (fun x y => passage m x y = true) a b q → p = q).
  { intros a b p' q' Hp' Hq' (H1 & H2 & H3) (H4 & H5 & H6).
    apply (grows_unique_walk _ _ _ (ti_grows _ _ _ _ Htree) a b); try done.
    - split; [done|]. split; [done|]. eapply is_walk_impl; [|exact H3].
      intros x y. apply (ti_edges _ _ _ _ Htree).
    - split; [done|]. split; [done|]. eapply is_walk_impl; [|exact H6].
      intros x y. apply (ti_edges _ _ _ _ Htree). }
  split; [done|].
  pose proof (shortest_walk_NoDup _ _ _ _ Hw Hmin) as Hnd.
  exists p. split; [done|]. split; [done|]. split; [done|].
  intros q Hq Hwq. by apply (Huniq (entry g) (maze_exit g)).
Qed.

Lemma perfect_maze_one_route_witness :
  (∀ a b p q, NoDup p → NoDup q →
     walk_from_to (fun x y => passage (maze g9_carved) x y = true) a b p →
     walk_from_to (fun x y => passage (maze g9_carved) x y = true) a b q →
     p = q)
  ∧ ∃ p, find_shortest_path g9_carved = Ret (set_path g9_carved p) ∧ NoDup p
      ∧ walk_from_to (fun x y => passage (maze g9_carved) x y = true)
          (entry g9) (maze_exit g9) p
      ∧ ∀ q, NoDup q →
          walk_from_to (fun x y => passage (maze g9_carved) x y = true)
            (entry g9) (maze_exit g9) q → q = p.
Proof.
  apply (perfect_maze_one_route lcg g9 g9_carved (g9_reachable lcg) eq_refl).
  left. exact g9_dfs.
Defined.
